(** * podcast_transcriber: the backend, embedded and verified

    A shallow embedding of [backend/itunes_api.py] and of [backend/main.py]:
    the audio pipeline (splitter, segment transcriber, transcription
    endpoint), the search endpoints and the masked key of the start-up
    banner.  The summarising endpoint is not embedded: what it answers is
    text formatted by libraries outside the program.

    - Python dictionaries are [gmap string _], JSON values are [json].
    - Python floats are exact rationals ([Q]); [int(x)] truncates toward zero
      and [math.ceil] is [Qceiling].  Every float the fixed policy of the
      endpoint computes (20 MB, 300 s, 25 MB) is exact under this reading.
    - A path is a name: the file system maps path strings to files and
      directories, and two strings name two places (no symbolic links, no [.]
      or [..] components), as with the paths the program builds.
    - The file system, the standard output and the request frame are explicit
      state; exceptions are values.  Everything outside the program (HTTP
      servers, ffmpeg, the transcription provider, I/O faults) is an oracle in
      an environment record, so every theorem quantifies over their behaviour. *)

From Stdlib Require Import ZArith NArith QArith Qround String Ascii.
From Stdlib Require Import DecimalString DecimalNat Sorted.
From stdpp Require Import gmap strings list fin_maps.

#[local] Set Warnings "-register-all".
#[local] Open Scope string_scope.
#[local] Open Scope Z_scope.

(** ** Exceptions *)

(** The exception classes the program raises or dispatches on.
    [requests.exceptions.RequestException] derives from [IOError];
    [requests.exceptions.JSONDecodeError] derives from both
    [RequestException] and [ValueError].  Only subclasses of [Exception] are
    modelled ([KeyboardInterrupt] and the like never appear). *)
Inductive exn_class :=
| RequestException
| RequestsJSONDecodeError
| OSError
| SubprocessError
| ValueError
| ZeroDivisionError
| AttributeError
| TypeError
| KeyError
| Exception.

Inductive exn :=
| HTTPException (status_code : Z) (detail : string)
| Raised (cls : exn_class) (msg : string).

Inductive result (A : Type) :=
| Ok (a : A)
| Raise (e : exn).
Arguments Ok {A} a.
Arguments Raise {A} e.

Definition isinstance_RequestException (e : exn) : bool :=
  match e with
  | Raised RequestException _ | Raised RequestsJSONDecodeError _ => true
  | _ => false
  end.

Definition isinstance_ValueError (e : exn) : bool :=
  match e with
  | Raised ValueError _ | Raised RequestsJSONDecodeError _ => true
  | _ => false
  end.

(** [IOError] is an alias of [OSError]. *)
Definition isinstance_IOError (e : exn) : bool :=
  match e with
  | Raised OSError _ | Raised RequestException _
  | Raised RequestsJSONDecodeError _ => true
  | _ => false
  end.

Definition isinstance_SubprocessError (e : exn) : bool :=
  match e with
  | Raised SubprocessError _ => true
  | _ => false
  end.

Definition isinstance_HTTPException (e : exn) : bool :=
  match e with
  | HTTPException _ _ => true
  | _ => false
  end.

(** ** Python numbers and strings *)

(** [int(x)] on a float. *)
Definition py_int (x : Q) : Z := Z.quot (Qnum x) (Zpos (Qden x)).

(** [str(n)] on a natural number. *)
Definition str_nat (n : nat) : string := NilEmpty.string_of_uint (Nat.to_uint n).

(** [str(n)] on an integer. *)
Definition str_int (n : Z) : string :=
  if n <? 0 then "-" ++ str_nat (Z.to_nat (- n)) else str_nat (Z.to_nat n).

Fixpoint zeros (k : nat) : string :=
  match k with
  | O => ""
  | S k' => String "0" (zeros k')
  end.

(** [f"{i:03d}"] for [i >= 0]: decimal digits, padded with zeros on the left
    to a width of three. *)
Definition fmt_03d (i : nat) : string :=
  let s := str_nat i in
  zeros (3 - String.length s) ++ s.

(** [str(e)]; Starlette prints an [HTTPException] as its status and detail. *)
Definition str_exn (e : exn) : string :=
  match e with
  | HTTPException status_code detail => str_int status_code ++ ": " ++ detail
  | Raised _ msg => msg
  end.

Definition lower_ascii (c : ascii) : ascii :=
  let n := nat_of_ascii c in
  if (65 <=? n)%nat && (n <=? 90)%nat then ascii_of_nat (n + 32) else c.

(** [s.lower()], on ASCII text. *)
Fixpoint lower (s : string) : string :=
  match s with
  | EmptyString => EmptyString
  | String c s' => String (lower_ascii c) (lower s')
  end.

(** [sub in s] on strings. *)
Definition str_contains (sub s : string) : bool :=
  match String.index 0 sub s with
  | Some _ => true
  | None => false
  end.

(** [sep.join(parts)]. *)
Definition str_join (sep : string) (parts : list string) : string :=
  String.concat sep parts.

Fixpoint str_ends_with_slash (s : string) : bool :=
  match s with
  | EmptyString => false
  | String c EmptyString => Ascii.eqb c "/"
  | String _ s' => str_ends_with_slash s'
  end.

(** [os.path.join(a, b)] for a relative [b]. *)
Definition os_path_join (a b : string) : string :=
  if String.eqb a "" || str_ends_with_slash a then a ++ b else a ++ "/" ++ b.

(** ** JSON values *)

Inductive json :=
| JNull
| JBool (b : bool)
| JInt (n : Z)
| JFloat (x : Q)
| JStr (s : string)
| JArr (l : list json)
| JObj (m : gmap string json).

(** [d.get(key, default)]. *)
Definition dict_get (d : gmap string json) (key : string) (dflt : json) : json :=
  default dflt (d !! key).

(** [key in d]. *)
Definition dict_has (d : gmap string json) (key : string) : bool :=
  bool_decide (is_Some (d !! key)).

(** [v == s] for a string literal [s]. *)
Definition json_eq_str (v : option json) (s : string) : bool :=
  match v with
  | Some (JStr s') => String.eqb s' s
  | _ => false
  end.

(** Truth value of an [Optional[str]]. *)
Definition truthy_str (s : option string) : bool :=
  match s with
  | Some s' => negb (String.eqb s' "")
  | None => false
  end.

(** Truth value of an [Optional[Dict]]. *)
Definition truthy_dict (d : option (gmap string json)) : bool :=
  match d with
  | Some m => negb (bool_decide (m = ∅))
  | None => false
  end.

(** ** backend/itunes_api.py *)

Module itunes_api.

Definition ITUNES_API_BASE_URL : string := "https://itunes.apple.com/search".
Definition ITUNES_LOOKUP_API_BASE_URL : string := "https://itunes.apple.com/lookup".

(** What [requests.get] hands back: [raise_for_status()] raises or not, and
    [json()] parses the body or raises. *)
Record response := {
  raise_for_status : option exn;
  json_body : result json
}.

(** The network: [requests.get(url, params=..., timeout=15)]. *)
Record Env := {
  requests_get : string -> gmap string json -> result response
}.

Definition is_podcast_lookup (entity : option string)
    (additional_params : option (gmap string json)) : bool :=
  match entity, additional_params with
  | Some e, Some m =>
      String.eqb e "podcastEpisode" && negb (bool_decide (m = ∅))
      && dict_has m "collectionId"
  | _, _ => false
  end.

(** The [try] block of [search_itunes] (lines 43-101). *)
Definition search_itunes_try (env : Env) (query media : string)
    (entity : option string) (limit : Z) (country : string)
    (additional_params : option (gmap string json)) : result json :=
  let sent :=
    if is_podcast_lookup entity additional_params then
      let podcast_id := dict_get (default ∅ additional_params) "collectionId" JNull in
      let lookup_params : gmap string json :=
        <["id" := podcast_id]> (<["entity" := JStr "podcastEpisode"]>
          (<["limit" := JInt limit]> (<["country" := JStr country]> ∅))) in
      requests_get env ITUNES_LOOKUP_API_BASE_URL lookup_params
    else
      let params : gmap string json :=
        <["term" := JStr query]> (<["media" := JStr media]>
          (<["limit" := JInt limit]> (<["country" := JStr country]> ∅))) in
      let params :=
        if truthy_str entity then <["entity" := JStr (default "" entity)]> params
        else params in
      let params :=
        if truthy_dict additional_params then default ∅ additional_params ∪ params
        else params in
      requests_get env ITUNES_API_BASE_URL params in
  match sent with
  | Raise e => Raise e
  | Ok resp =>
      match raise_for_status resp with
      | Some e => Raise e
      | None =>
          match json_body resp with
          | Raise e => Raise e
          | Ok data =>
              (* result_count = data.get("resultCount", 0) *)
              match data with
              | JObj _ => Ok data
              | _ => Raise (Raised AttributeError "object has no attribute 'get'")
              end
          end
      end
  end.

Definition error_payload (message : string) : json :=
  JObj (<["error" := JStr message]> (<["resultCount" := JInt 0]>
         (<["results" := JArr []]> ∅))).

(** [search_itunes]: the [try] block under its three [except] clauses, in
    the order of the source. *)
Definition search_itunes (env : Env) (query media : string)
    (entity : option string) (limit : Z) (country : string)
    (additional_params : option (gmap string json)) : result json :=
  match search_itunes_try env query media entity limit country additional_params with
  | Ok data => Ok data
  | Raise e =>
      if isinstance_RequestException e then
        Ok (error_payload ("Request failed: " ++ str_exn e))
      else if isinstance_ValueError e then
        Ok (error_payload ("Failed to parse response: " ++ str_exn e))
      else
        Ok (error_payload ("Unexpected error: " ++ str_exn e))
  end.

(** *** format_podcast_results *)

(** [len(x)]. *)
Definition py_len (x : json) : result Z :=
  match x with
  | JArr l => Ok (Z.of_nat (length l))
  | JStr s => Ok (Z.of_nat (String.length s))
  | JObj m => Ok (Z.of_nat (size m))
  | _ => Raise (Raised TypeError "object has no len()")
  end.

(** [x[0]], for an [x] with [len(x) > 0]. *)
Definition py_first (x : json) : result json :=
  match x with
  | JArr (a :: _) => Ok a
  | JStr (String c _) => Ok (JStr (String c EmptyString))
  | JObj _ => Raise (Raised KeyError "0")
  | _ => Raise (Raised TypeError "object is not subscriptable")
  end.

(** [key in x]: a key of a dict, a substring of a string, an element of a
    list. *)
Definition py_in (key : string) (x : json) : result bool :=
  match x with
  | JObj m => Ok (dict_has m key)
  | JStr s => Ok (str_contains key s)
  | JArr l => Ok (existsb (fun v => json_eq_str (Some v) key) l)
  | _ => Raise (Raised TypeError "argument is not iterable")
  end.

(** The test of line 128, with the short-circuit order of [and]. *)
Definition is_lookup_header (results : json) : result bool :=
  match py_len results with
  | Raise e => Raise e
  | Ok n =>
      if n >? 0 then
        match py_first results with
        | Raise e => Raise e
        | Ok first =>
            match py_in "kind" first with
            | Raise e => Raise e
            | Ok has_kind =>
                if negb has_kind then py_in "collectionId" first else Ok false
            end
        end
      else Ok false
  end.

(** [results[1:]]. *)
Definition py_tail (x : json) : json :=
  match x with
  | JArr l => JArr (tail l)
  | JStr (String _ s) => JStr s
  | _ => x
  end.

Fixpoint chars (s : string) : list json :=
  match s with
  | EmptyString => []
  | String c s' => JStr (String c EmptyString) :: chars s'
  end.

(** The items [for item in x] visits, for an [x] that has a length. *)
Definition py_iter (x : json) : list json :=
  match x with
  | JArr l => l
  | JStr s => chars s
  | JObj m => (fun kv => JStr kv.1) <$> map_to_list m
  | _ => []
  end.

Definition format_podcast (item : gmap string json) : gmap string json :=
  list_to_map [
    ("id", dict_get item "collectionId" (JStr ""));
    ("title", dict_get item "collectionName" (JStr ""));
    ("description",
       dict_get item "description" (dict_get item "collectionCensoredName" (JStr "")));
    ("artwork_url",
       dict_get item "artworkUrl600" (dict_get item "artworkUrl100" (JStr "")));
    ("artist", dict_get item "artistName" (JStr ""));
    ("feed_url", dict_get item "feedUrl" (JStr ""));
    ("genre", dict_get item "primaryGenreName" (JStr ""));
    ("release_date", dict_get item "releaseDate" (JStr ""));
    ("episode_count", dict_get item "trackCount" (JInt 0));
    ("country", dict_get item "country" (JStr ""));
    ("type", JStr "podcast") ].

Definition format_episode (item : gmap string json) : gmap string json :=
  list_to_map [
    ("id", dict_get item "trackId" (JStr ""));
    ("podcast_id", dict_get item "collectionId" (JStr ""));
    ("podcast_title", dict_get item "collectionName" (JStr ""));
    ("title", dict_get item "trackName" (JStr ""));
    ("description", dict_get item "description" (JStr ""));
    ("artwork_url",
       dict_get item "artworkUrl600" (dict_get item "artworkUrl100" (JStr "")));
    ("audio_url", dict_get item "episodeUrl" (dict_get item "previewUrl" (JStr "")));
    ("duration", dict_get item "trackTimeMillis" (JInt 0));
    ("release_date", dict_get item "releaseDate" (JStr ""));
    ("episode_number", dict_get item "episodeNumber" (JStr ""));
    ("season", dict_get item "seasonNumber" (JStr ""));
    ("type", JStr "episode") ].

Definition format_unknown (item : gmap string json) : gmap string json :=
  list_to_map [
    ("id", dict_get item "trackId" (dict_get item "collectionId" (JStr "")));
    ("title", dict_get item "trackName" (dict_get item "collectionName" (JStr "")));
    ("description", dict_get item "description" (JStr ""));
    ("artwork_url", dict_get item "artworkUrl100" (JStr ""));
    ("type", JStr "unknown") ].

(** The body of the [for] loop (lines 132-174) on a dictionary. *)
Definition format_item (item : gmap string json) : gmap string json :=
  if json_eq_str (item !! "kind") "podcast" then format_podcast item
  else if json_eq_str (item !! "kind") "podcast-episode"
          || (dict_has item "episodeUrl" && dict_has item "collectionId"
              && dict_has item "trackId")
  then format_episode item
  else format_unknown item.

(** The loop itself: [item.get] exists on dictionaries only. *)
Fixpoint format_all (items : list json) : result (list (gmap string json)) :=
  match items with
  | [] => Ok []
  | JObj item :: rest =>
      match format_all rest with
      | Ok formatted => Ok (format_item item :: formatted)
      | Raise e => Raise e
      end
  | _ :: _ => Raise (Raised AttributeError "object has no attribute 'get'")
  end.

Definition format_podcast_results (itunes_results : gmap string json)
    : result (list (gmap string json)) :=
  let results := dict_get itunes_results "results" (JArr []) in
  match is_lookup_header results with
  | Raise e => Raise e
  | Ok skip =>
      let results := if skip then py_tail results else results in
      format_all (py_iter results)
  end.

End itunes_api.

(** ** State and exceptions *)

(** A computation over a state [S]: it returns or raises, and leaves a state
    behind either way (what an exception does not undo stays done). *)
Definition M (S A : Type) : Type := S -> result A * S.

Definition ret {S A} (a : A) : M S A := fun s => (Ok a, s).

Definition raise {S A} (e : exn) : M S A := fun s => (Raise e, s).

Definition bind {S A B} (m : M S A) (k : A -> M S B) : M S B :=
  fun s =>
    match m s with
    | (Ok a, s') => k a s'
    | (Raise e, s') => (Raise e, s')
    end.

(** [try: m  except Exception as e: h e]; a handler for a narrower class
    re-raises what it does not match. *)
Definition try_except {S A} (m : M S A) (h : exn -> M S A) : M S A :=
  fun s =>
    match m s with
    | (Ok a, s') => (Ok a, s')
    | (Raise e, s') => h e s'
    end.

Definition gets {S A} (f : S -> A) : M S A := fun s => (Ok (f s), s).

Definition modify {S} (f : S -> S) : M S unit := fun s => (Ok tt, f s).

Notation "'do' x <- m ; k" := (bind m (fun x => k))
  (at level 10, x name, m at level 100, k at level 200).
Notation "'do' ' pat <- m ; k" := (bind m (fun x => match x with pat => k end))
  (at level 10, pat pattern, m at level 100, k at level 200).
Notation "m ;; k" := (bind m (fun _ => k))
  (at level 100, k at level 200, right associativity).

(** [moves R m]: whatever [m] does and however it ends, the state it leaves
    is [R]-related to the one it started in. *)
Definition moves {S A} (R : S -> S -> Prop) (m : M S A) : Prop :=
  forall s, R s (m s).2.

(** [raises P m]: whatever [m] raises satisfies [P]. *)
Definition raises {S A} (P : exn -> Prop) (m : M S A) : Prop :=
  forall s e s', m s = (Raise e, s') -> P e.

(** ** backend/main.py *)

Module main.

(** *** The world outside the program *)

(** The bytes of a file: a length and the byte at each offset. *)
Record Content := {
  csize : N;
  cbyte : N -> Byte.byte
}.

Inductive node :=
| File (c : Content)
| Dir.

(** What the program prints or launches, in order.  Each event is a [print]
    of the source (with its values, not its text) or a subprocess it runs. *)
Inductive event :=
| EvDownloaded (path : string) (file_size : Z)   (* line 408 *)
| EvTooLarge                                      (* line 415 *)
| EvTempDir (temp_dir : string)                   (* line 419 *)
| EvSplitInto (n : nat)                           (* line 433 *)
| EvDirect                                        (* line 463 *)
| EvPythonFallback                                (* line 177 *)
| EvSplittingInto (num_chunks : Z)                (* line 258 *)
| EvFfmpegExtract (i : nat) (output_file : string) (* line 279 *)
| EvTranscribing (chunk_file : string).           (* line 306 *)

Record World := {
  fs : gmap string node;
  trace : list event
}.

Inductive fs_op :=
| OpOpenWrite (path : string)
| OpOpenRead (path : string)
| OpGetsize (path : string)
| OpRemove (path : string)
| OpRmtree (path : string)
| OpMakedirs (path : string)
| OpMkdtemp.

(** [requests.get(url, stream=True)]: the status check, the bytes received,
    and the error that cut the stream short, if one did. *)
Record audio_response := {
  audio_raise_for_status : option exn;
  audio_body : Content;
  audio_stream_error : option exn
}.

(** One run of the ffmpeg extraction command: [CalledProcessError] or not,
    and what it wrote to its output file, if anything. *)
Record ffmpeg_run := {
  ffmpeg_error : option string;
  ffmpeg_written : option Content
}.

(** [requests.post] to the transcription endpoint: status, body text, and
    the ["text"] member of [json()] ([None] when absent). *)
Record post_response := {
  post_status_code : Z;
  post_text : string;
  post_json_text : result (option string)
}.

(** Everything the program does not decide.  Each oracle sees the world at
    the moment of the call, so two calls need not answer alike. *)
Record Env := {
  OPENAI_API_KEY : option string;
  io_fault : World -> fs_op -> option string;
  dir_st_size : string -> N;
  gettempdir : string;
  candidate_names : World -> list string;
  requests_get : World -> string -> result audio_response;
  ffmpeg_version : World -> bool;
  ffmpeg_duration : World -> string -> result Q;
  ffmpeg_extract : World -> string -> Q -> Q -> string -> ffmpeg_run;
  whisper_client : World -> string -> result string;
  requests_post : World -> string -> result post_response
}.

Definition print (ev : event) : M World unit :=
  modify (fun w => {| fs := fs w; trace := (trace w ++ [ev])%list |}).

(** *** The file system calls *)

Definition fault (env : Env) (op : fs_op) : M World unit :=
  fun w =>
    match io_fault env w op with
    | Some msg => (Raise (Raised OSError msg), w)
    | None => (Ok tt, w)
    end.

(** [os.path.exists(path)]. *)
Definition os_path_exists (path : string) : M World bool :=
  gets (fun w => bool_decide (is_Some (fs w !! path))).

(** [os.path.getsize(path)]. *)
Definition os_path_getsize (env : Env) (path : string) : M World Z :=
  fault env (OpGetsize path) ;;
  fun w =>
    match fs w !! path with
    | Some (File c) => (Ok (Z.of_N (csize c)), w)
    | Some Dir => (Ok (Z.of_N (dir_st_size env path)), w)
    | None => (Raise (Raised OSError "No such file or directory"), w)
    end.

(** [with open(path, 'wb') as f: f.write(data)]. *)
Definition write_file (env : Env) (path : string) (data : Content) : M World unit :=
  fault env (OpOpenWrite path) ;;
  fun w =>
    match fs w !! path with
    | Some Dir => (Raise (Raised OSError "Is a directory"), w)
    | _ => (Ok tt, {| fs := <[path := File data]> (fs w); trace := trace w |})
    end.

(** [open(path, 'rb')]. *)
Definition open_rb (env : Env) (path : string) : M World unit :=
  fault env (OpOpenRead path) ;;
  fun w =>
    match fs w !! path with
    | Some (File _) => (Ok tt, w)
    | Some Dir => (Raise (Raised OSError "Is a directory"), w)
    | None => (Raise (Raised OSError "No such file or directory"), w)
    end.

(** [n] bytes of [c] from offset [pos] on, or all of them for a negative [n]. *)
Definition slice (c : Content) (pos : N) (n : Z) : Content :=
  {| csize := if n <? 0 then (csize c - pos)%N
              else N.min (Z.to_N n) (csize c - pos)%N;
     cbyte := fun i => cbyte c (pos + i)%N |}.

(** [f.read(n)] on a handle of [path] whose cursor is at [pos]. *)
Definition file_read (path : string) (pos : N) (n : Z) : M World Content :=
  fun w =>
    match fs w !! path with
    | Some (File c) => (Ok (slice c pos n), w)
    | _ => (Raise (Raised OSError "read failed"), w)
    end.

(** [os.remove(path)]. *)
Definition os_remove (env : Env) (path : string) : M World unit :=
  fault env (OpRemove path) ;;
  fun w =>
    match fs w !! path with
    | Some (File _) => (Ok tt, {| fs := delete path (fs w); trace := trace w |})
    | Some Dir => (Raise (Raised OSError "Is a directory"), w)
    | None => (Raise (Raised OSError "No such file or directory"), w)
    end.

Definition inside (d path : string) : bool := String.prefix (d ++ "/") path.

(** [shutil.rmtree(d)]: the directory and all that lies under it. *)
Definition shutil_rmtree (env : Env) (d : string) : M World unit :=
  fault env (OpRmtree d) ;;
  fun w =>
    match fs w !! d with
    | Some Dir =>
        (Ok tt,
         {| fs := delete d (filter (fun kv => inside d kv.1 = false) (fs w));
            trace := trace w |})
    | Some (File _) => (Raise (Raised OSError "Not a directory"), w)
    | None => (Raise (Raised OSError "No such file or directory"), w)
    end.

(** The directories above [p]: what precedes each separator of [p].  Nothing
    precedes the leading separator of an absolute path, and a doubled
    separator counts once. *)
Fixpoint parents_from (pre rest : string) : list string :=
  match rest with
  | EmptyString => []
  | String c rest' =>
      (if Ascii.eqb c "/" && negb (String.eqb pre "") && negb (str_ends_with_slash pre)
       then [pre] else [])
      ++ parents_from (pre ++ String c EmptyString) rest'
  end.

Definition parents (p : string) : list string := parents_from "" p.

Definition is_file (files : gmap string node) (p : string) : bool :=
  match files !! p with
  | Some (File _) => true
  | _ => false
  end.

(** [os.mkdir] on each path of [dirs] in turn. *)
Fixpoint make_dirs (dirs : list string) (files : gmap string node) : gmap string node :=
  match dirs with
  | [] => files
  | p :: rest => make_dirs rest (<[p := Dir]> files)
  end.

(** [os.makedirs(d, exist_ok=True)]: a directory that is there is left alone;
    otherwise the missing directories above [d] are created, then [d].  The
    empty path, a regular file at [d] and a regular file above [d] raise
    ([FileNotFoundError], [FileExistsError], [NotADirectoryError]). *)
Definition os_makedirs (env : Env) (d : string) : M World unit :=
  fault env (OpMakedirs d) ;;
  fun w =>
    if String.eqb d "" then (Raise (Raised OSError "No such file or directory"), w)
    else
      match fs w !! d with
      | Some Dir => (Ok tt, w)
      | Some (File _) => (Raise (Raised OSError "File exists"), w)
      | None =>
          if existsb (is_file (fs w)) (parents d) then
            (Raise (Raised OSError "Not a directory"), w)
          else
            (Ok tt, {| fs := make_dirs (parents d ++ [d]) (fs w); trace := trace w |})
      end.

Fixpoint first_free (files : gmap string node) (dir pre : string)
    (names : list string) : option string :=
  match names with
  | [] => None
  | name :: rest =>
      let path := os_path_join dir (pre ++ name) in
      if bool_decide (is_Some (files !! path)) then first_free files dir pre rest
      else Some path
  end.

(** [tempfile.mkdtemp(prefix=pre)]: the library tries its candidate names in
    turn and creates the first one that does not exist yet. *)
Definition tempfile_mkdtemp (env : Env) (pre : string) : M World string :=
  fault env OpMkdtemp ;;
  fun w =>
    match first_free (fs w) (gettempdir env) pre (candidate_names env w) with
    | Some path => (Ok path, {| fs := <[path := Dir]> (fs w); trace := trace w |})
    | None => (Raise (Raised OSError "No usable temporary directory name found"), w)
    end.

(** *** Audio processing functions *)

(** [check_ffmpeg_installed]. *)
Definition check_ffmpeg_installed (env : Env) : M World bool :=
  gets (ffmpeg_version env).

(** [os.path.join(output_dir, f"chunk_{i:03d}.mp3")]. *)
Definition chunk_path (output_dir : string) (i : nat) : string :=
  os_path_join output_dir ("chunk_" ++ fmt_03d i ++ ".mp3").

(** One turn of the loop of [split_audio_file_python] (lines 198-210), for
    chunk [i]; [pos] is the cursor of the handle [f] on the input file.  It
    returns the output file and the number of bytes read. *)
Definition python_chunk (env : Env) (input_file output_dir : string)
    (chunk_size : Z) (i : nat) (pos : N) : M World (string * N) :=
  let output_file := chunk_path output_dir i in
  do data <- file_read input_file pos chunk_size;
  write_file env output_file data ;;
  do _ <- os_path_getsize env output_file;
  ret (output_file, csize data).

(** The loop itself (line 197). *)
Fixpoint python_chunks (env : Env) (input_file output_dir : string)
    (chunk_size : Z) (indices : list nat) (pos : N) (chunk_files : list string)
    : M World (list string) :=
  match indices with
  | [] => ret chunk_files
  | i :: rest =>
      do '(output_file, n) <- python_chunk env input_file output_dir chunk_size i pos;
      python_chunks env input_file output_dir chunk_size rest
        (pos + n)%N (chunk_files ++ [output_file])%list
  end.

(** [range(n)]. *)
Definition range (n : Z) : list nat := seq 0 (Z.to_nat n).

(** [split_audio_file_python].  The chunk size and the chunk count are
    computed by the program in floating point and here over the rationals:
    the two agree when [max_size_mb] is a whole number of megabytes (up to
    2^20 at least) and the file has fewer than 2^53 bytes, which is where the
    theorem on the sizes of its chunks is stated. *)
Definition split_audio_file_python (env : Env) (input_file output_dir : string)
    (max_size_mb : Q) : M World (list string) :=
  print EvPythonFallback ;;
  os_makedirs env output_dir ;;
  do file_size <- os_path_getsize env input_file;
  let chunk_size := py_int (max_size_mb * 0.95 * 1024 * 1024)%Q in
  if chunk_size =? 0 then raise (Raised ZeroDivisionError "division by zero")
  else
    let num_chunks := Qceiling (inject_Z file_size / inject_Z chunk_size)%Q in
    open_rb env input_file ;;
    python_chunks env input_file output_dir chunk_size (range num_chunks) 0%N [].

(** [subprocess.run(cmd, capture_output=True, check=True)] for the extraction
    command: ffmpeg writes its output file, nothing else. *)
Definition run_ffmpeg_extract (env : Env) (input_file : string)
    (start_time duration : Q) (i : nat) (output_file : string) : M World unit :=
  print (EvFfmpegExtract i output_file) ;;
  fun w =>
    let run := ffmpeg_extract env w input_file start_time duration output_file in
    let files :=
      match ffmpeg_written run, fs w !! output_file with
      | Some _, Some Dir => fs w
      | Some c, _ => <[output_file := File c]> (fs w)
      | None, _ => fs w
      end in
    let w' := {| fs := files; trace := trace w |} in
    match ffmpeg_error run with
    | Some msg => (Raise (Raised SubprocessError msg), w')
    | None => (Ok tt, w')
    end.

(** One turn of the loop of [split_audio_file] (lines 264-292), for chunk
    [i]: the list of chunk files after it. *)
Definition ffmpeg_chunk (env : Env) (input_file output_dir : string)
    (chunk_duration_seconds : Q) (num_chunks : Z) (i : nat)
    (chunk_files : list string) : M World (list string) :=
  let start_time := (inject_Z (Z.of_nat i) * chunk_duration_seconds)%Q in
  let output_file := chunk_path output_dir i in
  try_except
    (run_ffmpeg_extract env input_file start_time chunk_duration_seconds
       i output_file ;;
     do there <- os_path_exists output_file;
     if there then
       do size <- os_path_getsize env output_file;
       if size >? 0 then ret (chunk_files ++ [output_file])%list
       else ret chunk_files
     else ret chunk_files)
    (fun e =>
       if isinstance_SubprocessError e then
         if Z.of_nat i <? num_chunks - 1 then
           raise (Raised Exception ("Failed to split audio file: " ++ str_exn e))
         else ret chunk_files
       else raise e).

(** The loop itself (line 263). *)
Fixpoint ffmpeg_chunks (env : Env) (input_file output_dir : string)
    (chunk_duration_seconds : Q) (num_chunks : Z) (indices : list nat)
    (chunk_files : list string) : M World (list string) :=
  match indices with
  | [] => ret chunk_files
  | i :: rest =>
      do chunk_files <-
        ffmpeg_chunk env input_file output_dir chunk_duration_seconds num_chunks
          i chunk_files;
      ffmpeg_chunks env input_file output_dir chunk_duration_seconds num_chunks
        rest chunk_files
  end.

Definition Qis_zero (x : Q) : bool := Qnum x =? 0.

(** Line 257. *)
Definition num_chunks_of (duration chunk_duration_seconds : Q) : Z :=
  Z.max 1 (py_int (duration / chunk_duration_seconds)%Q + 1).

(** Lines 244-254: the duration ffmpeg reports, or the estimate from the
    file size when the command fails. *)
Definition audio_duration (env : Env) (input_file : string)
    (chunk_duration_seconds max_size_mb : Q) : M World Q :=
  try_except
    (fun w => (ffmpeg_duration env w input_file, w))
    (fun e =>
       if isinstance_SubprocessError e then
         do file_size <- os_path_getsize env input_file;
         let file_size_mb := (inject_Z file_size / (1024 * 1024))%Q in
         if Qis_zero max_size_mb then
           raise (Raised ZeroDivisionError "float division by zero")
         else
           let num_chunks := Z.max 1 (py_int (file_size_mb / max_size_mb)%Q + 1) in
           ret (inject_Z num_chunks * chunk_duration_seconds)%Q
       else raise e).

Definition split_audio_file (env : Env) (input_file output_dir : string)
    (chunk_duration_seconds max_size_mb : Q) : M World (list string) :=
  do installed <- check_ffmpeg_installed env;
  if negb installed then split_audio_file_python env input_file output_dir max_size_mb
  else
    os_makedirs env output_dir ;;
    do duration <- audio_duration env input_file chunk_duration_seconds max_size_mb;
    if Qis_zero chunk_duration_seconds then
      raise (Raised ZeroDivisionError "float division by zero")
    else
      let num_chunks := num_chunks_of duration chunk_duration_seconds in
      print (EvSplittingInto num_chunks) ;;
      ffmpeg_chunks env input_file output_dir chunk_duration_seconds num_chunks
        (range num_chunks) [].

(** [transcribe_audio_chunk]: the client library first, the raw HTTP call
    when that fails. *)
Definition transcribe_audio_chunk (env : Env) (chunk_file : string) : M World string :=
  print (EvTranscribing chunk_file) ;;
  try_except
    (try_except
       (open_rb env chunk_file ;;
        fun w => (whisper_client env w chunk_file, w))
       (fun _ =>
          try_except
            (open_rb env chunk_file ;;
             do api_response <- (fun w => (requests_post env w chunk_file, w));
             if post_status_code api_response =? 200 then
               match post_json_text api_response with
               | Ok text => ret (default "" text)
               | Raise e => raise e
               end
             else
               raise (Raised Exception
                        ("API call failed: " ++ str_int (post_status_code api_response)
                         ++ " - " ++ post_text api_response)))
            (fun e => raise e)))
    (fun e => raise e).

(** *** The transcription endpoint *)

(** The state of one request: the world, and the local variable [temp_dir]
    that the [except] clauses read. *)
Record Frame := {
  world : World;
  temp_dir : option string
}.

Definition lift {A} (m : M World A) : M Frame A :=
  fun f =>
    match m (world f) with
    | (r, w) => (r, {| world := w; temp_dir := temp_dir f |})
    end.

Definition set_temp_dir (d : option string) : M Frame unit :=
  modify (fun f => {| world := world f; temp_dir := d |}).

Definition temp_audio_path : string := "temp_audio.mp3".

(** 25 MB in bytes (line 414). *)
Definition SIZE_LIMIT : Z := 25 * 1024 * 1024.

(** [if os.path.exists(temp_audio_path): os.remove(temp_audio_path)]. *)
Definition remove_audio (env : Env) : M World unit :=
  do there <- os_path_exists temp_audio_path;
  if there then os_remove env temp_audio_path else ret tt.

(** [temp_dir and os.path.exists(temp_dir)]: the directory, when the test
    holds. *)
Definition temp_dir_there : M Frame (option string) :=
  do dir <- gets temp_dir;
  match dir with
  | Some d =>
      if String.eqb d "" then ret None
      else
        do there <- lift (os_path_exists d);
        ret (if there then Some d else None)
  | None => ret None
  end.

(** [if temp_dir and os.path.exists(temp_dir): shutil.rmtree(temp_dir)]. *)
Definition remove_temp_dir (env : Env) : M Frame unit :=
  do there <- temp_dir_there;
  match there with
  | Some d => lift (shutil_rmtree env d)
  | None => ret tt
  end.

(** The loop of lines 436-439. *)
Fixpoint transcribe_chunks (env : Env) (chunk_files : list string)
    (transcripts : list string) : M World (list string) :=
  match chunk_files with
  | [] => ret transcripts
  | chunk_file :: rest =>
      do chunk_transcript <- transcribe_audio_chunk env chunk_file;
      transcribe_chunks env rest (transcripts ++ [chunk_transcript])%list
  end.

(** Lines 445-455: the clean-up that ends the chunked path. *)
Definition finish_chunks (env : Env) (full_transcript : string) : M Frame string :=
  lift (remove_audio env) ;;
  do there <- temp_dir_there;
  match there with
  | Some d =>
      lift (shutil_rmtree env d) ;;
      set_temp_dir None ;;
      ret full_transcript
  | None => ret full_transcript
  end.

(** Lines 421-459: split, transcribe every chunk, join, clean up. *)
Definition transcribe_in_chunks (env : Env) (d : string) : M Frame string :=
  try_except
    (do chunk_files <- lift (split_audio_file env temp_audio_path d 300 20);
     match chunk_files with
     | [] => raise (Raised Exception "Failed to split audio file into chunks")
     | _ :: _ =>
         lift (print (EvSplitInto (length chunk_files))) ;;
         do transcripts <- lift (transcribe_chunks env chunk_files []);
         let full_transcript := str_join " " transcripts in
         finish_chunks env full_transcript
     end)
    (fun e => raise (Raised Exception ("Error processing audio chunks: " ++ str_exn e))).

(** Lines 410-471: what happens to a downloaded file of [file_size] bytes. *)
Definition process_download (env : Env) (file_size : Z) : M Frame string :=
  if file_size =? 0 then raise (HTTPException 500 "Downloaded audio file is empty")
  else if file_size >? SIZE_LIMIT then
    lift (print EvTooLarge) ;;
    do d <- lift (tempfile_mkdtemp env "audio_chunks_");
    set_temp_dir (Some d) ;;
    lift (print (EvTempDir d)) ;;
    transcribe_in_chunks env d
  else
    lift (print EvDirect) ;;
    do transcript_text <- lift (transcribe_audio_chunk env temp_audio_path);
    lift (remove_audio env) ;;
    ret transcript_text.

(** Lines 393-398. *)
Definition fetch (env : Env) (audio_url : string) : M World audio_response :=
  try_except
    (do audio_response <- (fun w => (requests_get env w audio_url, w));
     match audio_raise_for_status audio_response with
     | Some e => raise e
     | None => ret audio_response
     end)
    (fun e =>
       if isinstance_RequestException e then
         raise (HTTPException 400 ("Error accessing audio URL: " ++ str_exn e))
       else raise e).

(** Lines 402-408: stream the body to [temp_audio_path] and measure it. *)
Definition save (env : Env) (audio_response : audio_response) : M World Z :=
  write_file env temp_audio_path (audio_body audio_response) ;;
  match audio_stream_error audio_response with
  | Some e => raise e
  | None =>
      do file_size <- os_path_getsize env temp_audio_path;
      print (EvDownloaded temp_audio_path file_size) ;;
      ret file_size
  end.

(** The outer [try] block (lines 388-475). *)
Definition transcribe_try (env : Env) (audio_url : string) : M Frame string :=
  do audio_response <- lift (fetch env audio_url);
  try_except
    (do file_size <- lift (save env audio_response);
     process_download env file_size)
    (fun e =>
       if isinstance_IOError e then
         raise (HTTPException 500 ("Error saving audio file: " ++ str_exn e))
       else raise e).

(** The clean-up both [except] clauses start with: every deletion is tried
    and its failure swallowed. *)
Definition cleanup (env : Env) : M Frame unit :=
  (do there <- lift (os_path_exists temp_audio_path);
   if there then
     try_except (lift (os_remove env temp_audio_path)) (fun _ => ret tt)
   else ret tt) ;;
  try_except (remove_temp_dir env) (fun _ => ret tt).

(** Lines 517-533. *)
Definition classify (e : exn) : exn :=
  let error_msg := lower (str_exn e) in
  if str_contains "413" error_msg || str_contains "entity too large" error_msg
     || str_contains "size limit" error_msg || str_contains "exceeded" error_msg
  then
    HTTPException 400
      "Audio file is too large for the OpenAI API. Please use a shorter audio clip (under 25MB)."
  else if str_contains "ffmpeg" error_msg then
    HTTPException 500
      "There was an issue processing the audio file. The server will attempt to use a fallback method."
  else HTTPException 500 ("Error processing request: " ++ str_exn e).

(** [transcribe_podcast]: the endpoint, returning the transcript of its
    response. *)
Definition transcribe_podcast (env : Env) (audio_url : string) : M Frame string :=
  if negb (truthy_str (OPENAI_API_KEY env)) then
    raise (HTTPException 500 "OpenAI API key not configured")
  else
    set_temp_dir None ;;
    try_except
      (transcribe_try env audio_url)
      (fun e =>
         if isinstance_HTTPException e then cleanup env ;; raise e
         else cleanup env ;; raise (classify e)).

(** A request arriving on the file system [files]. *)
Definition request (env : Env) (audio_url : string) (files : gmap string node)
    : result string * Frame :=
  transcribe_podcast env audio_url
    {| world := {| fs := files; trace := [] |}; temp_dir := None |}.

(** *** The API key shown at start-up *)

Fixpoint stars (k : nat) : string :=
  match k with
  | O => ""
  | S k' => String "*" (stars k')
  end.

(** Line 41: the first four and the last four characters with stars in
    between, or three stars for a key of eight characters or fewer. *)
Definition masked_key (key : string) : string :=
  let n := String.length key in
  if (8 <? n)%nat then
    substring 0 4 key ++ stars (n - 8) ++ substring (n - 4) 4 key
  else "***".

(** *** The search endpoints *)

Record episode := {
  title : string;
  description : string;
  audio_url : string
}.

Definition dummy_data : list episode :=
  [ {| title := "Episode 1: Summary from Feb 27, 2025";
       description := "A podcast episode summary from February 27";
       audio_url := "http://wirebrand.se/podcast/2025-02-27_summary.mp3" |};
    {| title := "Episode 2: Summary from Feb 26, 2025";
       description := "A podcast episode summary from February 26";
       audio_url := "http://wirebrand.se/podcast/2025-02-26_summary.mp3" |} ].

(** [search_podcasts] (lines 48-66). *)
Definition search_podcasts (query : string) : list episode :=
  List.filter
    (fun episode =>
       str_contains (lower query) (lower (title episode))
       || str_contains (lower query) (lower (description episode)))
    dummy_data.

(** What an endpoint of the iTunes searches answers: the formatted list, an
    [HTTPException] (whose detail is whatever the error member held), or an
    exception nobody caught. *)
Inductive search_answer :=
| Found (formatted : list (gmap string json))
| HTTPError (status_code : Z) (detail : json)
| Uncaught (e : exn).

(** [results["error"]]. *)
Definition py_item (x : json) (key : string) : result json :=
  match x with
  | JObj m =>
      match m !! key with
      | Some v => Ok v
      | None => Raise (Raised KeyError key)
      end
  | _ => Raise (Raised TypeError "indices must be integers")
  end.

(** The detail an [HTTPException] of status 500 keeps: Starlette puts the
    phrase of the status in the place of a detail that is [None]. *)
Definition detail_500 (detail : json) : json :=
  match detail with
  | JNull => JStr "Internal Server Error"
  | _ => detail
  end.

(** Lines 95-102 and 145-152: the error check and the formatting. *)
Definition answer_search (results : result json) : search_answer :=
  match results with
  | Raise e => Uncaught e
  | Ok results =>
      match itunes_api.py_in "error" results with
      | Raise e => Uncaught e
      | Ok true =>
          match py_item results "error" with
          | Ok detail => HTTPError 500 (detail_500 detail)
          | Raise e => Uncaught e
          end
      | Ok false =>
          match results with
          | JObj itunes_results =>
              match itunes_api.format_podcast_results itunes_results with
              | Ok formatted => Found formatted
              | Raise e => Uncaught e
              end
          | _ => Uncaught (Raised AttributeError "object has no attribute 'get'")
          end
      end
  end.

(** [search_itunes_podcasts] (lines 70-102). *)
Definition search_itunes_podcasts (env : itunes_api.Env) (query : string)
    (limit : Z) (country : string) : search_answer :=
  answer_search
    (itunes_api.search_itunes env query "podcast" (Some "podcast") limit country None).

Definition is_space (c : ascii) : bool :=
  let n := nat_of_ascii c in
  ((9 <=? n)%nat && (n <=? 13)%nat) || ((28 <=? n)%nat && (n <=? 32)%nat).

(** [s.strip() == ""], on ASCII text. *)
Fixpoint is_blank (s : string) : bool :=
  match s with
  | EmptyString => true
  | String c s' => is_space c && is_blank s'
  end.

(** [search_itunes_episodes] (lines 105-152). *)
Definition search_itunes_episodes (env : itunes_api.Env) (query : string)
    (limit : Z) (country : string) (podcast_id : option Z) : search_answer :=
  let given :=
    match podcast_id with
    | Some id => negb (id =? 0)
    | None => false
    end in
  let additional_params : gmap string json :=
    if given then <["collectionId" := JInt (default 0 podcast_id)]> ∅ else ∅ in
  let query :=
    if given && (String.eqb query "" || is_blank query) then "*" else query in
  answer_search
    (itunes_api.search_itunes env query "podcast" (Some "podcastEpisode") limit country
       (Some additional_params)).

End main.

(** ** Vocabulary of the specifications *)

Section vocabulary.
Import main.

(** The message of the handler that catches [e] in [search_itunes], the
    handlers being tried in the order of the source. *)
Definition failure_message (e : exn) : string :=
  (if isinstance_RequestException e then "Request failed: "
   else if isinstance_ValueError e then "Failed to parse response: "
   else "Unexpected error: ") ++ str_exn e.

(** [r] is the dictionary [search_itunes] returns for the failure [e]: the
    message, no result counted, no result listed. *)
Definition error_dictionary (e : exn) (r : result json) : Prop :=
  exists d,
    r = Ok (JObj d)
    /\ d !! "error" = Some (JStr (failure_message e))
    /\ d !! "resultCount" = Some (JInt 0)
    /\ d !! "results" = Some (JArr []).

Definition same_trace (w w' : World) : Prop := trace w' = trace w.

(** The trace grows by events that all satisfy [P]. *)
Definition grows (P : event -> Prop) (w w' : World) : Prop :=
  exists evs, trace w' = (trace w ++ evs)%list /\ Forall P evs.

(** From a world in which [d] is a directory, no directory appears or
    disappears. *)
Definition keeps_dirs (d : string) (w w' : World) : Prop :=
  fs w !! d = Some Dir ->
  forall p, fs w' !! p = Some Dir <-> fs w !! p = Some Dir.

Definition extract_event (output_dir : string) (i : nat) : event :=
  EvFfmpegExtract i (chunk_path output_dir i).

(** The chunk indices of the extraction commands in a trace, in order. *)
Definition extract_requests (t : list event) : list nat :=
  omap (fun ev => match ev with EvFfmpegExtract i _ => Some i | _ => None end) t.

Fixpoint leading_zeros (k : nat) (d : Decimal.uint) : Decimal.uint :=
  match k with
  | O => d
  | S k' => Decimal.D0 (leading_zeros k' d)
  end.

(** [os.path.getsize(p)] if [os.path.exists(p)]. *)
Definition path_size (env : Env) (w : World) (p : string) : option Z :=
  match fs w !! p with
  | Some (File c) => Some (Z.of_N (csize c))
  | Some Dir => Some (Z.of_N (dir_st_size env p))
  | None => None
  end.

(** The path exists and its size is not zero. *)
Definition nonempty_path (env : Env) (w : World) (p : string) : Prop :=
  exists size, path_size env w p = Some size /\ 0 < size.

(** The chunk files of [indices] hold consecutive slices of [c], of
    [chunk_size] bytes each, the first one starting at offset [pos]. *)
Fixpoint chunks_written (files : gmap string node) (c : Content) (chunk_size : Z)
    (output_dir : string) (indices : list nat) (pos : N) : Prop :=
  match indices with
  | [] => True
  | i :: rest =>
      files !! chunk_path output_dir i = Some (File (slice c pos chunk_size))
      /\ chunks_written files c chunk_size output_dir rest
           (pos + csize (slice c pos chunk_size))%N
  end.

(** The events a split may add to the trace. *)
Definition is_split_event (ev : event) : Prop :=
  match ev with
  | EvPythonFallback | EvSplittingInto _ | EvFfmpegExtract _ _ => True
  | _ => False
  end.

(** The files handed to the segment transcriber, in call order. *)
Definition transcribe_calls (t : list event) : list string :=
  omap (fun ev => match ev with EvTranscribing p => Some p | _ => None end) t.

(** Neither the downloaded file nor a temporary directory the request
    announced is left on disk. *)
Definition clean (f : Frame) : Prop :=
  fs (world f) !! temp_audio_path = None
  /\ forall d, EvTempDir d ∈ trace (world f) -> fs (world f) !! d = None.

(** The chunks of [chunk_files] are transcribed one after the other from the
    world [w] on, each call made in the world the one before it left, and
    [segments] lists what the calls returned, in that order. *)
Fixpoint segments_from (env : Env) (w : World) (chunk_files segments : list string)
    : Prop :=
  match chunk_files, segments with
  | [], [] => True
  | chunk_file :: chunk_files', segment :: segments' =>
      (transcribe_audio_chunk env chunk_file w).1 = Ok segment
      /\ segments_from env (transcribe_audio_chunk env chunk_file w).2
           chunk_files' segments'
  | _, _ => False
  end.

(** How the chunked path ends, given the events [tail] it printed after those
    of the split: either nothing was transcribed and the request failed, or
    the split returned a non-empty list and its files were transcribed in
    order, all of them when the request succeeded. *)
Definition chunked_outcome (env : Env) (d : string) (r : result string)
    (tail : list event) : Prop :=
  (tail = [] /\ exists e, r = Raise e)
  \/ (exists chunk_files called w1 w2,
        split_audio_file env temp_audio_path d 300 20 w1 = (Ok chunk_files, w2)
        /\ chunk_files <> []
        /\ called `prefix_of` chunk_files
        /\ tail = EvSplitInto (length chunk_files) :: (EvTranscribing <$> called)
        /\ forall transcript, r = Ok transcript ->
             called = chunk_files
             /\ exists segments,
                  segments_from env
                    {| fs := fs w2;
                       trace := (trace w2 ++ [EvSplitInto (length chunk_files)])%list |}
                    chunk_files segments
                  /\ transcript = str_join " " segments).

(** The shapes a request can take: what it printed and how it ended. *)
Inductive request_shape (env : Env) (files : gmap string node)
    : result string -> list event -> Prop :=
| shape_no_download e :
    request_shape env files (Raise e) []
| shape_empty :
    request_shape env files
      (Raise (HTTPException 500 "Downloaded audio file is empty"))
      [EvDownloaded temp_audio_path 0]
| shape_direct n r :
    n <> 0 -> n <= SIZE_LIMIT ->
    request_shape env files r
      [EvDownloaded temp_audio_path n; EvDirect; EvTranscribing temp_audio_path]
| shape_no_temp_dir n e :
    SIZE_LIMIT < n ->
    request_shape env files (Raise e) [EvDownloaded temp_audio_path n; EvTooLarge]
| shape_chunked n d r split_events tail :
    SIZE_LIMIT < n ->
    files !! d = None ->
    Forall is_split_event split_events ->
    chunked_outcome env d r tail ->
    request_shape env files r
      (EvDownloaded temp_audio_path n :: EvTooLarge :: EvTempDir d
         :: split_events ++ tail)%list.

(** A relation on worlds, read on the frames that hold them. *)
Definition on_world (R : World -> World -> Prop) (f f' : Frame) : Prop :=
  R (world f) (world f').

(** Directories are kept as by [keeps_dirs d], and no event announces a
    temporary directory. *)
Definition harmless (d : string) (w w' : World) : Prop :=
  keeps_dirs d w w' /\ grows (fun ev => forall d', ev <> EvTempDir d') w w'.

(** The request has a downloaded file and no temporary directory yet. *)
Definition downloaded (f : Frame) : Prop :=
  temp_dir f = None
  /\ (exists c, fs (world f) !! temp_audio_path = Some (File c))
  /\ forall d', EvTempDir d' ∉ trace (world f).

(** The request works in the temporary directory [d], the only one it has
    announced. *)
Definition working (d : string) (f : Frame) : Prop :=
  temp_dir f = Some d
  /\ d <> ""
  /\ fs (world f) !! d = Some Dir
  /\ fs (world f) !! temp_audio_path <> Some Dir
  /\ forall d', EvTempDir d' ∈ trace (world f) -> d' = d.

(** What the [except] clauses may find: the variable [temp_dir] tells which
    directory, if any, is to be removed. *)
Definition tidy (f : Frame) : Prop :=
  fs (world f) !! temp_audio_path <> Some Dir
  /\ match temp_dir f with
     | Some d =>
         d <> "" /\ fs (world f) !! d = Some Dir
         /\ forall d', EvTempDir d' ∈ trace (world f) -> d' = d
     | None => forall d', EvTempDir d' ∉ trace (world f)
     end.

(** [os.remove] and [shutil.rmtree] are never refused by the system. *)
Definition deletions_succeed (env : Env) : Prop :=
  forall w path,
    io_fault env w (OpRemove path) = None /\ io_fault env w (OpRmtree path) = None.

(** A failure the caller is blamed for: an [HTTPException] with a status
    from 400 to 499. *)
Definition is_400_class (r : result string) : Prop :=
  exists status_code detail,
    r = Raise (HTTPException status_code detail) /\ 400 <= status_code < 500.

(** An exception of a library or of the interpreter, not an HTTP answer. *)
Definition library_error (e : exn) : Prop := exists cls msg, e = Raised cls msg.

(** What may travel up to the [except] clauses of the endpoint: a library
    error, or an HTTP answer of status 400 or 500. *)
Definition allowed (e : exn) : Prop :=
  match e with
  | Raised _ _ => True
  | HTTPException status_code _ => status_code = 400 \/ status_code = 500
  end.

(** [requests.get] and [requests.post], the responses they return included,
    raise errors of their library only. *)
Definition plain_services (env : Env) : Prop :=
  (forall w url e, requests_get env w url = Raise e -> library_error e)
  /\ (forall w url resp e,
        requests_get env w url = Ok resp ->
        audio_raise_for_status resp = Some e \/ audio_stream_error resp = Some e ->
        library_error e)
  /\ (forall w p e, requests_post env w p = Raise e -> library_error e)
  /\ (forall w p resp e,
        requests_post env w p = Ok resp -> post_json_text resp = Raise e ->
        library_error e).

(** [d] can be made a directory: it is not the empty path, and neither it
    nor a directory above it is a regular file. *)
Definition creatable (files : gmap string node) (d : string) : Prop :=
  d <> ""
  /\ (forall c, files !! d <> Some (File c))
  /\ forall p c, p ∈ parents d -> files !! p <> Some (File c).

(** Nothing differs but the chunk files of [output_dir], except that
    [output_dir] and the directories above it may have been created. *)
Definition only_chunks (output_dir : string) (w w' : World) : Prop :=
  forall p,
    (forall i, p <> chunk_path output_dir i) ->
    fs w' !! p = fs w !! p
    \/ (fs w !! p = None /\ fs w' !! p = Some Dir
        /\ (p = output_dir \/ p ∈ parents output_dir)).

(** The world in which [transcribe_audio_chunk] opens its file: the one of
    the call, with the announcement printed. *)
Definition announced (chunk_file : string) (w : World) : World :=
  {| fs := fs w; trace := (trace w ++ [EvTranscribing chunk_file])%list |}.

(** The frame [f'] differs from [f] by deleted paths only: the trace is the
    same, nothing was written or created, and [temp_dir] holds what it
    held. *)
Definition only_deletes (f f' : Frame) : Prop :=
  temp_dir f' = temp_dir f
  /\ trace (world f') = trace (world f)
  /\ forall p, fs (world f') !! p = fs (world f) !! p \/ fs (world f') !! p = None.

End vocabulary.

(** ** Concrete servers and files *)

Module examples.
Import main.

(** [n] zero bytes. *)
Definition blank (n : N) : Content := {| csize := n; cbyte := fun _ => Byte.x00 |}.

(** Twenty bytes, the byte at each offset telling the offset. *)
Definition twenty : Content :=
  {| csize := 20;
     cbyte := fun i => default Byte.x00 (Byte.of_N i) |}.

(** A process that fails on an item only. *)
Definition fails_on (bad : string) (chunk_file : string) : result string :=
  if String.eqb chunk_file bad then Raise (Raised Exception "provider unavailable")
  else Ok ("<" ++ chunk_file ++ ">").

(** A server: whether the key is set, which deletions the system refuses,
    whether ffmpeg is installed, the body every URL serves, the duration
    ffmpeg reports, what an extraction does, and what the transcription
    client answers. *)
Definition server (key : option string) (refuse_remove : bool) (installed : bool)
    (body : Content) (duration : Q) (extraction : ffmpeg_run)
    (client : string -> result string) : Env :=
  {| OPENAI_API_KEY := key;
     io_fault := fun _ op =>
       match op with
       | OpRemove _ => if refuse_remove then Some "Permission denied" else None
       | _ => None
       end;
     dir_st_size := fun _ => 4096%N;
     gettempdir := "/tmp";
     candidate_names := fun _ => ["k3x9q2ab"; "p0o9i8u7"];
     requests_get := fun _ _ =>
       Ok {| audio_raise_for_status := None;
             audio_body := body;
             audio_stream_error := None |};
     ffmpeg_version := fun _ => installed;
     ffmpeg_duration := fun _ _ => Ok duration;
     ffmpeg_extract := fun _ _ _ _ _ => extraction;
     whisper_client := fun _ chunk_file => client chunk_file;
     requests_post := fun _ _ => Raise (Raised RequestException "connection refused") |}.

Definition extraction_ok : ffmpeg_run :=
  {| ffmpeg_error := None; ffmpeg_written := Some (blank 1000) |}.

Definition extraction_fails : ffmpeg_run :=
  {| ffmpeg_error := Some "ffmpeg exited with status 1"; ffmpeg_written := None |}.

Definition echo (chunk_file : string) : result string := Ok ("<" ++ chunk_file ++ ">").

(** A healthy server whose URLs serve [size] zero bytes of audio lasting
    [duration] seconds. *)
Definition healthy (size : N) (duration : Q) : Env :=
  server (Some "sk-test") false true (blank size) duration extraction_ok echo.

Definition no_key : Env :=
  server None false true (blank 10) 10 extraction_ok echo.

Definition remove_refused : Env :=
  server (Some "sk-test") true true (blank 10) 10 extraction_ok echo.

Definition no_ffmpeg : Env :=
  server (Some "sk-test") false false twenty 10 extraction_ok echo.

Definition ffmpeg_broken : Env :=
  server (Some "sk-test") false true (blank 10) 10 extraction_fails echo.

Definition second_chunk_fails : Env :=
  server (Some "sk-test") false true (blank 26214401) 900 extraction_ok
    (fails_on "/tmp/audio_chunks_k3x9q2ab/chunk_001.mp3").

Definition empty_world : World := {| fs := ∅; trace := [] |}.

Definition world_with_input : World :=
  {| fs := {["in.mp3" := File twenty]}; trace := [] |}.

(** [n] bytes, the byte at each offset telling the offset modulo 256. *)
Definition ramp (n : N) : Content :=
  {| csize := n; cbyte := fun i => default Byte.x00 (Byte.of_N (i mod 256)) |}.

Definition world_with_recording : World :=
  {| fs := {["in.mp3" := File (ramp 2500000)]}; trace := [] |}.

Definition stale_audio : gmap string node := {[temp_audio_path := File (blank 5)]}.

(** [base] with other answers from the duration probe and from the raw
    transcription endpoint. *)
Definition with_services (base : Env) (duration : result Q)
    (post : result post_response) : Env :=
  {| OPENAI_API_KEY := OPENAI_API_KEY base;
     io_fault := io_fault base;
     dir_st_size := dir_st_size base;
     gettempdir := gettempdir base;
     candidate_names := candidate_names base;
     requests_get := requests_get base;
     ffmpeg_version := ffmpeg_version base;
     ffmpeg_duration := fun _ _ => duration;
     ffmpeg_extract := ffmpeg_extract base;
     whisper_client := whisper_client base;
     requests_post := fun _ _ => post |}.

(** [base] behind a network that reaches no URL. *)
Definition unreachable (base : Env) (e : exn) : Env :=
  {| OPENAI_API_KEY := OPENAI_API_KEY base;
     io_fault := io_fault base;
     dir_st_size := dir_st_size base;
     gettempdir := gettempdir base;
     candidate_names := candidate_names base;
     requests_get := fun _ _ => Raise e;
     ffmpeg_version := ffmpeg_version base;
     ffmpeg_duration := ffmpeg_duration base;
     ffmpeg_extract := ffmpeg_extract base;
     whisper_client := whisper_client base;
     requests_post := requests_post base |}.

(** [base] on a file system that refuses every write. *)
Definition read_only (base : Env) : Env :=
  {| OPENAI_API_KEY := OPENAI_API_KEY base;
     io_fault := fun _ op =>
       match op with
       | OpOpenWrite _ => Some "Read-only file system"
       | _ => None
       end;
     dir_st_size := dir_st_size base;
     gettempdir := gettempdir base;
     candidate_names := candidate_names base;
     requests_get := requests_get base;
     ffmpeg_version := ffmpeg_version base;
     ffmpeg_duration := ffmpeg_duration base;
     ffmpeg_extract := ffmpeg_extract base;
     whisper_client := whisper_client base;
     requests_post := requests_post base |}.

(** [base] in front of a site whose URLs serve the recordings [recording]
    tells. *)
Definition serving (base : Env) (recording : string -> Content) : Env :=
  {| OPENAI_API_KEY := OPENAI_API_KEY base;
     io_fault := io_fault base;
     dir_st_size := dir_st_size base;
     gettempdir := gettempdir base;
     candidate_names := candidate_names base;
     requests_get := fun _ url =>
       Ok {| audio_raise_for_status := None;
             audio_body := recording url;
             audio_stream_error := None |};
     ffmpeg_version := ffmpeg_version base;
     ffmpeg_duration := ffmpeg_duration base;
     ffmpeg_extract := ffmpeg_extract base;
     whisper_client := whisper_client base;
     requests_post := requests_post base |}.

(** Ten bytes at [a.mp3], twenty bytes at every other URL. *)
Definition two_sources : Env :=
  serving (healthy 10 10)
    (fun url => if String.eqb url "http://example.org/a.mp3" then blank 10 else blank 20).

(** A file system on which another request is at work: its download lies
    at [temp_audio.mp3] and it holds a temporary directory with a chunk. *)
Definition busy_files : gmap string node :=
  {[ temp_audio_path := File (blank 26214401);
     "/tmp/audio_chunks_k3x9q2ab" := Dir;
     "/tmp/audio_chunks_k3x9q2ab/chunk_000.mp3" := File (blank 1000) ]}.

Definition client_down (chunk_file : string) : result string :=
  Raise (Raised Exception "client unavailable").

Definition too_large_response : post_response :=
  {| post_status_code := 413;
     post_text := "Request Entity Too Large";
     post_json_text := Raise (Raised RequestsJSONDecodeError "Expecting value") |}.

(** The client library fails and the raw endpoint refuses the upload. *)
Definition upload_refused : Env :=
  with_services
    (server (Some "sk-test") false true (blank 10) 10 extraction_ok client_down)
    (Ok 10%Q) (Ok too_large_response).


(** A long recording on a server whose ffmpeg fails at every extraction. *)
Definition encoder_fails : Env :=
  server (Some "sk-test") false true (blank 26214401) 900 extraction_fails echo.

Definition world_with_chunk : World :=
  {| fs := {["c.mp3" := File (blank 10)]}; trace := [] |}.

(** A lookup response: the podcast itself, then two episodes. *)
Definition header_row : gmap string json :=
  {["collectionId" := JInt 42; "collectionName" := JStr "Show"]}.
Definition episode_row (n : Z) : gmap string json :=
  {["kind" := JStr "podcast-episode"; "trackId" := JInt n;
    "collectionId" := JInt 42]}.
Definition lookup_payload : gmap string json :=
  {["resultCount" := JInt 3;
    "results" := JArr [JObj header_row; JObj (episode_row 1); JObj (episode_row 2)]]}.


(** An iTunes that is unreachable. *)
Definition itunes_down : itunes_api.Env :=
  {| itunes_api.requests_get := fun _ _ =>
       Raise (Raised RequestException "connection refused") |}.

(** An iTunes that answers every request with [payload]. *)
Definition itunes_serving (payload : gmap string json) : itunes_api.Env :=
  {| itunes_api.requests_get := fun _ _ =>
       Ok {| itunes_api.raise_for_status := None;
             itunes_api.json_body := Ok (JObj payload) |} |}.

(** An iTunes that knows one podcast: the lookup URL serves its episodes when
    asked for id 42, a search finds nothing unless its term is ["show"]. *)
Definition itunes_store : itunes_api.Env :=
  {| itunes_api.requests_get := fun url params =>
       let found :=
         if String.eqb url itunes_api.ITUNES_LOOKUP_API_BASE_URL
         then match params !! "id" with Some (JInt 42) => true | _ => false end
         else json_eq_str (params !! "term") "show" in
       Ok {| itunes_api.raise_for_status := None;
             itunes_api.json_body :=
               Ok (JObj (if found then lookup_payload
                         else {["resultCount" := JInt 0; "results" := JArr []]})) |} |}.

End examples.

(** * Theorems *)

(** ** backend/itunes_api.py *)

Section itunes_api_facts.
Import itunes_api.

Lemma format_all_objects (items : list (gmap string json)) :
  format_all (JObj <$> items) = Ok (format_item <$> items).
Proof.
  induction items as [|item rest IH]; [reflexivity|].
  cbn [fmap list_fmap format_all]. fold (@fmap list _ _ _ JObj rest).
  now rewrite IH.
Qed.

Lemma is_lookup_header_objects (items : list (gmap string json)) :
  is_lookup_header (JArr (JObj <$> items)) =
  Ok match items with
     | first :: _ => negb (dict_has first "kind") && dict_has first "collectionId"
     | [] => false
     end.
Proof.
  destruct items as [|first rest]; [reflexivity|].
  unfold is_lookup_header, py_len.
  rewrite length_fmap.
  replace (Z.of_nat (length (first :: rest)) >? 0) with true
    by (symmetry; apply Z.gtb_lt; cbn [length]; lia).
  cbn [fmap list_fmap py_first py_in].
  now destruct (dict_has first "kind").
Qed.

Lemma dict_has_true (d : gmap string json) (key : string) :
  dict_has d key = true <-> is_Some (d !! key).
Proof. unfold dict_has. apply bool_decide_eq_true. Qed.

Lemma dict_has_false (d : gmap string json) (key : string) :
  dict_has d key = false <-> d !! key = None.
Proof.
  unfold dict_has. rewrite bool_decide_eq_false. split.
  - intros H. destruct (d !! key) eqn:E; [exfalso; apply H; eauto | reflexivity].
  - intros -> [x Hx]. discriminate.
Qed.

(** C9.  On a payload whose ["results"] member is a list of objects (or is
    absent), [format_podcast_results] formats every entry but a leading one
    that has no ["kind"] field and has a ["collectionId"] field: that entry,
    and only that one, is dropped; on every other such payload each entry is
    formatted, in order. *)
Theorem format_podcast_results_drops_header
    (itunes_results : gmap string json) (items : list (gmap string json)) :
  dict_get itunes_results "results" (JArr []) = JArr (JObj <$> items) ->
  (forall first rest,
     items = first :: rest ->
     first !! "kind" = None -> is_Some (first !! "collectionId") ->
     format_podcast_results itunes_results = Ok (format_item <$> rest))
  /\ ((forall first rest,
         items = first :: rest ->
         ~ (first !! "kind" = None /\ is_Some (first !! "collectionId"))) ->
      format_podcast_results itunes_results = Ok (format_item <$> items)).
Proof.
  intros Hres. unfold format_podcast_results. rewrite Hres.
  rewrite is_lookup_header_objects. split.
  - intros first rest -> Hkind Hcoll.
    apply dict_has_false in Hkind. apply dict_has_true in Hcoll.
    rewrite Hkind, Hcoll. cbn [negb andb py_tail py_iter fmap list_fmap tail].
    apply format_all_objects.
  - intros Hno. destruct items as [|first rest].
    + reflexivity.
    + destruct (dict_has first "kind") eqn:Hkind;
        [|destruct (dict_has first "collectionId") eqn:Hcoll];
        cbn [negb andb py_iter]; try apply format_all_objects.
      exfalso. apply (Hno first rest eq_refl). split.
      * now apply dict_has_false.
      * now apply dict_has_true.
Qed.

Lemma error_payload_dictionary (e : exn) :
  error_dictionary e
    (if isinstance_RequestException e then
       Ok (error_payload ("Request failed: " ++ str_exn e))
     else if isinstance_ValueError e then
       Ok (error_payload ("Failed to parse response: " ++ str_exn e))
     else Ok (error_payload ("Unexpected error: " ++ str_exn e))).
Proof.
  unfold error_dictionary, failure_message, error_payload.
  destruct (isinstance_RequestException e); [|destruct (isinstance_ValueError e)];
    eexists; (split; [reflexivity|]); repeat split; reflexivity.
Qed.

(** C10.  [search_itunes] never raises.  It sends one request, to the search
    URL or to the lookup URL.  A transport failure of that request, an HTTP
    error status, a body that is not JSON, and a JSON body that is not an
    object each give a dictionary with an ["error"] message (the message of
    the handler that caught the failure), ["resultCount"] 0 and an empty
    ["results"] list; a JSON object is returned as it is. *)
Theorem search_itunes_total (env : Env) (query media : string)
    (entity : option string) (limit : Z) (country : string)
    (additional_params : option (gmap string json)) :
  exists url params,
    (url = ITUNES_API_BASE_URL \/ url = ITUNES_LOOKUP_API_BASE_URL)
    /\ match requests_get env url params with
       | Raise e =>
           error_dictionary e
             (search_itunes env query media entity limit country additional_params)
       | Ok resp =>
           match raise_for_status resp with
           | Some e =>
               error_dictionary e
                 (search_itunes env query media entity limit country additional_params)
           | None =>
               match json_body resp with
               | Raise e =>
                   error_dictionary e
                     (search_itunes env query media entity limit country
                        additional_params)
               | Ok (JObj d) =>
                   search_itunes env query media entity limit country additional_params
                   = Ok (JObj d)
               | Ok _ =>
                   exists msg,
                     error_dictionary (Raised AttributeError msg)
                       (search_itunes env query media entity limit country
                          additional_params)
               end
           end
       end.
Proof.
  unfold search_itunes, search_itunes_try.
  destruct (is_podcast_lookup entity additional_params); cbv beta iota zeta;
    match goal with
    | |- context [requests_get env ?u ?p] => exists u, p
    end;
    (split; [auto|]);
    (destruct (requests_get env _ _) as [resp|e]; [|apply error_payload_dictionary]);
    (destruct (raise_for_status resp) as [e|]; [apply error_payload_dictionary|]);
    (destruct (json_body resp) as [body|e]; [|apply error_payload_dictionary]);
    destruct body; try (eexists; apply error_payload_dictionary); reflexivity.
Qed.

End itunes_api_facts.

(** ** Reasoning about computations *)

Section monad_facts.
Context {S : Type}.

Lemma bind_inv {A B} (m : M S A) (k : A -> M S B) s r s' :
  bind m k s = (r, s') ->
  (exists a s1, m s = (Ok a, s1) /\ k a s1 = (r, s'))
  \/ (exists e, m s = (Raise e, s') /\ r = Raise e).
Proof.
  unfold bind. destruct (m s) as [[a|e] s1]; intros H.
  - left. eauto.
  - right. inversion H; subst. eauto.
Qed.

Lemma bind_ok_inv {A B} (m : M S A) (k : A -> M S B) s b s' :
  bind m k s = (Ok b, s') ->
  exists a s1, m s = (Ok a, s1) /\ k a s1 = (Ok b, s').
Proof.
  intros H. apply bind_inv in H as [H|(e & _ & H)]; [exact H|discriminate].
Qed.

Lemma try_except_inv {A} (m : M S A) (h : exn -> M S A) s r s' :
  try_except m h s = (r, s') ->
  (exists a, m s = (Ok a, s') /\ r = Ok a)
  \/ (exists e s1, m s = (Raise e, s1) /\ h e s1 = (r, s')).
Proof.
  unfold try_except. destruct (m s) as [[a|e] s1]; intros H.
  - left. inversion H; subst. eauto.
  - right. eauto.
Qed.

Lemma moves_ret {A} (R : S -> S -> Prop) `{!Reflexive R} (a : A) :
  moves R (ret a).
Proof. intros s. apply reflexivity. Qed.

Lemma moves_raise {A} (R : S -> S -> Prop) `{!Reflexive R} e :
  moves R (@raise S A e).
Proof. intros s. apply reflexivity. Qed.

Lemma moves_gets {A} (R : S -> S -> Prop) `{!Reflexive R} (f : S -> A) :
  moves R (gets f).
Proof. intros s. apply reflexivity. Qed.

Lemma moves_bind {A B} (R : S -> S -> Prop) `{!Transitive R}
    (m : M S A) (k : A -> M S B) :
  moves R m -> (forall a, moves R (k a)) -> moves R (bind m k).
Proof.
  intros Hm Hk s. unfold bind. specialize (Hm s).
  destruct (m s) as [[a|e] s1]; cbn in *; [|exact Hm].
  etransitivity; [exact Hm|apply Hk].
Qed.

Lemma moves_try_except {A} (R : S -> S -> Prop) `{!Transitive R}
    (m : M S A) (h : exn -> M S A) :
  moves R m -> (forall e, moves R (h e)) -> moves R (try_except m h).
Proof.
  intros Hm Hh s. unfold try_except. specialize (Hm s).
  destruct (m s) as [[a|e] s1]; cbn in *; [exact Hm|].
  etransitivity; [exact Hm|apply Hh].
Qed.

Lemma raises_ret {A} (P : exn -> Prop) (a : A) : raises P (@ret S A a).
Proof. intros s e s' H. discriminate H. Qed.

Lemma raises_raise {A} (P : exn -> Prop) e : P e -> raises P (@raise S A e).
Proof. intros He s e' s' H. inversion H; now subst. Qed.

Lemma raises_gets {A} (P : exn -> Prop) (f : S -> A) : raises P (gets f).
Proof. intros s e s' H. discriminate H. Qed.

Lemma raises_modify (P : exn -> Prop) (f : S -> S) : raises P (modify f).
Proof. intros s e s' H. discriminate H. Qed.

Lemma raises_weaken {A} (P Q : exn -> Prop) (m : M S A) :
  (forall e, P e -> Q e) -> raises P m -> raises Q m.
Proof. intros HPQ Hm s e s' H. eapply HPQ, Hm, H. Qed.

(** What follows a call may rely on the call having returned. *)
Lemma raises_bind {A B} (P : exn -> Prop) (m : M S A) (k : A -> M S B) :
  raises P m ->
  (forall s a s', m s = (Ok a, s') -> raises P (k a)) ->
  raises P (bind m k).
Proof.
  intros Hm Hk s e s' H.
  apply bind_inv in H as [(a & s1 & Ha & H)|(e' & He & Hr)].
  - eapply Hk; eassumption.
  - inversion Hr; subst. eapply Hm, He.
Qed.

(** A [try] raises what its handler raises, and nothing else. *)
Lemma raises_try_except {A} (P Q : exn -> Prop) (m : M S A) (h : exn -> M S A) :
  raises Q m -> (forall e, Q e -> raises P (h e)) -> raises P (try_except m h).
Proof.
  intros Hm Hh s e s' H.
  apply try_except_inv in H as [(a & _ & Hr)|(e' & s1 & He & H)]; [discriminate|].
  eapply Hh; [eapply Hm, He|exact H].
Qed.

End monad_facts.

(** ** backend/main.py *)

Section main_facts.
Import main.

(** *** How the file-system calls move the world *)

#[local] Instance same_trace_refl : Reflexive same_trace.
Proof. now intros w. Qed.
#[local] Instance same_trace_trans : Transitive same_trace.
Proof. unfold same_trace. intros w1 w2 w3 H1 H2. congruence. Qed.
#[local] Instance grows_refl P : Reflexive (grows P).
Proof. intros w. exists []. now rewrite app_nil_r. Qed.
#[local] Instance grows_trans P : Transitive (grows P).
Proof.
  intros w1 w2 w3 (e1 & H1 & F1) (e2 & H2 & F2). exists (e1 ++ e2)%list.
  rewrite H2, H1, app_assoc. split; [reflexivity|]. now apply Forall_app.
Qed.
#[local] Instance keeps_dirs_refl d : Reflexive (keeps_dirs d).
Proof. now intros w _ p. Qed.
#[local] Instance keeps_dirs_trans d : Transitive (keeps_dirs d).
Proof.
  intros w1 w2 w3 H1 H2 Hd p.
  rewrite (H2 (proj2 (H1 Hd d) Hd) p). apply (H1 Hd).
Qed.

(** A computation that hands the state back untouched. *)
Lemma moves_unchanged {S A} (R : S -> S -> Prop) `{!Reflexive R} (m : M S A) :
  (forall s, (m s).2 = s) -> moves R m.
Proof. intros H s. rewrite H. apply reflexivity. Qed.

Lemma fault_unchanged env op w : (fault env op w).2 = w.
Proof. unfold fault. now destruct (io_fault env w op). Qed.

Lemma os_path_getsize_unchanged env path w : (os_path_getsize env path w).2 = w.
Proof.
  unfold os_path_getsize, bind. pose proof (fault_unchanged env (OpGetsize path) w) as H.
  destruct (fault env (OpGetsize path) w) as [[[]|e] w1]; cbn in H; subst; [|reflexivity].
  now destruct (fs w !! path) as [[c|]|].
Qed.

Lemma open_rb_unchanged env path w : (open_rb env path w).2 = w.
Proof.
  unfold open_rb, bind. pose proof (fault_unchanged env (OpOpenRead path) w) as H.
  destruct (fault env (OpOpenRead path) w) as [[[]|e] w1]; cbn in H; subst; [|reflexivity].
  now destruct (fs w !! path) as [[c|]|].
Qed.

Lemma file_read_unchanged path pos n w : (file_read path pos n w).2 = w.
Proof. unfold file_read. now destruct (fs w !! path) as [[c|]|]. Qed.

Lemma moves_fault (R : World -> World -> Prop) `{!Reflexive R} env op :
  moves R (fault env op).
Proof. apply moves_unchanged; [assumption|apply fault_unchanged]. Qed.

Lemma moves_os_path_exists (R : World -> World -> Prop) `{!Reflexive R} path :
  moves R (os_path_exists path).
Proof. now apply moves_gets. Qed.

Lemma moves_os_path_getsize (R : World -> World -> Prop) `{!Reflexive R} env path :
  moves R (os_path_getsize env path).
Proof. apply moves_unchanged; [assumption|apply os_path_getsize_unchanged]. Qed.

Lemma moves_open_rb (R : World -> World -> Prop) `{!Reflexive R} env path :
  moves R (open_rb env path).
Proof. apply moves_unchanged; [assumption|apply open_rb_unchanged]. Qed.

Lemma moves_file_read (R : World -> World -> Prop) `{!Reflexive R} path pos n :
  moves R (file_read path pos n).
Proof. apply moves_unchanged; [assumption|apply file_read_unchanged]. Qed.

(** Asking an oracle changes nothing. *)
Lemma moves_ask {A} (R : World -> World -> Prop) `{!Reflexive R}
    (oracle : World -> result A) :
  moves R (fun w => (oracle w, w)).
Proof. now apply moves_unchanged. Qed.

Lemma moves_print_grows (P : event -> Prop) ev : P ev -> moves (grows P) (print ev).
Proof. intros H w. exists [ev]. split; [reflexivity|]. now constructor. Qed.

Lemma moves_print_keeps_dirs d ev : moves (keeps_dirs d) (print ev).
Proof. now intros w _ p. Qed.

Lemma moves_same_trace_grows {A} (P : event -> Prop) (m : M World A) :
  moves same_trace m -> moves (grows P) m.
Proof. intros H w. exists []. rewrite app_nil_r. split; [apply H|constructor]. Qed.

Lemma moves_grows_weaken {A} (P Q : event -> Prop) (m : M World A) :
  (forall ev, P ev -> Q ev) -> moves (grows P) m -> moves (grows Q) m.
Proof.
  intros HPQ H w. destruct (H w) as (evs & E & F). exists evs. split; [exact E|].
  eapply Forall_impl; eauto.
Qed.

(** Unfold a file-system call down to its case analysis. *)
Ltac fs_cases env w op :=
  unfold bind, fault; cbn;
  destruct (io_fault env w op); cbn; [try reflexivity|];
  repeat match goal with
         | |- context [match fs w !! ?p with _ => _ end] =>
             let E := fresh "E" in destruct (fs w !! p) as [[?|]|] eqn:E; cbn
         end.

Lemma moves_write_file_trace env path data : moves same_trace (write_file env path data).
Proof. intros w. unfold write_file. fs_cases env w (OpOpenWrite path); reflexivity. Qed.

Lemma moves_os_remove_trace env path : moves same_trace (os_remove env path).
Proof. intros w. unfold os_remove. fs_cases env w (OpRemove path); reflexivity. Qed.

Lemma moves_shutil_rmtree_trace env d : moves same_trace (shutil_rmtree env d).
Proof. intros w. unfold shutil_rmtree. fs_cases env w (OpRmtree d); reflexivity. Qed.

Lemma moves_os_makedirs_trace env d : moves same_trace (os_makedirs env d).
Proof.
  intros w. unfold os_makedirs, bind, fault.
  destruct (io_fault env w (OpMakedirs d)); [reflexivity|]. cbn [fst snd].
  destruct (String.eqb d ""); [reflexivity|].
  destruct (fs w !! d) as [[c|]|]; try reflexivity.
  now destruct (existsb (is_file (fs w)) (parents d)).
Qed.

Lemma moves_tempfile_mkdtemp_trace env pre : moves same_trace (tempfile_mkdtemp env pre).
Proof.
  intros w. unfold tempfile_mkdtemp. fs_cases env w OpMkdtemp.
  now destruct (first_free _ _ _ _).
Qed.

Lemma lookup_insert_dir (files : gmap string node) path c p :
  files !! path <> Some Dir ->
  (<[path := File c]> files !! p = Some Dir <-> files !! p = Some Dir).
Proof.
  intros Hnd. destruct (decide (path = p)) as [->|Hne].
  - rewrite lookup_insert_eq. split; [discriminate|intros H; contradiction].
  - now rewrite lookup_insert_ne.
Qed.

Lemma keeps_dirs_same_dirs d (w w' : World) :
  (forall p, fs w' !! p = Some Dir <-> fs w !! p = Some Dir) -> keeps_dirs d w w'.
Proof. now intros H _. Qed.

Lemma write_file_same_dirs env path data w p :
  fs (write_file env path data w).2 !! p = Some Dir <-> fs w !! p = Some Dir.
Proof.
  unfold write_file.
  fs_cases env w (OpOpenWrite path); try reflexivity;
    apply lookup_insert_dir; congruence.
Qed.

Lemma moves_write_file_dirs d env path data : moves (keeps_dirs d) (write_file env path data).
Proof. intros w. apply keeps_dirs_same_dirs. intros p. apply write_file_same_dirs. Qed.

Lemma moves_os_remove_dirs d env path : moves (keeps_dirs d) (os_remove env path).
Proof.
  intros w. unfold os_remove. apply keeps_dirs_same_dirs. intros p.
  fs_cases env w (OpRemove path); try reflexivity.
  destruct (decide (path = p)) as [->|Hne].
  - rewrite lookup_delete_eq, E. split; discriminate.
  - now rewrite lookup_delete_ne.
Qed.

(** A directory that is there is left alone. *)
Lemma os_makedirs_there env d w :
  fs w !! d = Some Dir -> (os_makedirs env d w).2 = w.
Proof.
  intros Hd. unfold os_makedirs, bind, fault.
  destruct (io_fault env w (OpMakedirs d)); [reflexivity|]. cbn [fst snd].
  destruct (String.eqb d ""); [reflexivity|]. now rewrite Hd.
Qed.

Lemma moves_os_makedirs_dirs env d : moves (keeps_dirs d) (os_makedirs env d).
Proof. intros w Hd p. now rewrite os_makedirs_there. Qed.

Lemma run_ffmpeg_extract_world env input_file start_time duration i output_file w :
  exists files,
    (run_ffmpeg_extract env input_file start_time duration i output_file w).2
    = {| fs := files; trace := (trace w ++ [EvFfmpegExtract i output_file])%list |}
    /\ (forall p, files !! p = Some Dir <-> fs w !! p = Some Dir)
    /\ (forall p, p <> output_file -> files !! p = fs w !! p).
Proof.
  unfold run_ffmpeg_extract, bind, print, modify. cbn.
  set (w1 := {| fs := fs w; trace := (trace w ++ [EvFfmpegExtract i output_file])%list |}).
  destruct (ffmpeg_extract env w1 input_file start_time duration output_file)
    as [err written].
  eexists. split.
  - destruct err; cbn; reflexivity.
  - cbn. destruct written as [c|]; [|split; reflexivity].
    destruct (fs w !! output_file) as [[c'|]|] eqn:E; split; intros p; try reflexivity;
      try (apply lookup_insert_dir; congruence);
      intros Hp; now rewrite lookup_insert_ne.
Qed.

Lemma moves_run_ffmpeg_extract_dirs d env input_file start_time duration i output_file :
  moves (keeps_dirs d) (run_ffmpeg_extract env input_file start_time duration i output_file).
Proof.
  intros w.
  destruct (run_ffmpeg_extract_world env input_file start_time duration i output_file w)
    as (files & -> & Hd & _).
  now apply keeps_dirs_same_dirs.
Qed.

Lemma moves_run_ffmpeg_extract_grows (P : event -> Prop) env input_file start_time
    duration i output_file :
  P (EvFfmpegExtract i output_file) ->
  moves (grows P) (run_ffmpeg_extract env input_file start_time duration i output_file).
Proof.
  intros HP w.
  destruct (run_ffmpeg_extract_world env input_file start_time duration i output_file w)
    as (files & -> & _). exists [EvFfmpegExtract i output_file].
  split; [reflexivity|now constructor].
Qed.

(** *** Arithmetic of the chunk count *)

Lemma Qnum_nonneg (x : Q) : (0 <= x)%Q -> 0 <= Qnum x.
Proof. unfold Qle. cbn. lia. Qed.

Lemma py_int_nonneg (x : Q) : (0 <= x)%Q -> py_int x = Qfloor x.
Proof.
  intros H. apply Qnum_nonneg in H. destruct x as [n d]. cbn in *.
  unfold py_int. cbn. apply Z.quot_div_nonneg; lia.
Qed.

Lemma Qdiv_nonneg (d t : Q) : (0 <= d)%Q -> (0 < t)%Q -> (0 <= d / t)%Q.
Proof.
  intros Hd Ht. apply Qle_shift_div_l; [exact Ht|]. now rewrite Qmult_0_l.
Qed.

Lemma Qfloor_nonneg (x : Q) : (0 <= x)%Q -> 0 <= Qfloor x.
Proof. intros H. rewrite <- (Qfloor_Z 0). now apply Qfloor_resp_le. Qed.

(** On a duration [d >= 0] and a chunk length [t > 0] the count of line 257
    is [floor(d / t) + 1]. *)
Lemma num_chunks_of_floor (d t : Q) :
  (0 <= d)%Q -> (0 < t)%Q -> num_chunks_of d t = Qfloor (d / t) + 1.
Proof.
  intros Hd Ht. unfold num_chunks_of.
  rewrite py_int_nonneg by now apply Qdiv_nonneg.
  pose proof (Qfloor_nonneg (d / t) (Qdiv_nonneg d t Hd Ht)). lia.
Qed.

(** The count of line 257 against the ceiling: one more when the duration
    is a whole number of chunk lengths, the same when it is not. *)
Lemma num_chunks_of_ceiling (d t : Q) :
  (0 <= d)%Q -> (0 < t)%Q ->
  num_chunks_of d t =
    if bool_decide (Qceiling (d / t) = Qfloor (d / t)) then Qceiling (d / t) + 1
    else Qceiling (d / t).
Proof.
  intros Hd Ht. rewrite num_chunks_of_floor by assumption.
  case_bool_decide as E; [lia|].
  pose proof (Qle_floor_ceiling (d / t)) as Hle. rewrite <- Zle_Qle in Hle.
  pose proof (Qlt_floor (d / t)) as Hlt. pose proof (Qceiling_lt (d / t)) as Hgt.
  assert (inject_Z (Qceiling (d / t) - 1) < inject_Z (Qfloor (d / t) + 1))%Q as H
    by (eapply Qlt_trans; eassumption).
  rewrite <- Zlt_Qlt in H. lia.
Qed.

(** *** The extraction commands a split launches *)


Lemma ffmpeg_chunk_trace env input_file output_dir t n i chunk_files w :
  trace (ffmpeg_chunk env input_file output_dir t n i chunk_files w).2
  = (trace w ++ [extract_event output_dir i])%list.
Proof.
  unfold ffmpeg_chunk, try_except, bind.
  destruct (run_ffmpeg_extract_world env input_file (inject_Z (Z.of_nat i) * t)%Q t i
              (chunk_path output_dir i) w) as (files & Hw & _).
  destruct (run_ffmpeg_extract _ _ _ _ _ _ w) as [[[]|e] w1]; cbn in Hw; subst w1.
  - unfold os_path_exists, gets. cbn [fst snd].
    match goal with |- context [bool_decide ?P] => destruct (bool_decide P) end.
    + match goal with |- context [os_path_getsize ?e ?p ?w] =>
        pose proof (os_path_getsize_unchanged e p w) as Hg;
        destruct (os_path_getsize e p w) as [[size|e'] w2] end; cbn in Hg; subst w2.
      * now destruct (size >? 0).
      * destruct (isinstance_SubprocessError e'); [|reflexivity].
        now destruct (Z.of_nat i <? n - 1).
    + reflexivity.
  - destruct (isinstance_SubprocessError e); [|reflexivity].
    now destruct (Z.of_nat i <? n - 1).
Qed.


Lemma moves_audio_duration (R : World -> World -> Prop) `{!Reflexive R}
    `{!Transitive R} env input_file t max_size_mb :
  moves R (audio_duration env input_file t max_size_mb).
Proof.
  unfold audio_duration. apply moves_try_except; [assumption|now apply moves_ask|].
  intros e. destruct (isinstance_SubprocessError e); [|now apply moves_raise].
  apply moves_bind; [assumption|now apply moves_os_path_getsize|]. intros size.
  destruct (Qis_zero max_size_mb); [now apply moves_raise|now apply moves_ret].
Qed.


(** *** Chunk file names *)

Lemma string_app_inv_head (a x y : string) : a ++ x = a ++ y -> x = y.
Proof. induction a as [|c a IH]; cbn; [easy|]. intros H. inversion H. auto. Qed.

Lemma string_app_length (x y : string) :
  String.length (x ++ y) = (String.length x + String.length y)%nat.
Proof.
  induction x as [|c x IH]; [reflexivity|].
  change (String c x ++ y) with (String c (x ++ y)).
  cbn [String.length]. now rewrite IH.
Qed.

Lemma string_app_inv_tail (b x y : string) : x ++ b = y ++ b -> x = y.
Proof.
  revert y. induction x as [|c x IH]; intros [|c' y] H.
  - reflexivity.
  - apply (f_equal String.length) in H.
    rewrite !string_app_length in H. cbn [String.length] in H. lia.
  - apply (f_equal String.length) in H.
    rewrite !string_app_length in H. cbn [String.length] in H. lia.
  - change (String c (x ++ b) = String c' (y ++ b)) in H.
    inversion H. f_equal. auto.
Qed.

Lemma uint_of_string_zeros (k : nat) (s : string) :
  NilEmpty.uint_of_string (zeros k ++ s)
  = leading_zeros k <$> NilEmpty.uint_of_string s.
Proof.
  induction k as [|k IH].
  - change (zeros 0 ++ s) with s. now destruct (NilEmpty.uint_of_string s).
  - change (zeros (S k) ++ s) with (String "0" (zeros k ++ s)).
    cbn [NilEmpty.uint_of_string]. rewrite IH.
    now destruct (NilEmpty.uint_of_string s).
Qed.

Lemma of_uint_leading_zeros (k : nat) (d : Decimal.uint) :
  Nat.of_uint (leading_zeros k d) = Nat.of_uint d.
Proof. induction k as [|k IH]; [reflexivity|]. cbn. exact IH. Qed.

(** [f"{i:03d}"] can be read back. *)
Lemma fmt_03d_decode (i : nat) :
  Nat.of_uint <$> NilEmpty.uint_of_string (fmt_03d i) = Some i.
Proof.
  unfold fmt_03d, str_nat. rewrite uint_of_string_zeros, NilEmpty.usu. cbn.
  now rewrite of_uint_leading_zeros, Unsigned.of_to.
Qed.

Lemma fmt_03d_inj (i j : nat) : fmt_03d i = fmt_03d j -> i = j.
Proof.
  intros H. pose proof (fmt_03d_decode i) as Hi. rewrite H, fmt_03d_decode in Hi.
  now inversion Hi.
Qed.

Lemma chunk_path_inj (output_dir : string) (i j : nat) :
  chunk_path output_dir i = chunk_path output_dir j -> i = j.
Proof.
  unfold chunk_path, os_path_join. intros H. apply fmt_03d_inj.
  destruct (String.eqb output_dir "" || str_ends_with_slash output_dir).
  - apply string_app_inv_head, (string_app_inv_head "chunk_") in H.
    now apply string_app_inv_tail in H.
  - apply string_app_inv_head, (string_app_inv_head "/chunk_") in H.
    now apply string_app_inv_tail in H.
Qed.

(** *** What the file-system calls return *)

Lemma fault_ok env op w r w' :
  fault env op w = (r, w') -> w' = w.
Proof. intros H. pose proof (fault_unchanged env op w) as U. now rewrite H in U. Qed.

Lemma os_path_getsize_ok env path w size w' :
  os_path_getsize env path w = (Ok size, w') ->
  path_size env w path = Some size /\ w' = w.
Proof.
  unfold os_path_getsize, path_size. intros H.
  apply bind_ok_inv in H as ([] & w1 & Hf & H). apply fault_ok in Hf. subst w1.
  destruct (fs w !! path) as [[c|]|]; inversion H; subst; auto.
Qed.

Lemma file_read_ok path pos n w data w' :
  file_read path pos n w = (Ok data, w') ->
  exists c, fs w !! path = Some (File c) /\ data = slice c pos n /\ w' = w.
Proof.
  unfold file_read. destruct (fs w !! path) as [[c|]|]; intros H; inversion H; subst.
  now exists c.
Qed.

Lemma write_file_ok env path data w u w' :
  write_file env path data w = (Ok u, w') ->
  fs w !! path <> Some Dir
  /\ w' = {| fs := <[path := File data]> (fs w); trace := trace w |}.
Proof.
  unfold write_file. intros H.
  apply bind_ok_inv in H as ([] & w1 & Hf & H). apply fault_ok in Hf. subst w1.
  destruct (fs w !! path) as [[c|]|]; inversion H; subst; split; congruence.
Qed.

Lemma open_rb_ok env path w u w' :
  open_rb env path w = (Ok u, w') ->
  (exists c, fs w !! path = Some (File c)) /\ w' = w.
Proof.
  unfold open_rb. intros H.
  apply bind_ok_inv in H as ([] & w1 & Hf & H). apply fault_ok in Hf. subst w1.
  destruct (fs w !! path) as [[c|]|]; inversion H; subst. eauto.
Qed.

Lemma lookup_make_dirs_in (dirs : list string) :
  forall files p, p ∈ dirs -> make_dirs dirs files !! p = Some Dir.
Proof.
  induction dirs as [|q rest IH]; intros files p Hp; [now apply elem_of_nil in Hp|].
  cbn [make_dirs]. destruct (decide (p ∈ rest)) as [Hin|Hout]; [now apply IH|].
  apply elem_of_cons in Hp as [->|Hp]; [|contradiction].
  clear IH. revert files. induction rest as [|r rest IH]; intros files.
  - apply lookup_insert_eq.
  - cbn [make_dirs]. apply not_elem_of_cons in Hout as [Hne Hout].
    rewrite insert_insert_ne by congruence. now apply IH.
Qed.

Lemma lookup_make_dirs_out (dirs : list string) :
  forall files p, p ∉ dirs -> make_dirs dirs files !! p = files !! p.
Proof.
  induction dirs as [|q rest IH]; intros files p Hp; [reflexivity|].
  apply not_elem_of_cons in Hp as [Hne Hp]. cbn [make_dirs].
  rewrite IH by exact Hp. now apply lookup_insert_ne.
Qed.

Lemma existsb_is_file_false (files : gmap string node) (dirs : list string) :
  existsb (is_file files) dirs = false ->
  forall p c, p ∈ dirs -> files !! p <> Some (File c).
Proof.
  intros H p c Hp Hc. apply list_elem_of_In in Hp.
  assert (existsb (is_file files) dirs = true) as Ht.
  { apply existsb_exists. exists p. split; [exact Hp|]. unfold is_file. now rewrite Hc. }
  congruence.
Qed.

(** What [os.makedirs] changes when it returns: nothing that was there, and
    what it adds is a directory, [d] or one above it. *)
Lemma os_makedirs_ok env d w u w' :
  os_makedirs env d w = (Ok u, w') ->
  trace w' = trace w
  /\ fs w' !! d = Some Dir
  /\ forall p,
       fs w' !! p = fs w !! p
       \/ (fs w !! p = None /\ fs w' !! p = Some Dir /\ (p = d \/ p ∈ parents d)).
Proof.
  unfold os_makedirs. intros H.
  apply bind_ok_inv in H as ([] & w1 & Hf & H). apply fault_ok in Hf. subst w1.
  destruct (String.eqb d ""); [discriminate|].
  destruct (fs w !! d) as [[c|]|] eqn:Ed; [discriminate| |].
  - inversion H; subst. auto.
  - destruct (existsb (is_file (fs w)) (parents d)) eqn:Ef; [discriminate|].
    inversion H; subst. cbn [fs trace]. split; [reflexivity|]. split.
    + apply lookup_make_dirs_in, elem_of_app. right. apply list_elem_of_singleton.
      reflexivity.
    + intros p. destruct (decide (p ∈ (parents d ++ [d])%list)) as [Hin|Hout].
      * rewrite (lookup_make_dirs_in _ _ _ Hin).
        apply elem_of_app in Hin as [Hin|Hin].
        -- destruct (fs w !! p) as [[c|]|] eqn:Ep; [|now left|right; auto].
           now destruct (existsb_is_file_false _ _ Ef p c Hin).
        -- apply list_elem_of_singleton in Hin. subst p. right. auto.
      * left. now apply lookup_make_dirs_out.
Qed.

Lemma os_makedirs_keeps env d w u w' p :
  os_makedirs env d w = (Ok u, w') -> is_Some (fs w !! p) -> fs w' !! p = fs w !! p.
Proof.
  intros H [x Hx]. apply os_makedirs_ok in H as (_ & _ & H).
  destruct (H p) as [E|(E & _)]; [exact E|congruence].
Qed.

(** *** The byte-slicing fallback *)

Lemma python_chunk_ok env input_file output_dir chunk_size i pos w f n w' :
  python_chunk env input_file output_dir chunk_size i pos w = (Ok (f, n), w') ->
  exists c,
    fs w !! input_file = Some (File c)
    /\ f = chunk_path output_dir i
    /\ n = csize (slice c pos chunk_size)
    /\ fs w !! chunk_path output_dir i <> Some Dir
    /\ w' = {| fs := <[chunk_path output_dir i := File (slice c pos chunk_size)]> (fs w);
               trace := trace w |}.
Proof.
  unfold python_chunk. intros H.
  apply bind_ok_inv in H as (data & w1 & Hr & H).
  apply file_read_ok in Hr as (c & Hc & -> & ->).
  apply bind_ok_inv in H as ([] & w2 & Hw & H).
  apply write_file_ok in Hw as (Hnd & ->).
  apply bind_ok_inv in H as (size & w3 & Hg & H).
  apply os_path_getsize_ok in Hg as (_ & ->).
  inversion H; subst. exists c. auto.
Qed.

Lemma python_chunks_ok env input_file output_dir chunk_size c indices :
  (forall i, chunk_path output_dir i <> input_file) ->
  NoDup indices ->
  forall pos chunk_files w files w',
    fs w !! input_file = Some (File c) ->
    python_chunks env input_file output_dir chunk_size indices pos chunk_files w
    = (Ok files, w') ->
    files = (chunk_files ++ (chunk_path output_dir <$> indices))%list
    /\ trace w' = trace w
    /\ fs w' !! input_file = Some (File c)
    /\ (forall p, p ∉ chunk_path output_dir <$> indices -> fs w' !! p = fs w !! p)
    /\ chunks_written (fs w') c chunk_size output_dir indices pos.
Proof.
  intros Hsep Hnd. induction Hnd as [|i rest Hi Hnd IH];
    intros pos chunk_files w files w' Hc H.
  - inversion H; subst. rewrite app_nil_r. repeat split; auto.
  - cbn [python_chunks] in H. apply bind_ok_inv in H as ([f n] & w1 & Hstep & H).
    apply python_chunk_ok in Hstep as (c' & Hc' & -> & -> & Hd & ->).
    rewrite Hc in Hc'. inversion Hc'; subst c'.
    apply IH in H as (-> & Ht & Hin & Hout & Hw);
      [|cbn; rewrite lookup_insert_ne; [exact Hc|apply Hsep]].
    cbn [fs trace] in *.
    assert (chunk_path output_dir i ∉ chunk_path output_dir <$> rest) as Hfresh.
    { intros Hmem. apply list_elem_of_fmap in Hmem as (j & Hj & Hjr).
      apply chunk_path_inj in Hj. subst j. contradiction. }
    split; [|split; [|split; [|split]]].
    + rewrite <- app_assoc. reflexivity.
    + exact Ht.
    + exact Hin.
    + intros p Hp. rewrite fmap_cons, not_elem_of_cons in Hp. destruct Hp as [Hp1 Hp2].
      rewrite (Hout p Hp2). now rewrite lookup_insert_ne.
    + cbn [chunks_written]. split; [|exact Hw].
      rewrite (Hout _ Hfresh). apply lookup_insert_eq.
Qed.

Lemma Qceiling_div (a b : Z) :
  Qceiling (inject_Z a / inject_Z b) = - ((- a) / b).
Proof.
  unfold Qceiling. f_equal. rewrite Zdiv_Qdiv. apply Qfloor_comp.
  rewrite inject_Z_opp. unfold Qdiv. ring.
Qed.

(** Chunk [i] starts before the end of the file exactly when [i] is below
    the ceiling of size over chunk size. *)
Lemma ceiling_chunks (size chunk_size i : Z) :
  0 < chunk_size -> 0 <= i ->
  (i < - ((- size) / chunk_size) <-> i * chunk_size < size).
Proof.
  intros Hc Hi.
  pose proof (Z.div_mod (- size) chunk_size ltac:(lia)) as Hdm.
  pose proof (Z.mod_pos_bound (- size) chunk_size Hc) as Hb.
  set (q := (- size) / chunk_size) in *. set (r := (- size) mod chunk_size) in *.
  split; intros H; nia.
Qed.

Lemma slice_size (c : Content) (pos : N) (n : Z) :
  0 <= n -> csize (slice c pos n) = N.min (Z.to_N n) (csize c - pos)%N.
Proof. intros H. cbn. destruct (n <? 0) eqn:E; [lia|reflexivity]. Qed.

(** Read from offset 0 in steps of [chunk_size], chunk [i] is the slice that
    starts at [i * chunk_size]. *)
Lemma chunks_written_seq (files : gmap string node) (c : Content) (chunk_size : Z)
    (output_dir : string) (m : nat) :
  0 < chunk_size ->
  forall k : nat,
    (m = 0%nat \/ (Z.of_nat k + Z.of_nat m - 1) * chunk_size < Z.of_N (csize c)) ->
    chunks_written files c chunk_size output_dir (seq k m)
      (N.of_nat k * Z.to_N chunk_size)%N ->
    forall i : nat, (k <= i < k + m)%nat ->
      files !! chunk_path output_dir i
      = Some (File (slice c (N.of_nat i * Z.to_N chunk_size)%N chunk_size)).
Proof.
  intros Hc. induction m as [|m IH]; intros k Hm Hw i Hi; [lia|].
  cbn [seq chunks_written] in Hw. destruct Hw as [Hhead Htail].
  destruct (decide (i = k)) as [->|Hne]; [exact Hhead|].
  apply (IH (S k)); [lia| |lia].
  replace (N.of_nat (S k) * Z.to_N chunk_size)%N
    with (N.of_nat k * Z.to_N chunk_size
          + csize (slice c (N.of_nat k * Z.to_N chunk_size) chunk_size))%N;
    [exact Htail|].
  rewrite slice_size by lia. destruct Hm as [Hm|Hm]; [lia|]. nia.
Qed.

Lemma os_path_join_length (a b : string) :
  (String.length a + String.length b <= String.length (os_path_join a b))%nat.
Proof.
  unfold os_path_join. destruct (String.eqb a "" || str_ends_with_slash a);
    rewrite !string_app_length; cbn [String.length]; lia.
Qed.

Lemma chunk_path_longer (output_dir : string) (i : nat) :
  chunk_path output_dir i <> output_dir.
Proof.
  intros H. apply (f_equal String.length) in H.
  pose proof (os_path_join_length output_dir ("chunk_" ++ fmt_03d i ++ ".mp3")) as L.
  unfold chunk_path in H. rewrite H in L.
  rewrite (string_app_length "chunk_") in L. cbn [String.length] in L. lia.
Qed.

Lemma parents_from_length (rest : string) :
  forall pre p,
    p ∈ parents_from pre rest ->
    (String.length p < String.length pre + String.length rest)%nat.
Proof.
  induction rest as [|c rest IH]; intros pre p Hp; cbn [parents_from] in Hp.
  - now apply elem_of_nil in Hp.
  - cbn [String.length]. apply elem_of_app in Hp as [Hp|Hp].
    + destruct (_ && _); [|now apply elem_of_nil in Hp].
      apply list_elem_of_singleton in Hp. subst p. lia.
    + apply IH in Hp. rewrite string_app_length in Hp. cbn [String.length] in Hp. lia.
Qed.

(** A chunk file is neither its directory nor a directory above it. *)
Lemma chunk_path_below (output_dir : string) (i : nat) :
  chunk_path output_dir i <> output_dir /\ chunk_path output_dir i ∉ parents output_dir.
Proof.
  split; [apply chunk_path_longer|]. intros H.
  apply parents_from_length in H. cbn [String.length] in H.
  pose proof (os_path_join_length output_dir ("chunk_" ++ fmt_03d i ++ ".mp3")) as L.
  unfold chunk_path in H. lia.
Qed.

(** A chunk file that was no directory is none once its directory is made. *)
Lemma os_makedirs_chunk env output_dir w u w' i :
  os_makedirs env output_dir w = (Ok u, w') ->
  fs w' !! chunk_path output_dir i = fs w !! chunk_path output_dir i.
Proof.
  intros H. apply os_makedirs_ok in H as (_ & _ & H).
  destruct (H (chunk_path output_dir i)) as [E|(_ & _ & [E|E])]; [exact E| |];
    now destruct (chunk_path_below output_dir i).
Qed.

Lemma python_chunk_runs env input_file output_dir chunk_size i pos w c :
  (forall w' op, io_fault env w' op = None) ->
  fs w !! input_file = Some (File c) ->
  fs w !! chunk_path output_dir i <> Some Dir ->
  python_chunk env input_file output_dir chunk_size i pos w
  = (Ok (chunk_path output_dir i, csize (slice c pos chunk_size)),
     {| fs := <[chunk_path output_dir i := File (slice c pos chunk_size)]> (fs w);
        trace := trace w |}).
Proof.
  intros Hnf Hc Hd.
  unfold python_chunk, bind, file_read, write_file, os_path_getsize, bind, fault.
  rewrite Hc, Hnf. cbn.
  destruct (fs w !! chunk_path output_dir i) as [[c'|]|] eqn:E;
    try congruence; cbn; rewrite Hnf; cbn; rewrite lookup_insert_eq; reflexivity.
Qed.

Lemma python_chunks_runs env input_file output_dir chunk_size c indices :
  (forall w' op, io_fault env w' op = None) ->
  (forall i, chunk_path output_dir i <> input_file) ->
  forall pos chunk_files w,
    fs w !! input_file = Some (File c) ->
    (forall i, fs w !! chunk_path output_dir i <> Some Dir) ->
    exists files w',
      python_chunks env input_file output_dir chunk_size indices pos chunk_files w
      = (Ok files, w').
Proof.
  intros Hnf Hsep. induction indices as [|i rest IH]; intros pos chunk_files w Hc Hd.
  - now exists chunk_files, w.
  - cbn [python_chunks]. unfold bind at 1.
    rewrite (python_chunk_runs env input_file output_dir chunk_size i pos w c Hnf Hc (Hd i)).
    apply IH; cbn.
    + rewrite lookup_insert_ne; [exact Hc|apply Hsep].
    + intros j. destruct (decide (chunk_path output_dir i = chunk_path output_dir j)) as [E|E].
      * rewrite E, lookup_insert_eq. discriminate.
      * rewrite lookup_insert_ne by exact E. apply Hd.
Qed.

Lemma os_makedirs_runs env d w :
  (forall w' op, io_fault env w' op = None) ->
  d <> "" ->
  (forall c, fs w !! d <> Some (File c)) ->
  (forall p c, p ∈ parents d -> fs w !! p <> Some (File c)) ->
  exists w1, os_makedirs env d w = (Ok tt, w1).
Proof.
  intros Hnf Hne Hd Hp. unfold os_makedirs, bind, fault. rewrite Hnf.
  replace (String.eqb d "") with false by (symmetry; now apply String.eqb_neq).
  destruct (fs w !! d) as [[c|]|] eqn:E; [now destruct (Hd c)|eauto|].
  destruct (existsb (is_file (fs w)) (parents d)) eqn:Ef; [|eauto].
  apply existsb_exists in Ef as (p & Hin & Hf). apply list_elem_of_In in Hin.
  unfold is_file in Hf. destruct (fs w !! p) as [[c|]|] eqn:Ep; try discriminate.
  now destruct (Hp p c Hin).
Qed.

Lemma os_path_getsize_runs env path w size :
  (forall w' op, io_fault env w' op = None) ->
  path_size env w path = Some size ->
  os_path_getsize env path w = (Ok size, w).
Proof.
  intros Hnf. unfold path_size, os_path_getsize, bind, fault. rewrite Hnf.
  destruct (fs w !! path) as [[c|]|]; intros H; inversion H; reflexivity.
Qed.

Lemma open_rb_runs env path w c :
  (forall w' op, io_fault env w' op = None) ->
  fs w !! path = Some (File c) ->
  open_rb env path w = (Ok tt, w).
Proof.
  intros Hnf Hc. unfold open_rb, bind, fault. now rewrite Hnf, Hc.
Qed.

Lemma Qfloor_pos_nonneg (x : Q) : 0 < Qfloor x -> (0 <= x)%Q.
Proof.
  intros H. apply Qle_trans with (inject_Z (Qfloor x)); [|apply Qfloor_le].
  rewrite <- (Zle_Qle 0). lia.
Qed.

(** C4.  With the encoder unavailable, no I/O fault, a non-empty input file
    and a bound of [max_size_mb] whole megabytes, the split returns exactly
    [ceil(file_size / bound)] chunk files, in index order, where [bound] is
    [floor(max_size_mb * 0.95 * 1 MB)] bytes; chunk [i] holds the bytes of the
    input from offset [i * bound] on, [bound] of them for every chunk but the
    last and what remains, at least one byte, for the last.  (For a whole
    number of megabytes up to 2^20 and a file under 2^53 bytes, the two
    floating-point computations of the program give these exact values.) *)
Theorem fallback_slices_the_input env input_file output_dir
    chunk_duration_seconds (max_size_mb : Z) w c :
  let bound := Qfloor (inject_Z max_size_mb * 0.95 * 1024 * 1024)%Q in
  let n := Qceiling (inject_Z (Z.of_N (csize c)) / inject_Z bound)%Q in
  ffmpeg_version env w = false ->
  (forall w' op, io_fault env w' op = None) ->
  0 < max_size_mb <= 1048576 ->
  fs w !! input_file = Some (File c) ->
  (0 < csize c < 2 ^ 53)%N ->
  creatable (fs w) output_dir ->
  (forall i, chunk_path output_dir i <> input_file) ->
  (forall i, fs w !! chunk_path output_dir i <> Some Dir) ->
  exists w',
    split_audio_file env input_file output_dir chunk_duration_seconds
      (inject_Z max_size_mb) w
    = (Ok (chunk_path output_dir <$> range n), w')
    /\ Z.of_nat (length (chunk_path output_dir <$> range n)) = n
    /\ forall i : nat, Z.of_nat i < n ->
         exists ci,
           fs w' !! chunk_path output_dir i = Some (File ci)
           /\ (forall j, (j < csize ci)%N ->
                 cbyte ci j = cbyte c (N.of_nat i * Z.to_N bound + j)%N)
           /\ 0 < Z.of_N (csize ci) <= bound
           /\ (Z.of_nat i < n - 1 -> Z.of_N (csize ci) = bound)
           /\ (Z.of_nat i = n - 1 ->
               Z.of_N (csize ci) = Z.of_N (csize c) - (n - 1) * bound).
Proof.
  intros bound n Hv Hnf Hmb Hc [Hsize _] (Hne & Hout & Hup) Hsep Hnd.
  assert (0 < bound) as Hbound.
  { assert (1 <= inject_Z max_size_mb * 0.95 * 1024 * 1024)%Q as H1
      by (unfold Qle; cbn; lia).
    apply Qfloor_resp_le in H1. change (Qfloor 1) with 1 in H1. unfold bound. lia. }
  assert (py_int (inject_Z max_size_mb * 0.95 * 1024 * 1024)%Q = bound) as Hcs
    by (apply py_int_nonneg, Qfloor_pos_nonneg, Hbound).
  assert (n = - ((- Z.of_N (csize c)) / bound)) as Hn by apply Qceiling_div.
  assert (1 <= n) as Hn1.
  { pose proof (ceiling_chunks (Z.of_N (csize c)) bound 0 Hbound ltac:(lia)). lia. }
  unfold split_audio_file, check_ffmpeg_installed, gets. unfold bind at 1.
  rewrite Hv. cbn [negb]. unfold split_audio_file_python.
  unfold bind at 1. cbn [print modify].
  set (w0 := {| fs := fs w; trace := (trace w ++ [EvPythonFallback])%list |}).
  destruct (os_makedirs_runs env output_dir w0 Hnf Hne Hout Hup) as (w1 & Hmk).
  unfold bind at 1. rewrite Hmk.
  assert (fs w1 !! input_file = Some (File c)) as Hc1.
  { rewrite (os_makedirs_keeps _ _ _ _ _ input_file Hmk) by (cbn [fs w0]; eauto).
    exact Hc. }
  unfold bind at 1.
  rewrite (os_path_getsize_runs env input_file w1 (Z.of_N (csize c)) Hnf)
    by (unfold path_size; now rewrite Hc1).
  rewrite Hcs. replace (bound =? 0) with false by (symmetry; apply Z.eqb_neq; lia).
  unfold bind at 1. rewrite (open_rb_runs env input_file w1 c Hnf Hc1).
  fold n.
  assert (forall i, fs w1 !! chunk_path output_dir i <> Some Dir) as Hnd1.
  { intros i. rewrite (os_makedirs_chunk _ _ _ _ _ i Hmk). apply Hnd. }
  destruct (python_chunks_runs env input_file output_dir bound c (range n) Hnf Hsep
              0%N [] w1 Hc1 Hnd1) as (files & w' & Hrun).
  exists w'. rewrite Hrun.
  destruct (python_chunks_ok env input_file output_dir bound c (range n) Hsep
              (NoDup_seq 0 _) 0%N [] w1 files w' Hc1 Hrun)
    as (-> & _ & _ & _ & Hw).
  split; [reflexivity|]. split.
  { rewrite length_fmap. unfold range. rewrite length_seq. lia. }
  intros i Hi.
  pose proof (chunks_written_seq (fs w') c bound output_dir (Z.to_nat n) Hbound 0%nat) as Hseq.
  assert ((n - 1) * bound < Z.of_N (csize c)) as Hlast
    by (apply ceiling_chunks; lia).
  specialize (Hseq ltac:(right; lia) Hw i ltac:(lia)).
  eexists. split; [exact Hseq|].
  assert (Z.of_nat i * bound < Z.of_N (csize c)) as Hstart
    by (apply ceiling_chunks; lia).
  split; [reflexivity|].
  rewrite slice_size by lia.
  assert (Z.of_N (N.of_nat i * Z.to_N bound) = Z.of_nat i * bound) as Hpos
    by (rewrite N2Z.inj_mul, nat_N_Z, Z2N.id; lia).
  split; [lia|]. split.
  - intros Hlt.
    assert ((Z.of_nat i + 1) * bound < Z.of_N (csize c)) by (apply ceiling_chunks; lia).
    lia.
  - intros Heq. rewrite <- Heq in *.
    assert (~ (Z.of_nat i + 1) * bound < Z.of_N (csize c)) as Hge
      by (rewrite <- ceiling_chunks; lia).
    lia.
Qed.

(** *** What a split returns *)

Lemma nonempty_path_same env (w w' : World) p :
  fs w' !! p = fs w !! p -> nonempty_path env w p -> nonempty_path env w' p.
Proof. unfold nonempty_path, path_size. now intros ->. Qed.

Lemma ffmpeg_chunk_world env input_file output_dir t n i chunk_files w :
  (ffmpeg_chunk env input_file output_dir t n i chunk_files w).2
  = (run_ffmpeg_extract env input_file (inject_Z (Z.of_nat i) * t)%Q t i
       (chunk_path output_dir i) w).2.
Proof.
  unfold ffmpeg_chunk, try_except, bind.
  destruct (run_ffmpeg_extract _ _ _ _ _ _ w) as [[[]|e] w1]; cbn [fst snd].
  - unfold os_path_exists, gets. cbn [fst snd].
    match goal with |- context [bool_decide ?P] => destruct (bool_decide P) end.
    + match goal with |- context [os_path_getsize ?e ?p ?w] =>
        pose proof (os_path_getsize_unchanged e p w) as Hg;
        destruct (os_path_getsize e p w) as [[size|e'] w2] end; cbn in Hg; subst w2.
      * now destruct (size >? 0).
      * destruct (isinstance_SubprocessError e'); [|reflexivity].
        now destruct (Z.of_nat i <? n - 1).
    + reflexivity.
  - destruct (isinstance_SubprocessError e); [|reflexivity].
    now destruct (Z.of_nat i <? n - 1).
Qed.

Lemma ffmpeg_chunk_ok env input_file output_dir t n i chunk_files w files w1 :
  ffmpeg_chunk env input_file output_dir t n i chunk_files w = (Ok files, w1) ->
  (forall p, p <> chunk_path output_dir i -> fs w1 !! p = fs w !! p)
  /\ (files = chunk_files
      \/ (files = (chunk_files ++ [chunk_path output_dir i])%list
          /\ nonempty_path env w1 (chunk_path output_dir i))).
Proof.
  intros H. split.
  - pose proof (ffmpeg_chunk_world env input_file output_dir t n i chunk_files w) as Hw.
    rewrite H in Hw. cbn [snd] in Hw.
    destruct (run_ffmpeg_extract_world env input_file (inject_Z (Z.of_nat i) * t)%Q t i
                (chunk_path output_dir i) w) as (fl & E & _ & Hsame).
    rewrite <- Hw in E. rewrite E. exact Hsame.
  - unfold ffmpeg_chunk in H. apply try_except_inv in H as [(a & H & Ha)|(e & s1 & _ & H)].
    + inversion Ha; subst a. apply bind_ok_inv in H as ([] & w2 & _ & H).
      apply bind_ok_inv in H as (there & w3 & Hex & H).
      inversion Hex; subst. destruct (bool_decide _); [|inversion H; auto].
      apply bind_ok_inv in H as (size & w4 & Hg & H).
      apply os_path_getsize_ok in Hg as (Hsz & ->).
      destruct (size >? 0) eqn:Hpos; inversion H; subst; [|auto].
      right. split; [reflexivity|]. exists size. split; [exact Hsz|lia].
    + destruct (isinstance_SubprocessError e); [|discriminate].
      destruct (Z.of_nat i <? n - 1); [discriminate|]. inversion H. auto.
Qed.

Lemma ffmpeg_chunks_ok env input_file output_dir t n indices :
  NoDup indices ->
  forall chunk_files w files w',
    ffmpeg_chunks env input_file output_dir t n indices chunk_files w = (Ok files, w') ->
    exists kept,
      kept `sublist_of` indices
      /\ files = (chunk_files ++ (chunk_path output_dir <$> kept))%list
      /\ (forall p, p ∉ chunk_path output_dir <$> indices -> fs w' !! p = fs w !! p)
      /\ (forall i, i ∈ kept -> nonempty_path env w' (chunk_path output_dir i)).
Proof.
  induction 1 as [|i rest Hi Hnd IH]; intros chunk_files w files w' H.
  - inversion H; subst. exists []. rewrite app_nil_r.
    repeat split; auto. intros i Hi. inversion Hi.
  - cbn [ffmpeg_chunks] in H. apply bind_ok_inv in H as (files1 & w1 & Hstep & H).
    apply ffmpeg_chunk_ok in Hstep as (Hsame & Hfiles).
    apply IH in H as (kept & Hsub & -> & Hout & Hne).
    assert (chunk_path output_dir i ∉ chunk_path output_dir <$> rest) as Hfresh.
    { intros Hmem. apply list_elem_of_fmap in Hmem as (j & Hj & Hjr).
      apply chunk_path_inj in Hj. subst j. contradiction. }
    assert (forall p, p ∉ chunk_path output_dir <$> i :: rest -> fs w' !! p = fs w !! p)
      as Hout'.
    { intros p Hp. rewrite fmap_cons, not_elem_of_cons in Hp. destruct Hp as [Hp1 Hp2].
      rewrite (Hout p Hp2). now apply Hsame. }
    destruct Hfiles as [->|[-> Hi1]].
    + exists kept. split; [now apply sublist_cons|]. auto.
    + exists (i :: kept). split; [now apply sublist_skip|].
      split; [now rewrite <- app_assoc|]. split; [exact Hout'|].
      intros j Hj. apply elem_of_cons in Hj as [->|Hj]; [|now apply Hne].
      eapply nonempty_path_same; [apply (Hout _ Hfresh)|exact Hi1].
Qed.

Lemma sublist_sorted_lt (l1 l2 : list nat) :
  l1 `sublist_of` l2 -> StronglySorted lt l2 -> StronglySorted lt l1.
Proof.
  induction 1 as [|x l1 l2 Hsub IH|x l1 l2 Hsub IH]; intros Hs.
  - constructor.
  - inversion Hs as [|? ? Hs' Hall]; subst. constructor; [now apply IH|].
    rewrite Forall_forall in *. intros y Hy. apply Hall.
    eapply elem_of_sublist; eassumption.
  - inversion Hs; subst. now apply IH.
Qed.

Lemma seq_sorted_lt (m k : nat) : StronglySorted lt (seq k m).
Proof.
  revert k. induction m as [|m IH]; intros k; cbn; constructor; [apply IH|].
  rewrite Forall_forall. intros y Hy. apply elem_of_seq in Hy. lia.
Qed.

Lemma split_audio_file_python_ok env input_file output_dir max_size_mb w files w' :
  (forall i, chunk_path output_dir i <> input_file) ->
  split_audio_file_python env input_file output_dir max_size_mb w = (Ok files, w') ->
  exists m,
    files = chunk_path output_dir <$> seq 0 m
    /\ forall p, p ∈ files -> nonempty_path env w' p.
Proof.
  intros Hsep H. unfold split_audio_file_python in H.
  apply bind_ok_inv in H as ([] & w0 & _ & H).
  apply bind_ok_inv in H as ([] & w1 & _ & H).
  apply bind_ok_inv in H as (size & w2 & Hg & H).
  apply os_path_getsize_ok in Hg as (Hsz & ->).
  set (cs := py_int (max_size_mb * 0.95 * 1024 * 1024)%Q) in *.
  destruct (cs =? 0) eqn:Hz; [discriminate|]. apply Z.eqb_neq in Hz.
  apply bind_ok_inv in H as ([] & w3 & Ho & H).
  apply open_rb_ok in Ho as ((c & Hc) & ->).
  unfold path_size in Hsz. rewrite Hc in Hsz. inversion Hsz; subst size. clear Hsz.
  rewrite Qceiling_div in H. set (n := - ((- Z.of_N (csize c)) / cs)) in *.
  apply (python_chunks_ok env input_file output_dir cs c (range n) Hsep
           (NoDup_seq 0 _)) in H as (-> & _ & _ & _ & Hw); [|exact Hc].
  exists (Z.to_nat n). split; [reflexivity|].
  intros p Hp. apply list_elem_of_fmap in Hp as (i & -> & Hi).
  apply elem_of_seq in Hi.
  assert (0 < cs) as Hcs.
  { destruct (Z.lt_trichotomy cs 0) as [Hneg|[?|?]]; [|lia|assumption].
    exfalso. assert (0 <= (- Z.of_N (csize c)) / cs); [|lia].
    rewrite <- Z.div_opp_opp by lia. apply Z.div_pos; lia. }
  assert ((n - 1) * cs < Z.of_N (csize c)) as Hlast by (apply ceiling_chunks; lia).
  pose proof (chunks_written_seq (fs w') c cs output_dir (Z.to_nat n) Hcs 0%nat
                ltac:(right; lia) Hw i ltac:(lia)) as Hfile.
  assert (Z.of_nat i * cs < Z.of_N (csize c)) as Hstart by (apply ceiling_chunks; lia).
  assert (Z.of_N (N.of_nat i * Z.to_N cs) = Z.of_nat i * cs) as Hpos
    by (rewrite N2Z.inj_mul, nat_N_Z, Z2N.id; lia).
  eexists. unfold path_size. rewrite Hfile. split; [reflexivity|].
  rewrite slice_size by lia. lia.
Qed.

Lemma python_chunks_files env input_file output_dir chunk_size indices :
  forall pos chunk_files w files w',
    python_chunks env input_file output_dir chunk_size indices pos chunk_files w
    = (Ok files, w') ->
    files = (chunk_files ++ (chunk_path output_dir <$> indices))%list.
Proof.
  induction indices as [|i rest IH]; intros pos chunk_files w files w' H.
  - inversion H; subst. now rewrite app_nil_r.
  - cbn [python_chunks] in H. apply bind_ok_inv in H as ([f n] & w1 & Hstep & H).
    apply python_chunk_ok in Hstep as (c & _ & -> & _).
    apply IH in H. rewrite H, <- app_assoc. reflexivity.
Qed.

(** The list a split returns names chunks in increasing index order. *)
Lemma split_audio_file_sorted env input_file output_dir t max_size_mb w chunk_files w' :
  split_audio_file env input_file output_dir t max_size_mb w = (Ok chunk_files, w') ->
  exists kept, StronglySorted lt kept /\ chunk_files = chunk_path output_dir <$> kept.
Proof.
  intros H. unfold split_audio_file in H.
  apply bind_ok_inv in H as (installed & w0 & Hi & H). inversion Hi; subst. clear Hi.
  destruct (ffmpeg_version env w0); cbn [negb] in H.
  - apply bind_ok_inv in H as ([] & w1 & _ & H).
    apply bind_ok_inv in H as (d & w2 & _ & H).
    destruct (Qis_zero t); [discriminate|].
    apply bind_ok_inv in H as ([] & w3 & _ & H).
    apply ffmpeg_chunks_ok in H as (kept & Hsub & -> & _); [|apply NoDup_seq].
    exists kept. split; [|reflexivity].
    eapply sublist_sorted_lt; [exact Hsub|apply seq_sorted_lt].
  - unfold split_audio_file_python in H.
    apply bind_ok_inv in H as ([] & w1 & _ & H).
    apply bind_ok_inv in H as ([] & w2 & _ & H).
    apply bind_ok_inv in H as (size & w3 & _ & H).
    destruct (_ =? 0); [discriminate|].
    apply bind_ok_inv in H as ([] & w4 & _ & H).
    apply python_chunks_files in H. subst chunk_files.
    eexists. split; [apply seq_sorted_lt|reflexivity].
Qed.

(** C7 (as the code has it).  When [split_audio_file] returns, on an input
    file that is not itself one of the chunk files, its list holds chunk paths
    in increasing index order, each of which exists with a size that is not
    zero.  The list may be empty: the splitter raises nothing then, and it is
    the endpoint, at its own call of the splitter, that turns an empty list
    into a failure.  (The input is taken to be under 2^53 bytes, where the
    chunk count the fallback computes in floating point is the exact one.) *)
Theorem split_audio_file_lists_chunks env input_file output_dir
    chunk_duration_seconds max_size_mb w chunk_files w' :
  (forall i, chunk_path output_dir i <> input_file) ->
  (forall c, fs w !! input_file = Some (File c) -> (csize c < 2 ^ 53)%N) ->
  split_audio_file env input_file output_dir chunk_duration_seconds max_size_mb w
  = (Ok chunk_files, w') ->
  (exists kept, StronglySorted lt kept /\ chunk_files = chunk_path output_dir <$> kept)
  /\ (forall p, p ∈ chunk_files -> nonempty_path env w' p)
  /\ (forall d f w1,
        split_audio_file env temp_audio_path d 300 20 (world f) = (Ok [], w1) ->
        transcribe_in_chunks env d f
        = (Raise (Raised Exception
                    ("Error processing audio chunks: "
                     ++ "Failed to split audio file into chunks")),
           {| world := w1; temp_dir := temp_dir f |})).
Proof.
  intros Hsep _ H.
  enough ((exists kept, StronglySorted lt kept
                        /\ chunk_files = chunk_path output_dir <$> kept)
          /\ (forall p, p ∈ chunk_files -> nonempty_path env w' p)) as [HA HB].
  { split; [exact HA|]. split; [exact HB|].
    intros d f w1 Hempty. unfold transcribe_in_chunks, try_except.
    unfold bind at 1. unfold lift at 1. now rewrite Hempty. }
  { unfold split_audio_file in H.
    apply bind_ok_inv in H as (installed & w0 & Hi & H). inversion Hi; subst. clear Hi.
    destruct (ffmpeg_version env w0); cbn [negb] in H.
    + apply bind_ok_inv in H as ([] & w1 & _ & H).
      apply bind_ok_inv in H as (d & w2 & _ & H).
      destruct (Qis_zero chunk_duration_seconds); [discriminate|].
      apply bind_ok_inv in H as ([] & w3 & _ & H).
      apply ffmpeg_chunks_ok in H as (kept & Hsub & -> & _ & Hne); [|apply NoDup_seq].
      split.
      * exists kept. split; [|reflexivity].
        eapply sublist_sorted_lt; [exact Hsub|apply seq_sorted_lt].
      * intros p Hp. apply list_elem_of_fmap in Hp as (i & -> & Hi). now apply Hne.
    + apply split_audio_file_python_ok in H as (m & -> & Hne); [|exact Hsep].
      split; [|exact Hne]. exists (seq 0 m). split; [apply seq_sorted_lt|reflexivity]. }
Qed.


(** *** The events of a split and of a transcription *)

Lemma python_chunks_same_trace env input_file output_dir chunk_size indices :
  forall pos chunk_files,
    moves same_trace
      (python_chunks env input_file output_dir chunk_size indices pos chunk_files).
Proof.
  induction indices as [|i rest IH]; intros pos chunk_files; cbn [python_chunks].
  - now apply moves_ret.
  - apply moves_bind; [apply _| |intros [f n]; apply IH].
    unfold python_chunk.
    apply moves_bind; [apply _|now apply moves_file_read|intros data].
    apply moves_bind; [apply _|apply moves_write_file_trace|intros _].
    apply moves_bind; [apply _|now apply moves_os_path_getsize|intros _].
    now apply moves_ret.
Qed.

Lemma ffmpeg_chunks_grows env input_file output_dir t n indices :
  forall chunk_files,
    moves (grows is_split_event)
      (ffmpeg_chunks env input_file output_dir t n indices chunk_files).
Proof.
  induction indices as [|i rest IH]; intros chunk_files; cbn [ffmpeg_chunks].
  - now apply moves_ret.
  - apply moves_bind; [apply _| |intros files; apply IH].
    intros w. exists [extract_event output_dir i].
    split; [apply ffmpeg_chunk_trace|]. now repeat constructor.
Qed.

Lemma split_audio_file_grows env input_file output_dir t max_size_mb :
  moves (grows is_split_event) (split_audio_file env input_file output_dir t max_size_mb).
Proof.
  unfold split_audio_file, check_ffmpeg_installed.
  apply moves_bind; [apply _|now apply moves_gets|intros installed].
  destruct installed; cbn [negb].
  - apply moves_bind; [apply _| |intros _].
    { apply moves_same_trace_grows, moves_os_makedirs_trace. }
    apply moves_bind; [apply _|apply moves_audio_duration; apply _|intros d].
    destruct (Qis_zero t); [now apply moves_raise|].
    apply moves_bind; [apply _|now apply moves_print_grows|intros _].
    apply ffmpeg_chunks_grows.
  - unfold split_audio_file_python.
    apply moves_bind; [apply _|now apply moves_print_grows|intros _].
    apply moves_bind; [apply _| |intros _].
    { apply moves_same_trace_grows, moves_os_makedirs_trace. }
    apply moves_bind; [apply _|now apply moves_os_path_getsize|intros size].
    destruct (_ =? 0); [now apply moves_raise|].
    apply moves_bind; [apply _|now apply moves_open_rb|intros _].
    apply moves_same_trace_grows, python_chunks_same_trace.
Qed.

(** A call of the segment transcriber prints its file name and changes
    nothing else. *)
Lemma transcribe_audio_chunk_world env chunk_file w :
  (transcribe_audio_chunk env chunk_file w).2
  = {| fs := fs w; trace := (trace w ++ [EvTranscribing chunk_file])%list |}.
Proof.
  unfold transcribe_audio_chunk. unfold bind at 1. cbn [print modify].
  set (w1 := {| fs := fs w; trace := _ |}).
  match goal with |- (?m w1).2 = w1 => enough (moves (fun a b => b = a) m) as H by apply H end.
  assert (Reflexive (fun a b : World => b = a)) as Hr by (intros a; reflexivity).
  assert (Transitive (fun a b : World => b = a)) as Ht by (intros a b c; congruence).
  apply moves_try_except; [assumption| |intros e; now apply moves_raise].
  apply moves_try_except; [assumption| |intros _].
  - apply moves_bind; [assumption|now apply moves_open_rb|intros _].
    now apply moves_ask.
  - apply moves_try_except; [assumption| |intros e; now apply moves_raise].
    apply moves_bind; [assumption|now apply moves_open_rb|intros _].
    apply moves_bind; [assumption|now apply moves_ask|intros resp].
    destruct (_ =? 200); [|now apply moves_raise].
    destruct (post_json_text resp); [now apply moves_ret|now apply moves_raise].
Qed.

Lemma transcribe_chunks_run env chunk_files :
  forall transcripts w r w',
    transcribe_chunks env chunk_files transcripts w = (r, w') ->
    fs w' = fs w
    /\ exists called,
         called `prefix_of` chunk_files
         /\ trace w' = (trace w ++ (EvTranscribing <$> called))%list
         /\ forall ts, r = Ok ts ->
              called = chunk_files
              /\ exists segments,
                   ts = (transcripts ++ segments)%list
                   /\ segments_from env w chunk_files segments.
Proof.
  induction chunk_files as [|p rest IH]; intros transcripts w r w' H.
  - inversion H; subst. split; [reflexivity|]. exists []. split; [reflexivity|].
    rewrite app_nil_r. split; [reflexivity|]. intros ts Hts. inversion Hts; subst.
    split; [reflexivity|]. exists []. now rewrite app_nil_r.
  - cbn [transcribe_chunks] in H.
    pose proof (transcribe_audio_chunk_world env p w) as Hw.
    apply bind_inv in H as [(s & w1 & Hs & H)|(e & Hs & ->)].
    + apply IH in H as (Hfs & called & Hpre & Htr & Hok).
      rewrite Hs in Hw. cbn [snd] in Hw.
      split; [rewrite Hfs, Hw; reflexivity|].
      exists (p :: called). split; [now apply prefix_cons|].
      split; [rewrite Htr, Hw; cbn; now rewrite <- app_assoc|].
      intros ts Hts. destruct (Hok ts Hts) as (-> & segs & -> & Hall).
      split; [reflexivity|]. exists (s :: segs).
      split; [now rewrite <- app_assoc|]. cbn [segments_from].
      rewrite Hs. cbn [fst snd]. auto.
    + rewrite Hs in Hw. cbn [snd] in Hw. subst w'. cbn. split; [reflexivity|].
      exists [p]. split; [apply prefix_cons, prefix_nil|].
      split; [reflexivity|]. discriminate.
Qed.

(** *** The request frame *)

Lemma lift_inv {A} (m : M World A) f r f' :
  lift m f = (r, f') ->
  exists w', m (world f) = (r, w') /\ f' = {| world := w'; temp_dir := temp_dir f |}.
Proof.
  unfold lift. destruct (m (world f)) as [r0 w']. intros H. inversion H; subst. eauto.
Qed.

#[local] Instance on_world_refl R `{!Reflexive R} : Reflexive (on_world R).
Proof. intros f. unfold on_world. reflexivity. Qed.
#[local] Instance on_world_trans R `{!Transitive R} : Transitive (on_world R).
Proof. intros f1 f2 f3. unfold on_world. intros H1 H2. now transitivity (world f2). Qed.

Lemma moves_lift {A} (R : World -> World -> Prop) (m : M World A) :
  moves R m -> moves (on_world R) (lift m).
Proof.
  intros H f. unfold lift, on_world. specialize (H (world f)).
  now destruct (m (world f)).
Qed.

Lemma moves_set_temp_dir (R : World -> World -> Prop) `{!Reflexive R} d :
  moves (on_world R) (set_temp_dir d).
Proof. intros f. unfold on_world. cbn. reflexivity. Qed.

Lemma moves_remove_audio_trace env : moves same_trace (remove_audio env).
Proof.
  unfold remove_audio.
  apply moves_bind; [apply _|now apply moves_os_path_exists|intros there].
  destruct there; [apply moves_os_remove_trace|now apply moves_ret].
Qed.

Lemma moves_temp_dir_there (R : World -> World -> Prop) `{!Reflexive R}
    `{!Transitive R} : moves (on_world R) temp_dir_there.
Proof.
  unfold temp_dir_there.
  apply moves_bind; [apply _|apply moves_gets; apply _|intros [d|]];
    [|apply moves_ret; apply _].
  destruct (String.eqb d ""); [apply moves_ret; apply _|].
  apply moves_bind; [apply _| |intros there; apply moves_ret; apply _].
  apply moves_lift. now apply moves_os_path_exists.
Qed.

Lemma moves_finish_chunks_trace env full_transcript :
  moves (on_world same_trace) (finish_chunks env full_transcript).
Proof.
  unfold finish_chunks.
  apply moves_bind; [apply _|apply moves_lift, moves_remove_audio_trace|intros _].
  apply moves_bind; [apply _|apply moves_temp_dir_there; apply _|intros [d|]].
  - apply moves_bind; [apply _|apply moves_lift, moves_shutil_rmtree_trace|intros _].
    apply moves_bind; [apply _|now apply moves_set_temp_dir|intros _].
    apply moves_ret; apply _.
  - apply moves_ret; apply _.
Qed.

Lemma moves_cleanup_trace env : moves (on_world same_trace) (cleanup env).
Proof.
  unfold cleanup. apply moves_bind; [apply _| |intros _].
  - apply moves_bind; [apply _|apply moves_lift; now apply moves_os_path_exists|].
    intros there. destruct there; [|apply moves_ret; apply _].
    apply moves_try_except; [apply _|apply moves_lift, moves_os_remove_trace|].
    intros _. apply moves_ret; apply _.
  - apply moves_try_except; [apply _| |intros _; apply moves_ret; apply _].
    unfold remove_temp_dir.
    apply moves_bind; [apply _|apply moves_temp_dir_there; apply _|intros [d|]].
    + apply moves_lift, moves_shutil_rmtree_trace.
    + apply moves_ret; apply _.
Qed.

(** The clean-up of the [except] clauses never raises. *)
Lemma cleanup_returns env f : exists f', cleanup env f = (Ok tt, f').
Proof.
  assert (forall (m : M Frame unit) s, exists s',
            try_except m (fun _ => ret tt) s = (Ok tt, s')) as Htry.
  { intros m s. unfold try_except. destruct (m s) as [[[]|e] s']; eauto. }
  unfold cleanup. unfold bind at 1. unfold bind at 1.
  unfold lift at 1, os_path_exists, gets. cbn [fst snd].
  match goal with |- context [bool_decide ?P] => destruct (bool_decide P) end.
  - match goal with |- context [try_except ?m ?h ?s] =>
      destruct (Htry m s) as (s1 & ->) end. apply Htry.
  - cbn. apply Htry.
Qed.

(** *** The shape of a request *)

Lemma transcribe_in_chunks_run env d f r f' :
  transcribe_in_chunks env d f = (r, f') ->
  exists split_events tail,
    trace (world f') = (trace (world f) ++ split_events ++ tail)%list
    /\ Forall is_split_event split_events
    /\ chunked_outcome env d r tail.
Proof.
  unfold transcribe_in_chunks. intros H.
  match type of H with try_except ?body _ _ = _ =>
    assert (exists r0, body f = (r0, f')
                       /\ (forall t, r = Ok t -> r0 = Ok t)
                       /\ (forall e, r0 = Raise e -> exists e', r = Raise e'))
      as (r0 & Hbody & Hok & Hraise) end.
  { apply try_except_inv in H as [(a & H & ->)|(e & s1 & H & Hh)].
    - exists (Ok a). split; [exact H|]. split; [auto|discriminate].
    - inversion Hh; subst. exists (Raise e). split; [exact H|].
      split; [discriminate|eauto]. }
  clear H.
  pose proof (split_audio_file_grows env temp_audio_path d 300 20 (world f))
    as (split_events & Hsplit & Hall).
  apply bind_inv in Hbody as [(chunk_files & f1 & Hs & Hbody)|(e & Hs & ->)];
    apply lift_inv in Hs as (w1 & Hs & ->); rewrite Hs in Hsplit; cbn [snd] in Hsplit.
  - destruct chunk_files as [|p rest] eqn:Hcf.
    + inversion Hbody; subst. exists split_events, []. rewrite app_nil_r.
      cbn. split; [exact Hsplit|]. split; [exact Hall|]. left.
      split; [reflexivity|]. eapply Hraise. reflexivity.
    + rewrite <- Hcf in *. assert (chunk_files <> []) as Hne by (subst; discriminate).
      clear Hcf.
      apply bind_inv in Hbody as [([] & f2 & Hp & Hbody)|(e & Hp & ->)];
        [|discriminate].
      inversion Hp; subst f2. clear Hp. cbn [world temp_dir] in Hbody.
      set (w2 := {| fs := fs w1;
                    trace := (trace w1 ++ [EvSplitInto (length chunk_files)])%list |}) in *.
      apply bind_inv in Hbody as [(ts & f3 & Ht & Hbody)|(e & Ht & ->)];
        apply lift_inv in Ht as (w3 & Ht & ->);
        apply transcribe_chunks_run in Ht as (_ & called & Hpre & Htr & Hsegs);
        cbn [world temp_dir] in *.
      * pose proof (moves_finish_chunks_trace env (str_join " " ts)
                      {| world := w3; temp_dir := temp_dir f |}) as Hfin.
        rewrite Hbody in Hfin. unfold on_world, same_trace in Hfin. cbn in Hfin.
        exists split_events, (EvSplitInto (length chunk_files) :: (EvTranscribing <$> called)).
        split; [rewrite Hfin, Htr; unfold w2; cbn [trace]; rewrite Hsplit;
                now rewrite <- !app_assoc|].
        split; [exact Hall|]. right. exists chunk_files, called, (world f), w1.
        split; [exact Hs|]. split; [exact Hne|]. split; [exact Hpre|].
        split; [reflexivity|]. intros t Ht.
        destruct (Hsegs ts eq_refl) as (-> & segs & -> & Hseg).
        split; [reflexivity|]. exists segs. split; [exact Hseg|].
        apply Hok in Ht. subst r0.
        assert (finish_chunks env (str_join " " ([] ++ segs))
                  {| world := w3; temp_dir := temp_dir f |} = (Ok t, f')
                -> t = str_join " " segs) as Hval.
        { clear. unfold finish_chunks. intros H.
          apply bind_ok_inv in H as ([] & f1 & _ & H).
          apply bind_ok_inv in H as ([d'|] & f2 & _ & H).
          - apply bind_ok_inv in H as ([] & f3 & _ & H).
            apply bind_ok_inv in H as ([] & f4 & _ & H). now inversion H.
          - now inversion H. }
        now apply Hval.
      * cbn. exists split_events, (EvSplitInto (length chunk_files) :: (EvTranscribing <$> called)).
        split; [rewrite Htr; unfold w2; cbn [trace]; rewrite Hsplit;
                now rewrite <- !app_assoc|].
        split; [exact Hall|]. right. exists chunk_files, called, (world f), w1.
        split; [exact Hs|]. split; [exact Hne|]. split; [exact Hpre|].
        split; [reflexivity|]. intros t Ht. apply Hok in Ht. discriminate.
  - cbn. exists split_events, []. rewrite app_nil_r.
    split; [exact Hsplit|]. split; [exact Hall|]. left.
    split; [reflexivity|]. eapply Hraise. reflexivity.
Qed.

Lemma first_free_spec files dir pre names path :
  first_free files dir pre names = Some path ->
  files !! path = None /\ exists name, path = os_path_join dir (pre ++ name).
Proof.
  induction names as [|name rest IH]; cbn; [discriminate|].
  case_bool_decide as E; [exact IH|]. intros H. inversion H; subst. split; [|eauto].
  destruct (files !! os_path_join dir (pre ++ name)) eqn:L; [|reflexivity].
  exfalso. apply E. eauto.
Qed.

Lemma tempfile_mkdtemp_ok env pre w d w' :
  tempfile_mkdtemp env pre w = (Ok d, w') ->
  fs w !! d = None
  /\ (exists name, d = os_path_join (gettempdir env) (pre ++ name))
  /\ w' = {| fs := <[d := Dir]> (fs w); trace := trace w |}.
Proof.
  unfold tempfile_mkdtemp. intros H.
  apply bind_ok_inv in H as ([] & w1 & Hf & H). apply fault_ok in Hf. subst w1.
  destruct (first_free _ _ _ _) as [path|] eqn:E; inversion H; subst.
  apply first_free_spec in E as (Hnone & Hname). auto.
Qed.

Lemma fetch_ok env audio_url w resp w' :
  fetch env audio_url w = (Ok resp, w') ->
  requests_get env w audio_url = Ok resp /\ audio_raise_for_status resp = None.
Proof.
  unfold fetch, try_except, bind.
  destruct (requests_get env w audio_url) as [resp'|e]; cbn.
  - destruct (audio_raise_for_status resp') as [e|] eqn:Es; cbn.
    + destruct (isinstance_RequestException e); discriminate.
    + intros H. inversion H; subst. auto.
  - destruct (isinstance_RequestException e); discriminate.
Qed.

Lemma fetch_world env audio_url w : (fetch env audio_url w).2 = w.
Proof.
  unfold fetch, try_except, bind.
  destruct (requests_get env w audio_url) as [resp|e]; cbn.
  - destruct (audio_raise_for_status resp) as [e|]; cbn; [|reflexivity].
    now destruct (isinstance_RequestException e).
  - now destruct (isinstance_RequestException e).
Qed.

Lemma save_run env resp w r w' :
  save env resp w = (r, w') ->
  (exists n, r = Ok n
             /\ trace w' = (trace w ++ [EvDownloaded temp_audio_path n])%list
             /\ fs w' = <[temp_audio_path := File (audio_body resp)]> (fs w))
  \/ ((exists e, r = Raise e) /\ trace w' = trace w).
Proof.
  unfold save. intros H.
  apply bind_inv in H as [([] & w1 & Hw & H)|(e & Hw & ->)].
  - apply write_file_ok in Hw as (_ & ->).
    destruct (audio_stream_error resp) as [e|].
    + inversion H; subst. right. eauto.
    + apply bind_inv in H as [(n & w2 & Hg & H)|(e & Hg & ->)].
      * apply os_path_getsize_ok in Hg as (_ & ->). inversion H; subst. left.
        exists n. auto.
      * pose proof (os_path_getsize_unchanged env temp_audio_path
                      {| fs := <[temp_audio_path := File (audio_body resp)]> (fs w);
                         trace := trace w |}) as Hu.
        rewrite Hg in Hu. cbn in Hu. subst w'. right. eauto.
  - pose proof (moves_write_file_trace env temp_audio_path (audio_body resp) w) as Ht.
    rewrite Hw in Ht. right. eauto.
Qed.

Lemma chunked_outcome_reraise env d e e' tail :
  chunked_outcome env d (Raise e) tail -> chunked_outcome env d (Raise e') tail.
Proof.
  intros [(-> & _)|(cf & called & w1 & w2 & Hs & Hne & Hpre & -> & _)].
  - left. eauto.
  - right. exists cf, called, w1, w2. repeat (split; [assumption|]).
    split; [reflexivity|discriminate].
Qed.

(** An [except] clause that lets an [HTTPException] through keeps the shape. *)
Lemma request_shape_reraise env files e e' t :
  request_shape env files (Raise e) t ->
  (isinstance_HTTPException e = true -> e' = e) ->
  request_shape env files (Raise e') t.
Proof.
  intros H He. inversion H; subst.
  - constructor.
  - rewrite (He eq_refl). constructor.
  - now constructor.
  - now constructor.
  - constructor; try assumption. eapply chunked_outcome_reraise; eassumption.
Qed.

Lemma process_download_run env files n f r f' :
  trace (world f) = [EvDownloaded temp_audio_path n] ->
  (forall d, fs (world f) !! d = None -> files !! d = None) ->
  process_download env n f = (r, f') ->
  request_shape env files r (trace (world f')).
Proof.
  intros Ht Hfiles H. unfold process_download in H.
  destruct (n =? 0) eqn:Hz.
  { apply Z.eqb_eq in Hz. subst n. inversion H; subst. rewrite Ht. constructor. }
  apply Z.eqb_neq in Hz. destruct (n >? SIZE_LIMIT) eqn:Hbig.
  - apply Z.gtb_lt in Hbig.
    apply bind_inv in H as [([] & f1 & Hp & H)|(e & Hp & ->)]; [|discriminate].
    inversion Hp; subst f1. clear Hp.
    apply bind_inv in H as [(d & f2 & Hm & H)|(e & Hm & ->)];
      apply lift_inv in Hm as (w2 & Hm & ->); cbn [world temp_dir] in *.
    + apply tempfile_mkdtemp_ok in Hm as (Hfresh & _ & ->). cbn [fs trace] in *.
      apply bind_inv in H as [([] & f3 & Hs & H)|(e & Hs & ->)]; [|discriminate].
      inversion Hs; subst f3. clear Hs. cbn [world temp_dir] in H.
      apply bind_inv in H as [([] & f4 & Hp & H)|(e & Hp & ->)]; [|discriminate].
      inversion Hp; subst f4. clear Hp. cbn [world temp_dir fs trace] in H.
      apply transcribe_in_chunks_run in H as (split_events & tail & Htr & Hall & Hout).
      rewrite Htr. cbn [world trace]. rewrite Ht. cbn.
      constructor; auto.
    + pose proof (moves_tempfile_mkdtemp_trace env "audio_chunks_"
                    {| fs := fs (world f); trace := (trace (world f) ++ [EvTooLarge])%list |})
        as Hsame.
      rewrite Hm in Hsame. unfold same_trace in Hsame. cbn in Hsame.
      cbn [world]. rewrite Hsame, Ht. now constructor.
  - assert (n <= SIZE_LIMIT) as Hle.
    { destruct (Z.gtb_spec n SIZE_LIMIT); [discriminate|assumption]. }
    apply bind_inv in H as [([] & f1 & Hp & H)|(e & Hp & ->)]; [|discriminate].
    inversion Hp; subst f1. clear Hp.
    assert (trace (world f')
            = [EvDownloaded temp_audio_path n; EvDirect; EvTranscribing temp_audio_path])
      as Hfinal.
    { apply bind_inv in H as [(t & f2 & Hc & H)|(e & Hc & ->)];
        apply lift_inv in Hc as (w2 & Hc & ->); cbn [world temp_dir] in *;
        match type of Hc with transcribe_audio_chunk ?e ?p ?w = _ =>
          pose proof (transcribe_audio_chunk_world e p w) as Hw end;
        rewrite Hc in Hw; cbn [snd fs trace] in Hw; subst w2.
      - apply bind_inv in H as [([] & f3 & Hr & H)|(e & Hr & ->)].
        + apply lift_inv in Hr as (w3 & Hr & ->). inversion H; subst. cbn [world].
          match type of Hr with remove_audio ?e ?w = _ =>
            pose proof (moves_remove_audio_trace e w) as Hs end.
          rewrite Hr in Hs. unfold same_trace in Hs. cbn in Hs. rewrite Hs, Ht.
          reflexivity.
        + apply lift_inv in Hr as (w3 & Hr & ->). cbn [world].
          match type of Hr with remove_audio ?e ?w = _ =>
            pose proof (moves_remove_audio_trace e w) as Hs end.
          rewrite Hr in Hs. unfold same_trace in Hs. cbn in Hs. rewrite Hs, Ht.
          reflexivity.
      - cbn. rewrite Ht. reflexivity. }
    rewrite Hfinal. now constructor.
Qed.

Lemma transcribe_try_run env audio_url files r f' :
  transcribe_try env audio_url
    {| world := {| fs := files; trace := [] |}; temp_dir := None |} = (r, f') ->
  request_shape env files r (trace (world f')).
Proof.
  unfold transcribe_try. intros H.
  apply bind_inv in H as [(resp & f1 & Hf & H)|(e & Hf & ->)];
    apply lift_inv in Hf as (w1 & Hf & ->); cbn [world temp_dir] in *;
    pose proof (fetch_world env audio_url {| fs := files; trace := [] |}) as Hw;
    rewrite Hf in Hw; cbn [snd] in Hw; subst w1; [|constructor].
  match type of H with try_except ?body ?h ?s = _ =>
    assert (forall r0 f0, body s = (r0, f0) ->
              request_shape env files r0 (trace (world f0))) as Hbody end.
  { intros r0 f0 Hb.
    apply bind_inv in Hb as [(n & f2 & Hs & Hb)|(e & Hs & ->)];
      apply lift_inv in Hs as (w2 & Hs & ->); cbn [world temp_dir] in *;
      apply save_run in Hs as [(n' & Hn & Htr & Hfs)|((e' & He') & Htr)];
      try discriminate; cbn [fs trace] in *.
    - inversion Hn; subst n'. eapply process_download_run; [| |exact Hb].
      + exact Htr.
      + cbn [world]. rewrite Hfs. intros d Hd.
        apply lookup_insert_None in Hd. tauto.
    - cbn. rewrite Htr. constructor. }
  apply try_except_inv in H as [(a & H & ->)|(e & s1 & H & Hh)].
  - now apply Hbody.
  - apply Hbody in H.
    destruct (isinstance_IOError e) eqn:Hio; inversion Hh; subst; [|exact H].
    eapply request_shape_reraise; [exact H|].
    destruct e; [discriminate|]. discriminate.
Qed.

(** Every request has one of the five shapes. *)
Lemma request_run env audio_url files r f :
  request env audio_url files = (r, f) ->
  request_shape env files r (trace (world f)).
Proof.
  unfold request, transcribe_podcast. intros H.
  destruct (negb (truthy_str (OPENAI_API_KEY env))); [inversion H; subst; constructor|].
  unfold bind, set_temp_dir, modify in H. cbn [world temp_dir] in H.
  apply try_except_inv in H as [(a & H & ->)|(e & s1 & H & Hh)].
  - now apply transcribe_try_run in H.
  - apply transcribe_try_run in H.
    pose proof (moves_cleanup_trace env s1) as Hs.
    destruct (cleanup_returns env s1) as (s2 & Hc).
    rewrite Hc in Hs. unfold on_world, same_trace in Hs. cbn [snd] in Hs.
    destruct (isinstance_HTTPException e) eqn:Hhttp;
      unfold bind in Hh; rewrite Hc in Hh; inversion Hh; subst; rewrite Hs.
    + exact H.
    + eapply request_shape_reraise; [exact H|]. rewrite Hhttp. discriminate.
Qed.

(** *** Reading a shape *)

Lemma transcribe_calls_app (t1 t2 : list event) :
  transcribe_calls (t1 ++ t2) = (transcribe_calls t1 ++ transcribe_calls t2)%list.
Proof. apply omap_app. Qed.

Lemma transcribe_calls_split (evs : list event) :
  Forall is_split_event evs -> transcribe_calls evs = [].
Proof.
  induction 1 as [|ev evs Hev _ IH]; [reflexivity|].
  destruct ev; try contradiction; exact IH.
Qed.

Lemma transcribe_calls_transcribing (called : list string) :
  transcribe_calls (EvTranscribing <$> called) = called.
Proof.
  induction called as [|p rest IH]; [reflexivity|]. cbn.
  unfold transcribe_calls in IH. now rewrite IH.
Qed.

Lemma chunked_tail_calls env d r tail :
  chunked_outcome env d r tail ->
  (tail = [] \/ exists k called, tail = EvSplitInto k :: (EvTranscribing <$> called)).
Proof.
  intros [(-> & _)|(cf & called & w1 & w2 & _ & _ & _ & -> & _)]; eauto.
Qed.

(** The events after the announcement of the temporary directory. *)
Lemma chunked_events env d r split_events tail ev :
  Forall is_split_event split_events ->
  chunked_outcome env d r tail ->
  ev ∈ (split_events ++ tail)%list ->
  is_split_event ev \/ (exists k, ev = EvSplitInto k) \/ (exists p, ev = EvTranscribing p).
Proof.
  intros Hall Hout Hin. apply elem_of_app in Hin as [Hin|Hin].
  - left. rewrite Forall_forall in Hall. now apply Hall.
  - right. apply chunked_tail_calls in Hout as [->|(k & called & ->)].
    + inversion Hin.
    + apply elem_of_cons in Hin as [->|Hin]; [eauto|].
      apply list_elem_of_fmap in Hin as (p & -> & _). eauto.
Qed.

Lemma str_join_cons (sep s s' : string) (rest : list string) :
  str_join sep (s :: s' :: rest) = s ++ sep ++ str_join sep (s' :: rest).
Proof. reflexivity. Qed.

Lemma segments_from_length env w chunk_files :
  forall segments, segments_from env w chunk_files segments ->
    length segments = length chunk_files.
Proof.
  revert w. induction chunk_files as [|p rest IH]; intros w [|s segs] H;
    cbn in *; try contradiction; [reflexivity|].
  destruct H as [_ H]. f_equal. eapply IH, H.
Qed.

(** Not an event of the chunked path after its directory is announced. *)
Lemma chunked_events_not env d r split_events tail ev :
  Forall is_split_event split_events ->
  chunked_outcome env d r tail ->
  ev ∈ (split_events ++ tail)%list ->
  ev <> EvDirect /\ (forall p n, ev <> EvDownloaded p n) /\ (forall d', ev <> EvTempDir d').
Proof.
  intros Hall Hout Hin. eapply chunked_events in Hin; [|eassumption..].
  destruct Hin as [Hin|[(k & ->)|(p & ->)]];
    [destruct ev; try contradiction|..]; repeat split; intros; discriminate.
Qed.

Lemma shape_chunks env files transcript t d :
  request_shape env files (Ok transcript) t ->
  EvTempDir d ∈ t ->
  exists chunk_files segments w1 w2,
    split_audio_file env temp_audio_path d 300 20 w1 = (Ok chunk_files, w2)
    /\ transcribe_calls t = chunk_files
    /\ segments_from env
         {| fs := fs w2;
            trace := (trace w2 ++ [EvSplitInto (length chunk_files)])%list |}
         chunk_files segments
    /\ length segments = length chunk_files
    /\ transcript = str_join " " segments.
Proof.
  intros H Hd. inversion H; subst; clear H.
  - repeat (apply elem_of_cons in Hd as [Hd|Hd]; [discriminate|]). inversion Hd.
  - match goal with
    | Hall : Forall is_split_event ?se, Hout : chunked_outcome _ ?d0 _ ?tl |- _ =>
        rename Hall into Hse; rename Hout into Hco; rename d0 into dir;
        rename se into split_events; rename tl into tail
    end.
    repeat (apply elem_of_cons in Hd as [Hd|Hd]; [discriminate|]).
    apply elem_of_cons in Hd as [Hd|Hd].
    + inversion Hd; subst dir.
      destruct Hco as [(_ & e & He)|(cf & called & w1 & w2 & Hs & Hne & Hpre & -> & Hok)];
        [discriminate|].
      destruct (Hok transcript eq_refl) as (-> & segs & Hseg & ->).
      exists cf, segs, w1, w2. split; [exact Hs|]. split.
      * change (transcribe_calls (split_events ++ EvSplitInto (length cf)
                                    :: (EvTranscribing <$> cf))%list = cf).
        rewrite transcribe_calls_app, (transcribe_calls_split _ Hse).
        apply transcribe_calls_transcribing.
      * split; [exact Hseg|]. split; [|reflexivity].
        eapply segments_from_length, Hseg.
    + exfalso. eapply chunked_events_not in Hd; [|eassumption..].
      destruct Hd as (_ & _ & Hd). now apply (Hd d).
Qed.

(** C3.  A request that went through a temporary directory and succeeded
    handed the segment transcriber exactly the files the split returned, one
    call after the other in the order of the list, and returned the
    transcripts of those calls joined by single spaces, in the same order. *)
Theorem chunk_transcripts_joined_in_order env audio_url files transcript f d :
  request env audio_url files = (Ok transcript, f) ->
  EvTempDir d ∈ trace (world f) ->
  exists chunk_files segments w1 w2,
    split_audio_file env temp_audio_path d 300 20 w1 = (Ok chunk_files, w2)
    /\ (exists kept, StronglySorted lt kept /\ chunk_files = chunk_path d <$> kept)
    /\ transcribe_calls (trace (world f)) = chunk_files
    /\ segments_from env
         {| fs := fs w2;
            trace := (trace w2 ++ [EvSplitInto (length chunk_files)])%list |}
         chunk_files segments
    /\ length segments = length chunk_files
    /\ transcript = str_join " " segments.
Proof.
  intros H Hd. apply request_run in H.
  destruct (shape_chunks env files transcript _ d H Hd)
    as (chunk_files & segments & w1 & w2 & Hs & Hrest).
  exists chunk_files, segments, w1, w2. split; [exact Hs|].
  split; [eapply split_audio_file_sorted, Hs|exact Hrest].
Qed.

Lemma shape_size_check env files r t n :
  request_shape env files r t ->
  EvDownloaded temp_audio_path n ∈ t ->
  (SIZE_LIMIT < n ->
     (EvDirect ∉ t)
     /\ ((transcribe_calls t = [] /\ exists e, r = Raise e)
         \/ exists d chunk_files w1 w2,
              split_audio_file env temp_audio_path d 300 20 w1 = (Ok chunk_files, w2)
              /\ transcribe_calls t `prefix_of` chunk_files
              /\ forall transcript, r = Ok transcript -> transcribe_calls t = chunk_files))
  /\ (0 < n <= SIZE_LIMIT ->
        t = [EvDownloaded temp_audio_path n; EvDirect; EvTranscribing temp_audio_path]).
Proof.
  intros H Hdl. inversion H; subst; clear H.
  - inversion Hdl.
  - apply elem_of_cons in Hdl as [Hdl|Hdl]; [|inversion Hdl].
    inversion Hdl; subst n. unfold SIZE_LIMIT. split; intros; lia.
  - apply elem_of_cons in Hdl as [Hdl|Hdl];
      [|repeat (apply elem_of_cons in Hdl as [Hdl|Hdl]; [discriminate|]); inversion Hdl].
    inversion Hdl; subst. split; [lia|reflexivity].
  - apply elem_of_cons in Hdl as [Hdl|Hdl];
      [|repeat (apply elem_of_cons in Hdl as [Hdl|Hdl]; [discriminate|]); inversion Hdl].
    inversion Hdl; subst. split; [|lia]. intros _. split.
    + intros Hin. repeat (apply elem_of_cons in Hin as [Hin|Hin]; [discriminate|]).
      inversion Hin.
    + left. split; [reflexivity|eauto].
  - match goal with
    | Hall : Forall is_split_event ?se, Hout : chunked_outcome _ ?d0 _ ?tl |- _ =>
        rename Hall into Hse; rename Hout into Hco; rename d0 into dir;
        rename se into split_events; rename tl into tail
    end.
    apply elem_of_cons in Hdl as [Hdl|Hdl];
      [|repeat (apply elem_of_cons in Hdl as [Hdl|Hdl]; [discriminate|]);
        eapply chunked_events_not in Hdl; [|eassumption..];
        destruct Hdl as (_ & Hdl & _); now destruct (Hdl temp_audio_path n)].
    inversion Hdl; subst. split; [|lia]. intros _. split.
    + intros Hin. repeat (apply elem_of_cons in Hin as [Hin|Hin]; [discriminate|]).
      eapply chunked_events_not in Hin; [|eassumption..]. tauto.
    + match goal with |- context [transcribe_calls (?a :: ?b :: ?c :: ?l)] =>
        change (transcribe_calls (a :: b :: c :: l)) with (transcribe_calls l) end.
      rewrite transcribe_calls_app, (transcribe_calls_split _ Hse). cbn [app].
      destruct Hco as [(-> & e & ->)|(cf & called & w1 & w2 & Hs & Hne & Hpre & -> & Hok)].
      * left. split; [reflexivity|eauto].
      * right. exists dir, cf, w1, w2. split; [exact Hs|].
        change (transcribe_calls (EvSplitInto (length cf) :: (EvTranscribing <$> called)))
          with (transcribe_calls (EvTranscribing <$> called)).
        rewrite transcribe_calls_transcribing. split; [exact Hpre|].
        intros tr Hrt. now destruct (Hok tr Hrt).
Qed.

(** C5 (as the code has it).  A request whose download measures [n] bytes
    takes the chunked path exactly when [n] is over 25 MB: then it never
    transcribes the whole file, the files it transcribes are the first files
    of the list the split returned, and all of them when it succeeds.  At
    25 MB and below (and above zero) it makes one call, on the whole file. *)
Theorem size_check_is_strict env audio_url files r f n :
  request env audio_url files = (r, f) ->
  EvDownloaded temp_audio_path n ∈ trace (world f) ->
  (SIZE_LIMIT < n ->
     (EvDirect ∉ trace (world f))
     /\ ((transcribe_calls (trace (world f)) = [] /\ exists e, r = Raise e)
         \/ exists d chunk_files w1 w2,
              split_audio_file env temp_audio_path d 300 20 w1 = (Ok chunk_files, w2)
              /\ transcribe_calls (trace (world f)) `prefix_of` chunk_files
              /\ forall transcript, r = Ok transcript ->
                   transcribe_calls (trace (world f)) = chunk_files))
  /\ (0 < n <= SIZE_LIMIT ->
        trace (world f)
        = [EvDownloaded temp_audio_path n; EvDirect; EvTranscribing temp_audio_path]).
Proof.
  intros H Hdl. apply request_run in H. eapply shape_size_check; eassumption.
Qed.

Lemma shape_downloads env files r t :
  request_shape env files r t ->
  (forall path n, EvDownloaded path n ∈ t ->
     path = temp_audio_path
     /\ (n = 0 -> r = Raise (HTTPException 500 "Downloaded audio file is empty")))
  /\ (forall d, EvTempDir d ∈ t -> files !! d = None).
Proof.
  intros H. inversion H; subst; clear H; split; intros x; intros;
    repeat match goal with
           | Hin : _ ∈ [] |- _ => inversion Hin
           | Hin : _ ∈ _ :: _ |- _ =>
               apply elem_of_cons in Hin as [Hin|Hin];
               [inversion Hin; subst;
                try (split; [reflexivity|intros ?; subst;
                                         unfold SIZE_LIMIT in *; first [reflexivity|lia]]);
                try assumption|]
           end;
    try (exfalso;
         match goal with Hin : ?ev ∈ (_ ++ _)%list |- _ =>
           eapply chunked_events_not in Hin; [|eassumption..];
           destruct Hin as (_ & Hin1 & Hin2);
           first [now eapply Hin1 | now eapply Hin2] end).
Qed.

(** C6 (as the code has it).  A request whose download measures zero bytes
    fails with status 500 and the detail "Downloaded audio file is empty". *)
Theorem empty_download_fails_with_500 env audio_url files r f :
  request env audio_url files = (r, f) ->
  EvDownloaded temp_audio_path 0 ∈ trace (world f) ->
  r = Raise (HTTPException 500 "Downloaded audio file is empty").
Proof.
  intros H Hdl. apply request_run, shape_downloads in H as [H _].
  now apply (H _ _ Hdl).
Qed.

(** *** Where a request stores its download *)

Lemma Forall_any (l : list event) : Forall (fun _ => True) l.
Proof. apply Forall_forall. now intros. Qed.

Lemma moves_process_download_grows env n :
  moves (on_world (grows (fun _ => True))) (process_download env n).
Proof.
  unfold process_download. destruct (n =? 0); [apply moves_raise; apply _|].
  destruct (n >? SIZE_LIMIT).
  - apply moves_bind; [apply _|now apply moves_lift, moves_print_grows|intros _].
    apply moves_bind; [apply _| |intros d].
    { apply moves_lift, moves_same_trace_grows, moves_tempfile_mkdtemp_trace. }
    apply moves_bind; [apply _|apply moves_set_temp_dir; apply _|intros _].
    apply moves_bind; [apply _|now apply moves_lift, moves_print_grows|intros _].
    intros f. destruct (transcribe_in_chunks env d f) as [r f'] eqn:E. cbn [snd].
    apply transcribe_in_chunks_run in E as (split_events & tail & Htr & _).
    exists (split_events ++ tail)%list. split; [exact Htr|apply Forall_any].
  - apply moves_bind; [apply _|now apply moves_lift, moves_print_grows|intros _].
    apply moves_bind; [apply _| |intros transcript_text].
    { apply moves_lift. intros w. rewrite transcribe_audio_chunk_world.
      exists [EvTranscribing temp_audio_path]. split; [reflexivity|apply Forall_any]. }
    apply moves_bind; [apply _| |intros _; apply moves_ret; apply _].
    apply moves_lift, moves_same_trace_grows, moves_remove_audio_trace.
Qed.

(** A request that printed anything has received a response and written
    its body to [temp_audio.mp3], in the file system it started on. *)
Lemma request_saved env audio_url files r f :
  request env audio_url files = (r, f) ->
  trace (world f) = []
  \/ exists resp n w1 rest,
       requests_get env {| fs := files; trace := [] |} audio_url = Ok resp
       /\ save env resp {| fs := files; trace := [] |} = (Ok n, w1)
       /\ fs w1 = <[temp_audio_path := File (audio_body resp)]> files
       /\ trace (world f) = EvDownloaded temp_audio_path n :: rest.
Proof.
  intros H.
  assert (forall r' f',
            transcribe_try env audio_url
              {| world := {| fs := files; trace := [] |}; temp_dir := None |} = (r', f') ->
            trace (world f') = []
            \/ exists resp n w1 rest,
                 requests_get env {| fs := files; trace := [] |} audio_url = Ok resp
                 /\ save env resp {| fs := files; trace := [] |} = (Ok n, w1)
                 /\ fs w1 = <[temp_audio_path := File (audio_body resp)]> files
                 /\ trace (world f') = EvDownloaded temp_audio_path n :: rest) as Htry.
  { intros r' f' Ht. unfold transcribe_try in Ht.
    apply bind_inv in Ht as [(resp & f1 & Hf & Ht)|(e & Hf & ->)];
      apply lift_inv in Hf as (w1 & Hf & ->); cbn [world temp_dir] in *;
      pose proof (fetch_world env audio_url {| fs := files; trace := [] |}) as Hw;
      rewrite Hf in Hw; cbn [snd] in Hw; subst w1; [|now left].
    apply fetch_ok in Hf as (Hget & _).
    match type of Ht with try_except ?body ?h ?s = _ =>
      assert (exists r0, body s = (r0, f')) as (r0 & Hb) end.
    { apply try_except_inv in Ht as [(a & Ht & ->)|(e & s1 & Ht & Hh)]; [eauto|].
      destruct (isinstance_IOError e); inversion Hh; subst; eauto. }
    clear Ht.
    apply bind_inv in Hb as [(n & f2 & Hs & Hb)|(e & Hs & ->)];
      apply lift_inv in Hs as (w2 & Hs & ->); cbn [world temp_dir] in *.
    - pose proof Hs as Hrun.
      apply save_run in Hs as [(n' & Hn & Htr & Hfs)|((e' & He') & _)]; [|discriminate].
      inversion Hn; subst n'. cbn [fs trace] in *.
      pose proof (moves_process_download_grows env n
                    {| world := w2; temp_dir := None |}) as (evs & Hgrow & _).
      rewrite Hb in Hgrow. cbn [snd world] in Hgrow. rewrite Htr in Hgrow.
      right. exists resp, n, w2, evs. auto.
    - apply save_run in Hs as [(n' & Hn & _)|(_ & Htr)]; [discriminate|].
      left. exact Htr. }
  unfold request, transcribe_podcast in H.
  destruct (negb (truthy_str (OPENAI_API_KEY env))); [inversion H; subst; now left|].
  unfold bind, set_temp_dir, modify in H. cbn [world temp_dir] in H.
  apply try_except_inv in H as [(a & H & ->)|(e & s1 & H & Hh)]; [now apply Htry in H|].
  apply Htry in H.
  pose proof (moves_cleanup_trace env s1) as Hs.
  destruct (cleanup_returns env s1) as (s2 & Hc).
  rewrite Hc in Hs. unfold on_world, same_trace in Hs. cbn [snd] in Hs.
  destruct (isinstance_HTTPException e);
    unfold bind in Hh; rewrite Hc in Hh; inversion Hh; subst; rewrite Hs; exact H.
Qed.

(** The download is announced once, before anything else. *)
Lemma shape_download_first env files r t path n :
  request_shape env files r t ->
  EvDownloaded path n ∈ t -> exists rest, t = EvDownloaded path n :: rest.
Proof.
  intros H Hin. inversion H; subst; clear H;
    repeat match goal with
           | Hin : _ ∈ [] |- _ => inversion Hin
           | Hin : _ ∈ _ :: _ |- _ =>
               apply elem_of_cons in Hin as [Hin|Hin];
               [inversion Hin; subst; eauto|]
           end;
    try (exfalso;
         match goal with Hin : ?ev ∈ (_ ++ _)%list |- _ =>
           eapply chunked_events_not in Hin; [|eassumption..];
           destruct Hin as (_ & Hin1 & _); now eapply Hin1 end).
Qed.

(** C8 (as the code has it).  Every request stores its download at the same
    path: a request that announces a download has written the body of the
    response it received to [temp_audio.mp3], over whatever lay there in the
    file system it started on, and to no other path.  The temporary directory
    of a request did not exist when the request began, so it is none of the
    directories that were there. *)
Theorem audio_path_fixed_temp_dir_fresh env audio_url files r f :
  request env audio_url files = (r, f) ->
  (forall path n,
     EvDownloaded path n ∈ trace (world f) ->
     path = temp_audio_path
     /\ exists resp w1,
          requests_get env {| fs := files; trace := [] |} audio_url = Ok resp
          /\ save env resp {| fs := files; trace := [] |} = (Ok n, w1)
          /\ fs w1 = <[temp_audio_path := File (audio_body resp)]> files)
  /\ (forall d,
        EvTempDir d ∈ trace (world f) ->
        files !! d = None /\ forall d', is_Some (files !! d') -> d <> d').
Proof.
  intros H. split.
  - intros path n Hin.
    destruct (shape_download_first _ _ _ _ _ _ (request_run _ _ _ _ _ H) Hin)
      as (rest & Ht).
    destruct (request_saved _ _ _ _ _ H)
      as [Hnil|(resp & n0 & w1 & rest0 & Hget & Hsave & Hfs & Ht0)].
    + rewrite Hnil in Ht. discriminate.
    + rewrite Ht0 in Ht. inversion Ht; subst. split; [reflexivity|].
      exists resp, w1. auto.
  - intros d Hin. apply request_run, shape_downloads in H as [_ H2].
    specialize (H2 d Hin). split; [exact H2|].
    intros d' [x Hx] E. subst d'. congruence.
Qed.

(** *** Clean-up *)

Lemma moves_python_chunks_dirs d env input_file chunk_size indices :
  forall pos chunk_files,
    moves (keeps_dirs d)
      (python_chunks env input_file d chunk_size indices pos chunk_files).
Proof.
  induction indices as [|i rest IH]; intros pos chunk_files; cbn [python_chunks].
  - apply moves_ret; apply _.
  - apply moves_bind; [apply _| |intros [f n]; apply IH].
    unfold python_chunk.
    apply moves_bind; [apply _|apply moves_file_read; apply _|intros data].
    apply moves_bind; [apply _|apply moves_write_file_dirs|intros _].
    apply moves_bind; [apply _|apply moves_os_path_getsize; apply _|intros _].
    apply moves_ret; apply _.
Qed.

Lemma moves_ffmpeg_chunks_dirs d env input_file t n indices :
  forall chunk_files,
    moves (keeps_dirs d) (ffmpeg_chunks env input_file d t n indices chunk_files).
Proof.
  induction indices as [|i rest IH]; intros chunk_files; cbn [ffmpeg_chunks].
  - apply moves_ret; apply _.
  - apply moves_bind; [apply _| |intros files; apply IH].
    intros w. rewrite ffmpeg_chunk_world. apply moves_run_ffmpeg_extract_dirs.
Qed.

Lemma moves_split_audio_file_dirs d env input_file t max_size_mb :
  moves (keeps_dirs d) (split_audio_file env input_file d t max_size_mb).
Proof.
  unfold split_audio_file, check_ffmpeg_installed.
  apply moves_bind; [apply _|apply moves_gets; apply _|intros installed].
  destruct installed; cbn [negb].
  - apply moves_bind; [apply _|apply moves_os_makedirs_dirs|intros _].
    apply moves_bind; [apply _|apply moves_audio_duration; apply _|intros dur].
    destruct (Qis_zero t); [apply moves_raise; apply _|].
    apply moves_bind; [apply _|apply moves_print_keeps_dirs|intros _].
    apply moves_ffmpeg_chunks_dirs.
  - unfold split_audio_file_python.
    apply moves_bind; [apply _|apply moves_print_keeps_dirs|intros _].
    apply moves_bind; [apply _|apply moves_os_makedirs_dirs|intros _].
    apply moves_bind; [apply _|apply moves_os_path_getsize; apply _|intros size].
    destruct (_ =? 0); [apply moves_raise; apply _|].
    apply moves_bind; [apply _|apply moves_open_rb; apply _|intros _].
    apply moves_python_chunks_dirs.
Qed.

Lemma split_audio_file_harmless d env input_file t max_size_mb w :
  harmless d w (split_audio_file env input_file d t max_size_mb w).2.
Proof.
  split; [apply moves_split_audio_file_dirs|].
  eapply moves_grows_weaken; [|apply split_audio_file_grows].
  intros ev Hev d'. destruct ev; try contradiction; discriminate.
Qed.

Lemma transcribe_chunks_harmless d env chunk_files transcripts w :
  harmless d w (transcribe_chunks env chunk_files transcripts w).2.
Proof.
  destruct (transcribe_chunks env chunk_files transcripts w) as [r w'] eqn:E.
  apply transcribe_chunks_run in E as (Hfs & called & _ & Htr & _). cbn [snd]. split.
  - apply keeps_dirs_same_dirs. intros p. now rewrite Hfs.
  - exists (EvTranscribing <$> called). split; [exact Htr|].
    rewrite Forall_forall. intros ev Hev d'.
    apply list_elem_of_fmap in Hev as (p & -> & _). discriminate.
Qed.

Lemma working_harmless d f w' :
  working d f -> harmless d (world f) w' ->
  working d {| world := w'; temp_dir := temp_dir f |}.
Proof.
  intros (Htd & Hne & Hdir & Haudio & Hev) (Hkeep & (evs & Htr & Hall)).
  specialize (Hkeep Hdir).
  unfold working. cbn [world temp_dir]. split; [exact Htd|]. split; [exact Hne|].
  split; [now apply Hkeep|]. split.
  - intros H. apply Haudio. now apply Hkeep.
  - intros d' Hin. rewrite Htr in Hin. apply elem_of_app in Hin as [Hin|Hin].
    + now apply Hev.
    + rewrite Forall_forall in Hall. now destruct (Hall _ Hin d').
Qed.

Lemma working_tidy d f : working d f -> tidy f.
Proof.
  intros (Htd & Hne & Hdir & Haudio & Hev). unfold tidy. rewrite Htd. auto.
Qed.

Lemma downloaded_tidy f : downloaded f -> tidy f.
Proof.
  intros (Htd & (c & Hc) & Hev). unfold tidy. rewrite Htd, Hc. split; [discriminate|auto].
Qed.

Lemma remove_audio_runs env w :
  deletions_succeed env ->
  fs w !! temp_audio_path <> Some Dir ->
  exists w',
    remove_audio env w = (Ok tt, w')
    /\ trace w' = trace w
    /\ fs w' !! temp_audio_path = None
    /\ forall p, p <> temp_audio_path -> fs w' !! p = fs w !! p.
Proof.
  intros Hdel Hnd. unfold remove_audio, bind, os_path_exists, gets. cbn [fst snd].
  case_bool_decide as Hex.
  - unfold os_remove, bind, fault. rewrite (proj1 (Hdel w temp_audio_path)).
    destruct (fs w !! temp_audio_path) as [[c|]|] eqn:E; [|congruence|now destruct Hex].
    eexists. split; [reflexivity|]. cbn. split; [reflexivity|].
    split; [apply lookup_delete_eq|]. intros p Hp. now rewrite lookup_delete_ne.
  - exists w. split; [reflexivity|]. split; [reflexivity|]. split; [|reflexivity].
    destruct (fs w !! temp_audio_path) eqn:E; [|reflexivity]. exfalso. apply Hex. eauto.
Qed.

Lemma shutil_rmtree_runs env d w :
  deletions_succeed env ->
  fs w !! d = Some Dir ->
  exists w',
    shutil_rmtree env d w = (Ok tt, w')
    /\ trace w' = trace w
    /\ fs w' !! d = None
    /\ forall p, fs w !! p = None -> fs w' !! p = None.
Proof.
  intros Hdel Hd. unfold shutil_rmtree, bind, fault. rewrite (proj2 (Hdel w d)), Hd.
  eexists. split; [reflexivity|]. cbn. split; [reflexivity|].
  split; [apply lookup_delete_eq|]. intros p Hp.
  apply lookup_delete_None. right. apply map_lookup_filter_None. now left.
Qed.

Lemma temp_dir_there_working d f :
  working d f -> temp_dir_there f = (Ok (Some d), f).
Proof.
  intros (Htd & Hne & Hdir & _). unfold temp_dir_there, bind, gets. rewrite Htd.
  cbn [fst snd]. replace (String.eqb d "") with false
    by (symmetry; now apply String.eqb_neq).
  unfold lift, os_path_exists, gets. cbn [fst snd]. rewrite Hdir.
  rewrite bool_decide_eq_true_2 by eauto. destruct f; cbn in *. now rewrite Htd.
Qed.

Lemma finish_chunks_runs env full_transcript d f :
  deletions_succeed env ->
  working d f ->
  exists f', finish_chunks env full_transcript f = (Ok full_transcript, f') /\ clean f'.
Proof.
  intros Hdel Hw. pose proof Hw as (Htd & Hne & Hdir & Haudio & Hev).
  unfold finish_chunks. unfold bind at 1. unfold lift at 1.
  destruct (remove_audio_runs env (world f) Hdel Haudio) as (w1 & -> & Htr1 & Hgone & Hsame).
  set (f1 := {| world := w1; temp_dir := temp_dir f |}).
  assert (d <> temp_audio_path) as Hdt by (intros ->; congruence).
  assert (working d f1) as Hw1.
  { unfold working, f1. cbn [world temp_dir]. rewrite Htr1, Hgone, (Hsame d Hdt). auto. }
  unfold bind at 1. rewrite (temp_dir_there_working d f1 Hw1).
  unfold bind at 1. unfold lift at 1. cbn [world temp_dir f1].
  destruct (shutil_rmtree_runs env d w1 Hdel) as (w2 & -> & Htr2 & Hgone2 & Hnone).
  { rewrite (Hsame d Hdt). exact Hdir. }
  eexists. split; [reflexivity|]. unfold clean. cbn [world].
  split; [now apply Hnone|]. intros d' Hin. rewrite Htr2, Htr1 in Hin.
  now rewrite (Hev d' Hin).
Qed.

Lemma cleanup_runs env f :
  deletions_succeed env -> tidy f -> clean (cleanup env f).2.
Proof.
  intros Hdel (Haudio & Htd). unfold cleanup. unfold bind at 1. unfold bind at 1.
  unfold lift at 1, os_path_exists, gets. cbn [fst snd].
  assert (exists w1,
            (if bool_decide (is_Some (fs (world f) !! temp_audio_path))
             then try_except (lift (os_remove env temp_audio_path)) (fun _ => ret tt)
             else ret tt) {| world := world f; temp_dir := temp_dir f |}
            = (Ok tt, {| world := w1; temp_dir := temp_dir f |})
            /\ trace w1 = trace (world f)
            /\ fs w1 !! temp_audio_path = None
            /\ forall p, p <> temp_audio_path -> fs w1 !! p = fs (world f) !! p)
    as (w1 & -> & Htr1 & Hgone & Hsame).
  { destruct (remove_audio_runs env (world f) Hdel Haudio) as (w1 & Hrun & Hrest).
    exists w1. split; [|exact Hrest].
    unfold remove_audio, bind, os_path_exists, gets in Hrun. cbn [fst snd] in Hrun.
    destruct (bool_decide _).
    - unfold try_except, lift. cbn [world temp_dir]. now rewrite Hrun.
    - inversion Hrun; subst. reflexivity. }
  unfold try_except, remove_temp_dir.
  destruct (temp_dir f) as [d|] eqn:Ed.
  - destruct Htd as (Hne & Hdir & Hev).
    assert (d <> temp_audio_path) as Hdt by (intros ->; congruence).
    assert (working d {| world := w1; temp_dir := Some d |}) as Hw1.
    { unfold working. cbn [world temp_dir]. rewrite Htr1, Hgone, (Hsame d Hdt). auto. }
    unfold bind. rewrite (temp_dir_there_working d _ Hw1).
    unfold lift. cbn [world temp_dir].
    destruct (shutil_rmtree_runs env d w1 Hdel) as (w2 & -> & Htr2 & Hgone2 & Hnone).
    { rewrite (Hsame d Hdt). exact Hdir. }
    cbn [snd]. unfold clean. cbn [world]. split; [now apply Hnone|].
    intros d' Hin. rewrite Htr2, Htr1 in Hin. now rewrite (Hev d' Hin).
  - unfold bind, temp_dir_there, bind, gets. cbn [fst snd temp_dir].
    cbn. unfold clean. cbn [world]. split; [exact Hgone|].
    intros d' Hin. rewrite Htr1 in Hin. now destruct (Htd d').
Qed.

Lemma tempfile_mkdtemp_raise env pre w e w' :
  tempfile_mkdtemp env pre w = (Raise e, w') -> w' = w.
Proof.
  unfold tempfile_mkdtemp, bind, fault.
  destruct (io_fault env w OpMkdtemp); [intros H; now inversion H|].
  destruct (first_free _ _ _ _); intros H; now inversion H.
Qed.

Lemma transcribe_in_chunks_tidy env d f r f' :
  deletions_succeed env ->
  working d f ->
  transcribe_in_chunks env d f = (r, f') ->
  match r with Ok _ => clean f' | Raise _ => tidy f' end.
Proof.
  intros Hdel Hw H. unfold transcribe_in_chunks in H.
  match type of H with try_except ?body _ _ = _ =>
    assert (forall r0 f0, body f = (r0, f0) ->
              match r0 with Ok _ => clean f0 | Raise _ => tidy f0 end) as Hbody end.
  { intros r0 f0 Hb.
    pose proof (split_audio_file_harmless d env temp_audio_path 300 20 (world f)) as Hsplit.
    apply bind_inv in Hb as [(chunk_files & f1 & Hs & Hb)|(e & Hs & ->)];
      apply lift_inv in Hs as (w1 & Hs & ->); rewrite Hs in Hsplit; cbn [snd] in Hsplit;
      pose proof (working_harmless d f w1 Hw Hsplit) as Hw1;
      [|now apply working_tidy in Hw1].
    destruct chunk_files as [|p rest].
    { inversion Hb; subst. now apply working_tidy in Hw1. }
    apply bind_inv in Hb as [([] & f2 & Hp & Hb)|(e & Hp & ->)]; [|discriminate].
    inversion Hp; subst f2. clear Hp. cbn [world temp_dir] in Hb.
    assert (working d
              {| world := {| fs := fs w1;
                             trace := (trace w1 ++ [EvSplitInto (length (p :: rest))])%list |};
                 temp_dir := temp_dir f |}) as Hw2.
    { apply (working_harmless d {| world := w1; temp_dir := temp_dir f |}); [exact Hw1|].
      cbn [world]. split; [apply moves_print_keeps_dirs|].
      apply moves_print_grows. discriminate. }
    apply bind_inv in Hb as [(ts & f3 & Ht & Hb)|(e & Ht & ->)];
      apply lift_inv in Ht as (w3 & Ht & ->);
      match type of Ht with transcribe_chunks ?e ?cf ?acc ?w = _ =>
        pose proof (transcribe_chunks_harmless d e cf acc w) as Htc end;
      rewrite Ht in Htc; cbn [snd] in Htc;
      pose proof (working_harmless d _ w3 Hw2 Htc) as Hw3; cbn [world temp_dir] in *;
      [|now apply working_tidy in Hw3].
    destruct (finish_chunks_runs env (str_join " " ts) d _ Hdel Hw3) as (f4 & Hfin & Hclean).
    rewrite Hfin in Hb. inversion Hb; subst. exact Hclean. }
  apply try_except_inv in H as [(a & H & ->)|(e & s1 & H & Hh)].
  - now apply Hbody in H.
  - apply Hbody in H. inversion Hh; subst. exact H.
Qed.

Lemma mkdtemp_name_not_empty dir name :
  os_path_join dir ("audio_chunks_" ++ name) <> "".
Proof.
  intros H. apply (f_equal String.length) in H.
  pose proof (os_path_join_length dir ("audio_chunks_" ++ name)) as L.
  rewrite H in L. rewrite (string_app_length "audio_chunks_") in L.
  cbn [String.length] in L. lia.
Qed.

Lemma process_download_tidy env n f r f' :
  deletions_succeed env ->
  downloaded f ->
  process_download env n f = (r, f') ->
  match r with Ok _ => clean f' | Raise _ => tidy f' end.
Proof.
  intros Hdel Hdl H. pose proof Hdl as (Htd & (c & Hc) & Hev).
  unfold process_download in H.
  destruct (n =? 0). { inversion H; subst. now apply downloaded_tidy. }
  destruct (n >? SIZE_LIMIT).
  - apply bind_inv in H as [([] & f1 & Hp & H)|(e & Hp & ->)]; [|discriminate].
    inversion Hp; subst f1. clear Hp. cbn [world temp_dir] in H.
    set (w1 := {| fs := fs (world f); trace := (trace (world f) ++ [EvTooLarge])%list |}) in *.
    assert (downloaded {| world := w1; temp_dir := temp_dir f |}) as Hdl1.
    { unfold downloaded. cbn [world temp_dir fs trace w1]. split; [exact Htd|].
      split; [eauto|]. intros d' Hin. apply elem_of_app in Hin as [Hin|Hin].
      - now apply (Hev d').
      - apply list_elem_of_singleton in Hin. discriminate. }
    apply bind_inv in H as [(d & f2 & Hm & H)|(e & Hm & ->)];
      apply lift_inv in Hm as (w2 & Hm & ->); cbn [world temp_dir] in *.
    + apply tempfile_mkdtemp_ok in Hm as (Hfresh & (name & Hname) & ->).
      apply bind_inv in H as [([] & f3 & Hs & H)|(e & Hs & ->)]; [|discriminate].
      inversion Hs; subst f3. clear Hs. cbn [world temp_dir] in H.
      apply bind_inv in H as [([] & f4 & Hp & H)|(e & Hp & ->)]; [|discriminate].
      inversion Hp; subst f4. clear Hp. cbn [world temp_dir fs trace] in H.
      eapply transcribe_in_chunks_tidy; [exact Hdel| |exact H].
      cbn [fs w1] in Hfresh.
      assert (d <> temp_audio_path) as Hdt by (intros ->; congruence).
      unfold working. cbn [world temp_dir fs trace w1].
      split; [reflexivity|]. split; [subst d; apply mkdtemp_name_not_empty|].
      split; [apply lookup_insert_eq|]. split.
      * rewrite lookup_insert_ne by exact Hdt. rewrite Hc. discriminate.
      * intros d' Hin. rewrite <- app_assoc in Hin.
        apply elem_of_app in Hin as [Hin|Hin]; [now destruct (Hev d')|].
        apply elem_of_cons in Hin as [Hin|Hin]; [discriminate|].
        apply list_elem_of_singleton in Hin. now inversion Hin.
    + apply tempfile_mkdtemp_raise in Hm. subst w2. now apply downloaded_tidy.
  - apply bind_inv in H as [([] & f1 & Hp & H)|(e & Hp & ->)]; [|discriminate].
    inversion Hp; subst f1. clear Hp. cbn [world temp_dir] in H.
    set (w1 := {| fs := fs (world f); trace := (trace (world f) ++ [EvDirect])%list |}) in *.
    pose proof (transcribe_audio_chunk_world env temp_audio_path w1) as Hw.
    assert (downloaded
              {| world := {| fs := fs w1;
                             trace := (trace w1 ++ [EvTranscribing temp_audio_path])%list |};
                 temp_dir := temp_dir f |}) as Hdl2.
    { unfold downloaded. cbn [world temp_dir fs trace w1]. split; [exact Htd|].
      split; [eauto|]. intros d' Hin. rewrite <- app_assoc in Hin.
      apply elem_of_app in Hin as [Hin|Hin]; [now apply (Hev d')|].
      apply elem_of_cons in Hin as [Hin|Hin]; [discriminate|].
      apply list_elem_of_singleton in Hin. discriminate. }
    apply bind_inv in H as [(t & f2 & Hc2 & H)|(e & Hc2 & ->)];
      apply lift_inv in Hc2 as (w2 & Hc2 & ->); cbn [world temp_dir] in Hc2;
      rewrite Hc2 in Hw; cbn [snd] in Hw;
      subst w2; [|now apply downloaded_tidy].
    destruct Hdl2 as (_ & (c2 & Hc2') & Hev2). cbn [world] in *.
    match type of H with bind (lift (remove_audio _)) _ ?s = _ =>
      destruct (remove_audio_runs env (world s) Hdel) as (w3 & Hrm & Htr3 & Hgone & _);
        [cbn [world]; rewrite Hc2'; discriminate|] end.
    unfold bind, lift in H. cbn [world temp_dir] in H, Hrm. rewrite Hrm in H.
    inversion H; subst. unfold clean. cbn [world]. split; [exact Hgone|].
    intros d' Hin. rewrite Htr3 in Hin. now destruct (Hev2 d').
Qed.

Lemma save_same_dirs env resp w p :
  fs (save env resp w).2 !! p = Some Dir <-> fs w !! p = Some Dir.
Proof.
  rewrite <- (write_file_same_dirs env temp_audio_path (audio_body resp) w p).
  unfold save, bind.
  destruct (write_file env temp_audio_path (audio_body resp) w) as [[[]|e] w1];
    cbn [snd]; [|reflexivity].
  destruct (audio_stream_error resp); [reflexivity|].
  pose proof (os_path_getsize_unchanged env temp_audio_path w1) as Hg.
  destruct (os_path_getsize env temp_audio_path w1) as [[n|e] w2]; cbn [snd] in *;
    subst w2; reflexivity.
Qed.

Lemma transcribe_try_tidy env audio_url files r f' :
  deletions_succeed env ->
  files !! temp_audio_path <> Some Dir ->
  transcribe_try env audio_url
    {| world := {| fs := files; trace := [] |}; temp_dir := None |} = (r, f') ->
  match r with Ok _ => clean f' | Raise _ => tidy f' end.
Proof.
  intros Hdel Hfiles H. unfold transcribe_try in H.
  assert (tidy {| world := {| fs := files; trace := [] |}; temp_dir := None |}) as Htidy0.
  { split; [exact Hfiles|]. cbn. intros d' Hin. inversion Hin. }
  apply bind_inv in H as [(resp & f1 & Hf & H)|(e & Hf & ->)];
    apply lift_inv in Hf as (w1 & Hf & ->); cbn [world temp_dir] in *;
    pose proof (fetch_world env audio_url {| fs := files; trace := [] |}) as Hw;
    rewrite Hf in Hw; cbn [snd] in Hw; subst w1; [|exact Htidy0].
  match type of H with try_except ?body ?h ?s = _ =>
    assert (forall r0 f0, body s = (r0, f0) ->
              match r0 with Ok _ => clean f0 | Raise _ => tidy f0 end) as Hbody end.
  { intros r0 f0 Hb.
    pose proof (save_same_dirs env resp {| fs := files; trace := [] |}
                  temp_audio_path) as Hother.
    apply bind_inv in Hb as [(n & f2 & Hs & Hb)|(e & Hs & ->)];
      apply lift_inv in Hs as (w2 & Hs & ->); cbn [world temp_dir] in *;
      rewrite Hs in Hother; cbn [snd fs] in Hother;
      apply save_run in Hs as [(n' & Hn & Htr & Hfs)|((e' & He') & Htr)];
      try discriminate; cbn [fs trace] in *.
    - eapply process_download_tidy; [exact Hdel| |exact Hb].
      unfold downloaded. cbn [world temp_dir]. split; [reflexivity|].
      split; [rewrite Hfs, lookup_insert_eq; eauto|].
      intros d' Hin. rewrite Htr in Hin.
      apply list_elem_of_singleton in Hin. discriminate.
    - unfold tidy. cbn [world temp_dir]. split.
      + intros Hd. apply Hfiles. now apply Hother.
      + intros d' Hin. rewrite Htr in Hin. inversion Hin. }
  apply try_except_inv in H as [(a & H & ->)|(e & s1 & H & Hh)].
  - now apply Hbody in H.
  - apply Hbody in H. destruct (isinstance_IOError e); inversion Hh; subst; exact H.
Qed.

(** C1 (as the code has it).  When the API key is configured and the system
    refuses no deletion, a request that finds no directory in the place of
    [temp_audio.mp3] leaves, however it ends, neither that file nor the
    temporary directory it created. *)
Theorem cleanup_on_every_exit_path env audio_url files :
  truthy_str (OPENAI_API_KEY env) = true ->
  deletions_succeed env ->
  files !! temp_audio_path <> Some Dir ->
  clean (request env audio_url files).2.
Proof.
  intros Hkey Hdel Hfiles. unfold request, transcribe_podcast. rewrite Hkey.
  cbn [negb]. unfold bind at 1. cbn [set_temp_dir modify world temp_dir].
  unfold try_except.
  destruct (transcribe_try env audio_url _) as [[t|e] f1] eqn:Htry;
    apply transcribe_try_tidy in Htry; try assumption.
  pose proof (cleanup_runs env f1 Hdel Htry) as Hclean.
  destruct (cleanup_returns env f1) as (f2 & Hc). rewrite Hc in Hclean.
  destruct (isinstance_HTTPException e); unfold bind; rewrite Hc; exact Hclean.
Qed.

(** *** What the endpoint can raise *)

Lemma raises_any {S A} (m : M S A) : raises (fun _ => True) m.
Proof. now intros s e s' _. Qed.

Lemma raises_lift {A} (P : exn -> Prop) (m : M World A) :
  raises P m -> raises P (lift m).
Proof. intros H f e f' Hl. apply lift_inv in Hl as (w' & Hm & _). eapply H, Hm. Qed.

Lemma library_error_allowed e : library_error e -> allowed e.
Proof. now intros (cls & msg & ->). Qed.

Lemma library_error_raised cls msg : library_error (Raised cls msg).
Proof. now exists cls, msg. Qed.

Lemma raises_fault env op : raises library_error (fault env op).
Proof.
  intros w e w' H. unfold fault in H.
  destruct (io_fault env w op); inversion H; subst. apply library_error_raised.
Qed.

(** A file-system call: the fault the system injects, then a look at the
    path. *)
Ltac raises_fs_call :=
  apply raises_bind; [apply raises_fault|];
  intros _ _ _ _ w e w' H;
  repeat match type of H with
         | context [match ?x with _ => _ end] => destruct x
         end;
  inversion H; subst; apply library_error_raised.

Lemma raises_os_path_getsize env path : raises library_error (os_path_getsize env path).
Proof. unfold os_path_getsize. raises_fs_call. Qed.

Lemma raises_write_file env path data : raises library_error (write_file env path data).
Proof. unfold write_file. raises_fs_call. Qed.

Lemma raises_open_rb env path : raises library_error (open_rb env path).
Proof. unfold open_rb. raises_fs_call. Qed.

Lemma raises_os_remove env path : raises library_error (os_remove env path).
Proof. unfold os_remove. raises_fs_call. Qed.

Lemma raises_tempfile_mkdtemp env pre : raises library_error (tempfile_mkdtemp env pre).
Proof. unfold tempfile_mkdtemp. raises_fs_call. Qed.

Lemma raises_remove_audio env : raises library_error (remove_audio env).
Proof.
  unfold remove_audio. apply raises_bind; [apply raises_gets|].
  intros _ there _ _. destruct there; [apply raises_os_remove|apply raises_ret].
Qed.

Lemma raises_transcribe_audio_chunk env chunk_file :
  plain_services env -> raises library_error (transcribe_audio_chunk env chunk_file).
Proof.
  intros (_ & _ & Hpost & Hjson). unfold transcribe_audio_chunk.
  apply raises_bind; [apply raises_modify|intros _ _ _ _].
  apply raises_try_except with (Q := library_error);
    [|intros e He; now apply raises_raise].
  apply raises_try_except with (Q := fun _ => True); [apply raises_any|intros _ _].
  apply raises_try_except with (Q := library_error);
    [|intros e He; now apply raises_raise].
  apply raises_bind; [apply raises_open_rb|intros _ _ _ _].
  apply raises_bind.
  - intros w e w' H. inversion H; subst. eapply Hpost; eassumption.
  - intros w resp w' H. inversion H; subst.
    destruct (post_status_code resp =? 200).
    + destruct (post_json_text resp) as [text|e] eqn:Ej; [apply raises_ret|].
      apply raises_raise. eapply Hjson; eassumption.
    + apply raises_raise, library_error_raised.
Qed.

Lemma raises_transcribe_in_chunks env d :
  raises library_error (transcribe_in_chunks env d).
Proof.
  unfold transcribe_in_chunks.
  apply raises_try_except with (Q := fun _ => True); [apply raises_any|].
  intros e _. apply raises_raise, library_error_raised.
Qed.

Lemma raises_process_download env file_size :
  plain_services env -> raises allowed (process_download env file_size).
Proof.
  intros Hplain. unfold process_download.
  destruct (file_size =? 0); [apply raises_raise; now right|].
  destruct (file_size >? SIZE_LIMIT).
  - apply raises_bind; [apply raises_lift, raises_modify|intros _ _ _ _].
    apply raises_bind.
    { apply raises_lift. eapply raises_weaken; [apply library_error_allowed|].
      apply raises_tempfile_mkdtemp. }
    intros _ d _ _.
    apply raises_bind; [apply raises_modify|intros _ _ _ _].
    apply raises_bind; [apply raises_lift, raises_modify|intros _ _ _ _].
    eapply raises_weaken; [apply library_error_allowed|].
    apply raises_transcribe_in_chunks.
  - apply raises_bind; [apply raises_lift, raises_modify|intros _ _ _ _].
    apply raises_bind.
    { apply raises_lift. eapply raises_weaken; [apply library_error_allowed|].
      now apply raises_transcribe_audio_chunk. }
    intros _ transcript_text _ _.
    apply raises_bind; [|intros _ _ _ _; apply raises_ret].
    apply raises_lift. eapply raises_weaken; [apply library_error_allowed|].
    apply raises_remove_audio.
Qed.

Lemma raises_fetch env audio_url :
  plain_services env -> raises allowed (fetch env audio_url).
Proof.
  intros (Hget & Hresp & _). unfold fetch.
  apply raises_try_except with (Q := library_error).
  - apply raises_bind.
    + intros w e w' H. inversion H; subst. eapply Hget; eassumption.
    + intros w resp w' H. inversion H; subst.
      destruct (audio_raise_for_status resp) as [e|] eqn:Es; [|apply raises_ret].
      apply raises_raise. eapply Hresp; eauto.
  - intros e He. destruct (isinstance_RequestException e).
    + apply raises_raise. now left.
    + apply raises_raise. now apply library_error_allowed.
Qed.

Lemma raises_save env resp :
  (forall e, audio_stream_error resp = Some e -> library_error e) ->
  raises library_error (save env resp).
Proof.
  intros Hstream. unfold save.
  apply raises_bind; [apply raises_write_file|intros _ _ _ _].
  destruct (audio_stream_error resp) as [e|]; [apply raises_raise; eauto|].
  apply raises_bind; [apply raises_os_path_getsize|intros _ n _ _].
  apply raises_bind; [apply raises_modify|intros _ _ _ _; apply raises_ret].
Qed.

Lemma raises_transcribe_try env audio_url :
  plain_services env -> raises allowed (transcribe_try env audio_url).
Proof.
  intros Hplain. unfold transcribe_try.
  apply raises_bind; [now apply raises_lift, raises_fetch|].
  intros f resp f' Hfetch.
  apply lift_inv in Hfetch as (w' & Hfetch & _).
  apply fetch_ok in Hfetch as (Hget & _).
  apply raises_try_except with (Q := allowed).
  - apply raises_bind; [|intros _ n _ _; now apply raises_process_download].
    apply raises_lift. eapply raises_weaken; [apply library_error_allowed|].
    apply raises_save. intros e He.
    destruct Hplain as (_ & Hresp & _). eapply Hresp; eauto.
  - intros e He. destruct (isinstance_IOError e); apply raises_raise; [now right|exact He].
Qed.

Lemma classify_allowed e :
  exists detail,
    classify e = HTTPException 400 detail \/ classify e = HTTPException 500 detail.
Proof.
  unfold classify.
  destruct (_ || _); [eauto|]. destruct (str_contains "ffmpeg" _); eauto.
Qed.

(** X9.  A request that fails always fails with an [HTTPException]: no other
    exception leaves the endpoint.  When [requests.get] and [requests.post]
    raise errors of their library only, the status is 400 or 500. *)
Theorem request_fails_with_http_exception env audio_url files e f :
  request env audio_url files = (Raise e, f) ->
  exists status_code detail,
    e = HTTPException status_code detail
    /\ (plain_services env -> status_code = 400 \/ status_code = 500).
Proof.
  unfold request, transcribe_podcast.
  destruct (negb (truthy_str (OPENAI_API_KEY env))).
  { intros H. inversion H; subst. eexists _, _. split; [reflexivity|]. now right. }
  intros H.
  apply bind_inv in H as [([] & f0 & _ & H)|(e' & H & _)]; [|discriminate H].
  apply try_except_inv in H as [(a & _ & Hr)|(e0 & f1 & Htry & H)]; [discriminate|].
  destruct (isinstance_HTTPException e0) eqn:Ehttp.
  - destruct (cleanup_returns env f1) as (f2 & Hc).
    unfold bind in H. rewrite Hc in H. inversion H; subst.
    destruct e as [status_code detail|]; [|discriminate].
    exists status_code, detail. split; [reflexivity|].
    intros Hplain. exact (raises_transcribe_try env audio_url Hplain _ _ _ Htry).
  - destruct (cleanup_returns env f1) as (f2 & Hc).
    unfold bind in H. rewrite Hc in H. inversion H; subst.
    destruct (classify_allowed e0) as (detail & [->| ->]); eexists _, _;
      (split; [reflexivity|]); auto.
Qed.

(** *** The segment transcriber *)

Lemma open_rb_at env path w c :
  io_fault env w (OpOpenRead path) = None ->
  fs w !! path = Some (File c) ->
  open_rb env path w = (Ok tt, w).
Proof. intros Hnf Hc. unfold open_rb, bind, fault. now rewrite Hnf, Hc. Qed.

(** X10.  When the client library answers, [transcribe_audio_chunk] returns
    its text and the raw HTTP call is never made: the answer does not depend
    on what [requests.post] would do. *)
Theorem transcribe_audio_chunk_prefers_client env chunk_file w c text :
  fs w !! chunk_file = Some (File c) ->
  io_fault env (announced chunk_file w) (OpOpenRead chunk_file) = None ->
  whisper_client env (announced chunk_file w) chunk_file = Ok text ->
  transcribe_audio_chunk env chunk_file w = (Ok text, announced chunk_file w).
Proof.
  intros Hc Hnf Hclient. unfold transcribe_audio_chunk.
  unfold bind at 1. cbn [print modify]. fold (announced chunk_file w).
  unfold try_except, bind.
  rewrite (open_rb_at env chunk_file (announced chunk_file w) c Hnf Hc).
  now rewrite Hclient.
Qed.

(** X11.  When the client library fails, whatever its error, the raw HTTP
    call decides: status 200 gives the ["text"] member of the body, or the
    empty string when the body has none; any other status raises an
    [Exception] that quotes the status and the body. *)
Theorem transcribe_audio_chunk_falls_back env chunk_file w c e resp :
  fs w !! chunk_file = Some (File c) ->
  io_fault env (announced chunk_file w) (OpOpenRead chunk_file) = None ->
  whisper_client env (announced chunk_file w) chunk_file = Raise e ->
  requests_post env (announced chunk_file w) chunk_file = Ok resp ->
  transcribe_audio_chunk env chunk_file w
  = (if post_status_code resp =? 200 then
       match post_json_text resp with
       | Ok text => Ok (default "" text)
       | Raise e' => Raise e'
       end
     else
       Raise (Raised Exception
                ("API call failed: " ++ str_int (post_status_code resp)
                 ++ " - " ++ post_text resp)),
     announced chunk_file w).
Proof.
  intros Hc Hnf Hclient Hpost. unfold transcribe_audio_chunk.
  unfold bind at 1. cbn [print modify]. fold (announced chunk_file w).
  unfold try_except, bind.
  rewrite (open_rb_at env chunk_file (announced chunk_file w) c Hnf Hc).
  rewrite Hclient.
  rewrite (open_rb_at env chunk_file (announced chunk_file w) c Hnf Hc).
  rewrite Hpost.
  destruct (post_status_code resp =? 200); [|reflexivity].
  now destruct (post_json_text resp).
Qed.

(** X12.  A chunk file that is not there makes both attempts fail on
    [open]: [transcribe_audio_chunk] raises an [OSError], whatever the two
    services would have answered. *)
Theorem transcribe_audio_chunk_missing_file env chunk_file w :
  fs w !! chunk_file = None ->
  exists msg,
    transcribe_audio_chunk env chunk_file w
    = (Raise (Raised OSError msg), announced chunk_file w).
Proof.
  intros Hc. unfold transcribe_audio_chunk.
  unfold bind at 1. cbn [print modify]. fold (announced chunk_file w).
  assert (exists msg, open_rb env chunk_file (announced chunk_file w)
                      = (Raise (Raised OSError msg), announced chunk_file w))
    as (msg & Hopen).
  { unfold open_rb, bind, fault.
    destruct (io_fault env (announced chunk_file w) (OpOpenRead chunk_file)) as [msg|].
    - now exists msg.
    - cbn [fs announced]. rewrite Hc. eauto. }
  assert (exists msg', open_rb env chunk_file (announced chunk_file w)
                       = (Raise (Raised OSError msg'), announced chunk_file w))
    as (msg' & Hopen') by eauto.
  exists msg'. unfold try_except, bind. rewrite Hopen. now rewrite Hopen'.
Qed.

(** X13.  However it ends, [transcribe_audio_chunk] changes no file, and the
    one event it adds to the trace is the announcement of the chunk. *)
Theorem transcribe_audio_chunk_changes_no_file env chunk_file w :
  (transcribe_audio_chunk env chunk_file w).2 = announced chunk_file w.
Proof. apply transcribe_audio_chunk_world. Qed.

(** *** More on the split *)

#[local] Instance only_chunks_refl d : Reflexive (only_chunks d).
Proof. intros w p _. now left. Qed.
#[local] Instance only_chunks_trans d : Transitive (only_chunks d).
Proof.
  intros w1 w2 w3 H1 H2 p Hi.
  destruct (H1 p Hi) as [E1|(N1 & D1 & P1)], (H2 p Hi) as [E2|(N2 & D2 & P2)].
  - left. congruence.
  - right. rewrite <- E1. auto.
  - right. rewrite E2. auto.
  - congruence.
Qed.

Lemma moves_print_only_chunks d ev : moves (only_chunks d) (print ev).
Proof. intros w p _. now left. Qed.

Lemma moves_os_makedirs_only_chunks env d : moves (only_chunks d) (os_makedirs env d).
Proof.
  intros w p _. destruct (os_makedirs env d w) as [[[]|e] w'] eqn:E; cbn [snd].
  - now apply (os_makedirs_ok env d w tt w' E).
  - left. unfold os_makedirs, bind, fault in E.
    destruct (io_fault env w (OpMakedirs d)); [now inversion E|].
    destruct (String.eqb d ""); [now inversion E|].
    destruct (fs w !! d) as [[c|]|]; try now inversion E.
    destruct (existsb (is_file (fs w)) (parents d)); now inversion E.
Qed.

Lemma moves_write_chunk_only_chunks env d i data :
  moves (only_chunks d) (write_file env (chunk_path d i) data).
Proof.
  intros w p Hi. left. unfold write_file, bind, fault.
  destruct (io_fault env w (OpOpenWrite (chunk_path d i))); [reflexivity|].
  cbn [fst snd].
  destruct (fs w !! chunk_path d i) as [[c|]|]; cbn [snd fs]; try reflexivity;
    now rewrite lookup_insert_ne by (intros E; exact (Hi i (eq_sym E))).
Qed.

Lemma moves_python_chunks_only_chunks d env input_file chunk_size indices :
  forall pos chunk_files,
    moves (only_chunks d)
      (python_chunks env input_file d chunk_size indices pos chunk_files).
Proof.
  induction indices as [|i rest IH]; intros pos chunk_files; cbn [python_chunks].
  - apply moves_ret; apply _.
  - apply moves_bind; [apply _| |intros [f n]; apply IH].
    unfold python_chunk.
    apply moves_bind; [apply _|apply moves_file_read; apply _|intros data].
    apply moves_bind; [apply _|apply moves_write_chunk_only_chunks|intros _].
    apply moves_bind; [apply _|apply moves_os_path_getsize; apply _|intros _].
    apply moves_ret; apply _.
Qed.

Lemma moves_ffmpeg_chunks_only_chunks d env input_file t n indices :
  forall chunk_files,
    moves (only_chunks d) (ffmpeg_chunks env input_file d t n indices chunk_files).
Proof.
  induction indices as [|i rest IH]; intros chunk_files; cbn [ffmpeg_chunks].
  - apply moves_ret; apply _.
  - apply moves_bind; [apply _| |intros files; apply IH].
    intros w. rewrite ffmpeg_chunk_world.
    destruct (run_ffmpeg_extract_world env input_file (inject_Z (Z.of_nat i) * t)%Q t i
                (chunk_path d i) w) as (files & -> & _ & Hother).
    intros p Hi. left. cbn [fs]. apply Hother, Hi.
Qed.

(** X14.  Whichever strategy it takes and however it ends, the split changes
    no path but its chunk files, except that it may create its output
    directory and the directories above it: every path that was there and is
    no chunk file, the input file among them, is as it was (ffmpeg being
    taken to write the output file it is given and nothing else). *)
Theorem split_audio_file_touches_only_chunks env input_file output_dir
    chunk_duration_seconds max_size_mb w p :
  (forall i, p <> chunk_path output_dir i) ->
  fs (split_audio_file env input_file output_dir chunk_duration_seconds
        max_size_mb w).2 !! p
  = fs w !! p
  \/ (fs w !! p = None
      /\ fs (split_audio_file env input_file output_dir chunk_duration_seconds
               max_size_mb w).2 !! p
         = Some Dir
      /\ (p = output_dir \/ p ∈ parents output_dir)).
Proof.
  intros Hi.
  enough (moves (only_chunks output_dir)
            (split_audio_file env input_file output_dir chunk_duration_seconds
               max_size_mb)) as Hm by exact (Hm w p Hi).
  clear. unfold split_audio_file, check_ffmpeg_installed.
  apply moves_bind; [apply _|apply moves_gets; apply _|intros installed].
  destruct installed; cbn [negb].
  - apply moves_bind; [apply _|apply moves_os_makedirs_only_chunks|intros _].
    apply moves_bind; [apply _|apply moves_audio_duration; apply _|intros dur].
    destruct (Qis_zero chunk_duration_seconds); [apply moves_raise; apply _|].
    apply moves_bind; [apply _|apply moves_print_only_chunks|intros _].
    apply moves_ffmpeg_chunks_only_chunks.
  - unfold split_audio_file_python.
    apply moves_bind; [apply _|apply moves_print_only_chunks|intros _].
    apply moves_bind; [apply _|apply moves_os_makedirs_only_chunks|intros _].
    apply moves_bind; [apply _|apply moves_os_path_getsize; apply _|intros size].
    destruct (_ =? 0); [apply moves_raise; apply _|].
    apply moves_bind; [apply _|apply moves_open_rb; apply _|intros _].
    apply moves_python_chunks_only_chunks.
Qed.

(** X15.  The chunk files of one output directory have distinct names, for
    any number of chunks (the three-digit padding widens past 999). *)
Theorem chunk_paths_distinct (output_dir : string) (n : Z) :
  NoDup (chunk_path output_dir <$> range n).
Proof.
  apply NoDup_fmap_2.
  - intros i j. apply chunk_path_inj.
  - unfold range. apply NoDup_seq.
Qed.

Lemma Qis_zero_pos (t : Q) : (0 < t)%Q -> Qis_zero t = false.
Proof.
  intros H. unfold Qis_zero. apply Z.eqb_neq. unfold Qlt in H. cbn in H. lia.
Qed.



Lemma run_ffmpeg_extract_fails env input_file start_time duration i output_file w msg :
  (forall w1, ffmpeg_error
                (ffmpeg_extract env w1 input_file start_time duration output_file)
              = Some msg) ->
  exists files,
    run_ffmpeg_extract env input_file start_time duration i output_file w
    = (Raise (Raised SubprocessError msg),
       {| fs := files; trace := (trace w ++ [EvFfmpegExtract i output_file])%list |}).
Proof.
  intros Hfail. unfold run_ffmpeg_extract, bind, print, modify. cbv zeta.
  rewrite Hfail. cbn [trace]. eauto.
Qed.

(** X17.  When the extraction of a chunk that is not the last one fails, the
    split stops there: it raises an [Exception] that quotes the error of
    ffmpeg and launches no further extraction.  (The output directory is one
    that [os.makedirs] can make, or the split ends before any extraction.) *)
Theorem split_aborts_on_failed_chunk env input_file output_dir
    chunk_duration_seconds max_size_mb d msg w :
  ffmpeg_version env w = true ->
  (forall w1 op, io_fault env w1 op = None) ->
  creatable (fs w) output_dir ->
  (forall w1, ffmpeg_duration env w1 input_file = Ok d) ->
  (0 < chunk_duration_seconds)%Q -> (chunk_duration_seconds <= d)%Q ->
  (forall w1 start_time duration output_file,
     ffmpeg_error (ffmpeg_extract env w1 input_file start_time duration output_file)
     = Some msg) ->
  exists w',
    split_audio_file env input_file output_dir chunk_duration_seconds max_size_mb w
    = (Raise (Raised Exception ("Failed to split audio file: " ++ msg)), w')
    /\ extract_requests (trace w') = (extract_requests (trace w) ++ [0%nat])%list.
Proof.
  intros Hv Hnf (Hne & Hdir & Hup) Hd Ht Hle Hfail.
  assert (0 <= d)%Q as Hd0 by (eapply Qle_trans; [apply Qlt_le_weak, Ht|exact Hle]).
  assert (2 <= num_chunks_of d chunk_duration_seconds) as Hn.
  { rewrite num_chunks_of_floor by assumption.
    assert (1 <= d / chunk_duration_seconds)%Q as H1.
    { apply Qle_shift_div_l; [exact Ht|]. now rewrite Qmult_1_l. }
    apply Qfloor_resp_le in H1. change (Qfloor 1) with 1 in H1. lia. }
  unfold split_audio_file, check_ffmpeg_installed, gets.
  unfold bind at 1. rewrite Hv. cbn [negb].
  destruct (os_makedirs_runs env output_dir w Hnf Hne Hdir Hup) as (w1 & Hmk).
  pose proof (os_makedirs_ok _ _ _ _ _ Hmk) as (Htr1 & _).
  unfold bind at 1. rewrite Hmk.
  unfold bind at 1. unfold audio_duration, try_except. rewrite Hd.
  rewrite (Qis_zero_pos _ Ht).
  unfold bind at 1. cbn [print modify].
  unfold range.
  destruct (Z.to_nat (num_chunks_of d chunk_duration_seconds)) as [|m] eqn:Em; [lia|].
  cbn [seq ffmpeg_chunks].
  unfold bind at 1. unfold ffmpeg_chunk, try_except. cbv zeta. unfold bind at 1.
  match goal with
  | |- context [run_ffmpeg_extract ?e ?f ?s ?l ?k ?o ?v] =>
      destruct (run_ffmpeg_extract_fails e f s l k o v msg
                  (fun w1 => Hfail w1 s l o)) as (files & Hrun)
  end.
  rewrite Hrun. cbn [isinstance_SubprocessError str_exn].
  replace (Z.of_nat 0 <? num_chunks_of d chunk_duration_seconds - 1) with true
    by (symmetry; apply Z.ltb_lt; lia).
  eexists. split; [reflexivity|]. cbn [trace]. rewrite Htr1.
  unfold extract_requests. rewrite !omap_app. cbn [omap list_omap].
  now rewrite app_nil_r.
Qed.

(** *** How a request fails *)

Lemma os_remove_frame env path w :
  trace (os_remove env path w).2 = trace w
  /\ forall p, p <> path -> fs (os_remove env path w).2 !! p = fs w !! p.
Proof.
  unfold os_remove, bind, fault.
  destruct (io_fault env w (OpRemove path)); cbn [fst snd]; [auto|].
  destruct (fs w !! path) as [[c|]|]; cbn [snd fs trace]; split; auto.
  intros p Hp. now rewrite lookup_delete_ne.
Qed.

(** With no temporary directory to remove, the clean-up touches the
    downloaded file only. *)
Lemma cleanup_without_temp_dir env f :
  temp_dir f = None ->
  exists f',
    cleanup env f = (Ok tt, f')
    /\ trace (world f') = trace (world f)
    /\ forall p, p <> temp_audio_path -> fs (world f') !! p = fs (world f) !! p.
Proof.
  intros Hd. destruct f as [w d]. cbn [temp_dir world] in *. subst d.
  assert (forall w1, remove_temp_dir env {| world := w1; temp_dir := None |}
                     = (Ok tt, {| world := w1; temp_dir := None |})) as Hrm
    by reflexivity.
  unfold cleanup. unfold bind at 1. unfold bind at 1.
  unfold lift at 1, os_path_exists, gets. cbn [fst snd world temp_dir].
  match goal with |- context [bool_decide ?P] => destruct (bool_decide P) end.
  - unfold try_except, lift, ret. cbn [world temp_dir].
    destruct (os_remove_frame env temp_audio_path w) as (Ht & Hfs).
    destruct (os_remove env temp_audio_path w) as [[[]|e] w1]; cbn [snd] in *;
      rewrite Hrm; eexists; (split; [reflexivity|]); auto.
  - unfold ret, try_except. cbv beta iota. rewrite Hrm.
    eexists; (split; [reflexivity|]); auto.
Qed.

(** X18.  When the audio URL cannot be reached, or answers with an HTTP
    error, the request fails with status 400 and quotes the error.  Nothing
    was downloaded and the trace is empty; the clean-up still runs, so only a
    file that already lay at [temp_audio.mp3] can have changed. *)
Theorem inaccessible_url_answers_400 env audio_url files e r f :
  truthy_str (OPENAI_API_KEY env) = true ->
  requests_get env {| fs := files; trace := [] |} audio_url = Raise e
  \/ (exists resp,
        requests_get env {| fs := files; trace := [] |} audio_url = Ok resp
        /\ audio_raise_for_status resp = Some e) ->
  isinstance_RequestException e = true ->
  request env audio_url files = (r, f) ->
  r = Raise (HTTPException 400 ("Error accessing audio URL: " ++ str_exn e))
  /\ trace (world f) = []
  /\ forall p, p <> temp_audio_path -> fs (world f) !! p = files !! p.
Proof.
  intros Hkey Hget He. unfold request, transcribe_podcast. rewrite Hkey. cbn [negb].
  unfold bind at 1. cbn [set_temp_dir modify world].
  assert (fetch env audio_url {| fs := files; trace := [] |}
          = (Raise (HTTPException 400 ("Error accessing audio URL: " ++ str_exn e)),
             {| fs := files; trace := [] |})) as Hfetch.
  { unfold fetch, try_except, bind.
    destruct Hget as [->|(resp & -> & Hs)]; [|rewrite Hs]; unfold raise; now rewrite He. }
  unfold try_except, transcribe_try. unfold bind at 1. unfold lift at 1.
  cbn [world temp_dir]. rewrite Hfetch. cbn [isinstance_HTTPException].
  unfold bind.
  match goal with
  | |- context [cleanup env ?f0] =>
      destruct (cleanup_without_temp_dir env f0 eq_refl) as (f' & Hc & Ht & Hfs)
  end.
  rewrite Hc. unfold raise. intros H. inversion H; subst. auto.
Qed.

Lemma fetch_runs env audio_url w resp :
  requests_get env w audio_url = Ok resp ->
  audio_raise_for_status resp = None ->
  fetch env audio_url w = (Ok resp, w).
Proof. intros Hget Hs. unfold fetch, try_except, bind. now rewrite Hget, Hs. Qed.

(** X19.  When the downloaded bytes cannot be written to [temp_audio.mp3],
    the request fails with status 500 and the detail says that saving the
    audio file failed, quoting the error of the system. *)
Theorem unwritable_audio_file_answers_500 env audio_url files resp msg :
  truthy_str (OPENAI_API_KEY env) = true ->
  requests_get env {| fs := files; trace := [] |} audio_url = Ok resp ->
  audio_raise_for_status resp = None ->
  io_fault env {| fs := files; trace := [] |} (OpOpenWrite temp_audio_path) = Some msg ->
  (request env audio_url files).1
  = Raise (HTTPException 500 ("Error saving audio file: " ++ msg)).
Proof.
  intros Hkey Hget Hs Hfault. unfold request, transcribe_podcast. rewrite Hkey. cbn [negb].
  unfold bind at 1. cbn [set_temp_dir modify world].
  unfold try_except at 1, transcribe_try. unfold bind at 1. unfold lift at 1.
  cbn [world temp_dir]. rewrite (fetch_runs _ _ _ _ Hget Hs).
  unfold try_except at 1. unfold bind at 1. unfold lift at 1. cbn [world temp_dir].
  unfold save. unfold bind at 1. unfold write_file. unfold bind at 1. unfold fault.
  rewrite Hfault. cbn [isinstance_IOError raise isinstance_HTTPException str_exn].
  unfold bind.
  match goal with
  | |- context [cleanup env ?f0] => destruct (cleanup_returns env f0) as (f' & Hc)
  end.
  now rewrite Hc.
Qed.

Lemma save_runs env resp w :
  (forall w' op, io_fault env w' op = None) ->
  fs w !! temp_audio_path <> Some Dir ->
  audio_stream_error resp = None ->
  save env resp w
  = (Ok (Z.of_N (csize (audio_body resp))),
     {| fs := <[temp_audio_path := File (audio_body resp)]> (fs w);
        trace := (trace w ++ [EvDownloaded temp_audio_path
                                (Z.of_N (csize (audio_body resp)))])%list |}).
Proof.
  intros Hnf Hdir Hs. unfold save.
  assert (write_file env temp_audio_path (audio_body resp) w
          = (Ok tt, {| fs := <[temp_audio_path := File (audio_body resp)]> (fs w);
                       trace := trace w |})) as Hw.
  { unfold write_file, bind, fault. rewrite Hnf.
    destruct (fs w !! temp_audio_path) as [[c|]|]; try reflexivity. now destruct Hdir. }
  unfold bind at 1. rewrite Hw, Hs.
  unfold bind at 1.
  rewrite (os_path_getsize_runs env temp_audio_path _ (Z.of_N (csize (audio_body resp))) Hnf)
    by (unfold path_size; cbn [fs]; now rewrite lookup_insert_eq).
  reflexivity.
Qed.

(** X20.  On the direct path, a failure of the transcriber is answered by
    its class: an [IOError], which every error of the [requests] library is,
    falls to the handler of the download and is reported with status 500 as a
    failure to save the audio file; any other exception is classified by
    its wording. *)
Theorem direct_failure_answer env audio_url files resp cls msg w' :
  truthy_str (OPENAI_API_KEY env) = true ->
  (forall w op, io_fault env w op = None) ->
  files !! temp_audio_path <> Some Dir ->
  requests_get env {| fs := files; trace := [] |} audio_url = Ok resp ->
  audio_raise_for_status resp = None ->
  audio_stream_error resp = None ->
  0 < Z.of_N (csize (audio_body resp)) <= SIZE_LIMIT ->
  transcribe_audio_chunk env temp_audio_path
    {| fs := <[temp_audio_path := File (audio_body resp)]> files;
       trace := [EvDownloaded temp_audio_path (Z.of_N (csize (audio_body resp)));
                 EvDirect] |}
  = (Raise (Raised cls msg), w') ->
  (request env audio_url files).1
  = Raise (if isinstance_IOError (Raised cls msg)
           then HTTPException 500 ("Error saving audio file: " ++ msg)
           else classify (Raised cls msg)).
Proof.
  intros Hkey Hnf Hdir Hget Hs Hstream Hsize Hchunk.
  unfold request, transcribe_podcast. rewrite Hkey. cbn [negb].
  unfold bind at 1. cbn [set_temp_dir modify world].
  unfold try_except at 1, transcribe_try. unfold bind at 1. unfold lift at 1.
  cbn [world temp_dir]. rewrite (fetch_runs _ _ _ _ Hget Hs).
  unfold try_except at 1. unfold bind at 1. unfold lift at 1. cbn [world temp_dir].
  rewrite (save_runs env resp {| fs := files; trace := [] |} Hnf Hdir Hstream).
  cbn [fs trace app].
  unfold process_download.
  replace (Z.of_N (csize (audio_body resp)) =? 0) with false
    by (symmetry; apply Z.eqb_neq; lia).
  replace (Z.of_N (csize (audio_body resp)) >? SIZE_LIMIT) with false
    by (symmetry; rewrite Z.gtb_ltb; apply Z.ltb_ge; lia).
  unfold bind at 1. unfold lift at 1. cbn [world temp_dir print modify fs trace app].
  unfold bind at 1. unfold lift at 1. cbn [world temp_dir]. rewrite Hchunk.
  destruct (isinstance_IOError (Raised cls msg)) eqn:Eio;
    cbn [raise isinstance_HTTPException str_exn];
    unfold bind;
    match goal with
    | |- context [cleanup env ?f0] => destruct (cleanup_returns env f0) as (f' & Hc)
    end;
    rewrite Hc; reflexivity.
Qed.

(** X25.  On the chunked path, whatever the split raises is wrapped in an
    [Exception] that says the chunks could not be processed, so it is never
    taken for a failure to save the download: the answer is decided by the
    wording of the wrapped text alone. *)
Theorem chunked_failure_answer env audio_url files resp d e w' :
  truthy_str (OPENAI_API_KEY env) = true ->
  (forall w op, io_fault env w op = None) ->
  files !! temp_audio_path <> Some Dir ->
  requests_get env {| fs := files; trace := [] |} audio_url = Ok resp ->
  audio_raise_for_status resp = None ->
  audio_stream_error resp = None ->
  SIZE_LIMIT < Z.of_N (csize (audio_body resp)) ->
  first_free (<[temp_audio_path := File (audio_body resp)]> files)
    (gettempdir env) "audio_chunks_"
    (candidate_names env
       {| fs := <[temp_audio_path := File (audio_body resp)]> files;
          trace := [EvDownloaded temp_audio_path (Z.of_N (csize (audio_body resp)));
                    EvTooLarge] |})
  = Some d ->
  split_audio_file env temp_audio_path d 300 20
    {| fs := <[d := Dir]> (<[temp_audio_path := File (audio_body resp)]> files);
       trace := [EvDownloaded temp_audio_path (Z.of_N (csize (audio_body resp)));
                 EvTooLarge; EvTempDir d] |}
  = (Raise e, w') ->
  (request env audio_url files).1
  = Raise (classify (Raised Exception ("Error processing audio chunks: " ++ str_exn e))).
Proof.
  intros Hkey Hnf Hdir Hget Hs Hstream Hsize Hfree Hsplit.
  unfold request, transcribe_podcast. rewrite Hkey. cbn [negb].
  unfold bind at 1. cbn [set_temp_dir modify world].
  unfold try_except at 1, transcribe_try. unfold bind at 1. unfold lift at 1.
  cbn [world temp_dir]. rewrite (fetch_runs _ _ _ _ Hget Hs).
  unfold try_except at 1. unfold bind at 1. unfold lift at 1. cbn [world temp_dir].
  rewrite (save_runs env resp {| fs := files; trace := [] |} Hnf Hdir Hstream).
  cbn [fs trace app].
  unfold process_download.
  replace (Z.of_N (csize (audio_body resp)) =? 0) with false
    by (symmetry; apply Z.eqb_neq; unfold SIZE_LIMIT in Hsize; lia).
  replace (Z.of_N (csize (audio_body resp)) >? SIZE_LIMIT) with true
    by (symmetry; rewrite Z.gtb_ltb; apply Z.ltb_lt; lia).
  unfold bind at 1. unfold lift at 1. cbn [world temp_dir print modify fs trace app].
  unfold bind at 1. unfold lift at 1. cbn [world temp_dir].
  unfold tempfile_mkdtemp. unfold bind at 1. unfold fault. rewrite Hnf.
  cbn [fs trace]. rewrite Hfree.
  unfold bind at 1. cbn [set_temp_dir modify world temp_dir].
  unfold bind at 1. unfold lift at 1. cbn [world temp_dir print modify fs trace app].
  unfold transcribe_in_chunks. unfold try_except at 1.
  unfold bind at 1. unfold lift at 1. cbn [world temp_dir]. rewrite Hsplit.
  cbn [raise isinstance_IOError isinstance_HTTPException].
  unfold bind.
  match goal with
  | |- context [cleanup env ?f0] => destruct (cleanup_returns env f0) as (f' & Hc)
  end.
  now rewrite Hc.
Qed.

(** *** The wording test of the last handler *)

Lemma substring_app_skip (a s : string) (n : nat) :
  substring (String.length a) n (a ++ s) = substring 0 n s.
Proof.
  induction a as [|c a IH]; [reflexivity|].
  change (String c a ++ s) with (String c (a ++ s)). cbn [String.length substring].
  exact IH.
Qed.

Lemma substring_app_take (k b : string) :
  substring 0 (String.length k) (k ++ b) = k.
Proof.
  induction k as [|c k IH].
  - change ("" ++ b) with b. cbn [String.length]. now destruct b.
  - change (String c k ++ b) with (String c (k ++ b)). cbn [String.length substring].
    now rewrite IH.
Qed.

Lemma str_contains_app (key a b : string) :
  key <> "" -> str_contains key (a ++ key ++ b) = true.
Proof.
  intros Hkey. unfold str_contains.
  destruct (String.index 0 key (a ++ key ++ b)) eqn:E; [reflexivity|].
  exfalso.
  apply (index_correct3 0 (String.length a) key (a ++ key ++ b) E Hkey); [lia|].
  rewrite substring_app_skip. apply substring_app_take.
Qed.

(** X21.  An error whose text, letter case apart, contains one of
    ["413"], ["entity too large"], ["size limit"] and ["exceeded"] is answered
    with status 400 and the advice to send a shorter clip, whatever raised it
    and whatever else it says. *)
Theorem size_wording_answers_400 (cls : exn_class) (msg a key b : string) :
  key ∈ ["413"; "entity too large"; "size limit"; "exceeded"] ->
  lower msg = a ++ key ++ b ->
  classify (Raised cls msg)
  = HTTPException 400
      "Audio file is too large for the OpenAI API. Please use a shorter audio clip (under 25MB).".
Proof.
  intros Hkey Hmsg. unfold classify. cbn [str_exn]. rewrite Hmsg.
  assert (key <> "") as Hne.
  { intros ->. repeat (apply elem_of_cons in Hkey as [Hkey|Hkey]; [discriminate|]).
    now apply elem_of_nil in Hkey. }
  pose proof (str_contains_app key a b Hne) as Hc.
  repeat (apply elem_of_cons in Hkey as [->|Hkey];
          [rewrite Hc, ?orb_true_r; reflexivity|]).
  now apply elem_of_nil in Hkey.
Qed.

(** *** The clean-up of the handlers *)

#[local] Instance only_deletes_refl : Reflexive only_deletes.
Proof. intros f. unfold only_deletes. auto. Qed.
#[local] Instance only_deletes_trans : Transitive only_deletes.
Proof.
  intros f1 f2 f3 (D1 & T1 & F1) (D2 & T2 & F2). split; [congruence|].
  split; [congruence|]. intros p.
  destruct (F2 p) as [E|E]; [|now right]. rewrite E. apply F1.
Qed.

Lemma moves_lift_only_deletes {A} (m : M World A) :
  (forall w, trace (m w).2 = trace w
             /\ forall p, fs (m w).2 !! p = fs w !! p \/ fs (m w).2 !! p = None) ->
  moves only_deletes (lift m).
Proof.
  intros H f. unfold lift, only_deletes. specialize (H (world f)).
  destruct (m (world f)) as [r w']. cbn [snd world temp_dir] in *. tauto.
Qed.

Lemma moves_os_remove_only_deletes env path : moves only_deletes (lift (os_remove env path)).
Proof.
  apply moves_lift_only_deletes. intros w. split; [apply os_remove_frame|].
  intros p. unfold os_remove, bind, fault.
  destruct (io_fault env w (OpRemove path)); cbn [fst snd]; [now left|].
  destruct (fs w !! path) as [[c|]|]; cbn [snd fs]; try (now left).
  destruct (decide (p = path)) as [->|Hp].
  - right. apply lookup_delete_eq.
  - left. now apply lookup_delete_ne.
Qed.

Lemma moves_shutil_rmtree_only_deletes env d :
  moves only_deletes (lift (shutil_rmtree env d)).
Proof.
  apply moves_lift_only_deletes. intros w. split; [apply moves_shutil_rmtree_trace|].
  intros p. unfold shutil_rmtree, bind, fault.
  destruct (io_fault env w (OpRmtree d)); cbn [fst snd]; [now left|].
  destruct (fs w !! d) as [[c|]|]; cbn [snd fs]; try (now left).
  destruct (decide (p = d)) as [->|Hp]; [right; apply lookup_delete_eq|].
  rewrite lookup_delete_ne by congruence.
  destruct (filter (fun kv : string * node => inside d kv.1 = false) (fs w) !! p)
    as [v|] eqn:E; [|now right].
  apply map_lookup_filter_Some in E as [E _]. now left.
Qed.

(** X22.  The clean-up of the [except] clauses never raises, whatever the
    system refuses, and it only deletes: it adds no event to the trace,
    writes and creates nothing, and leaves the variable [temp_dir] as it
    was. *)
Theorem cleanup_only_deletes env f :
  exists f', cleanup env f = (Ok tt, f') /\ only_deletes f f'.
Proof.
  destruct (cleanup_returns env f) as (f' & Hc). exists f'. split; [exact Hc|].
  enough (moves only_deletes (cleanup env)) as Hm
    by (specialize (Hm f); now rewrite Hc in Hm).
  clear. unfold cleanup. apply moves_bind; [apply _| |intros _].
  - apply moves_bind; [apply _| |intros there].
    + apply moves_lift_only_deletes. intros w. cbn. auto.
    + destruct there; [|apply moves_ret; apply _].
      apply moves_try_except; [apply _|apply moves_os_remove_only_deletes|].
      intros _. apply moves_ret; apply _.
  - apply moves_try_except; [apply _| |intros _; apply moves_ret; apply _].
    unfold remove_temp_dir. apply moves_bind; [apply _| |intros [d|]].
    + unfold temp_dir_there.
      apply moves_bind; [apply _|apply moves_gets; apply _|intros [d|]];
        [|apply moves_ret; apply _].
      destruct (String.eqb d ""); [apply moves_ret; apply _|].
      apply moves_bind; [apply _| |intros there; apply moves_ret; apply _].
      apply moves_lift_only_deletes. intros w. cbn. auto.
    + apply moves_shutil_rmtree_only_deletes.
    + apply moves_ret; apply _.
Qed.

(** *** The dummy search and the masked key *)

Lemma string_app_assoc (x y z : string) : (x ++ y) ++ z = x ++ y ++ z.
Proof.
  induction x as [|c x IH]; [reflexivity|].
  change (String c x ++ y) with (String c (x ++ y)).
  change (String c (x ++ y) ++ z) with (String c ((x ++ y) ++ z)).
  now rewrite IH.
Qed.

Lemma substring_prefix (s : string) :
  forall m t, substring 0 m s = t -> String.length t = m -> exists r, s = t ++ r.
Proof.
  induction s as [|c s IH]; intros m t H Hlen.
  - destruct m; cbn in H; subst t; now exists "".
  - destruct m as [|m]; cbn [substring] in H; subst t.
    + now exists (String c s).
    + cbn [String.length] in Hlen.
      destruct (IH m _ eq_refl) as (r & Hr); [lia|].
      exists r. change (String c (substring 0 m s) ++ r)
        with (String c (substring 0 m s ++ r)). now rewrite <- Hr.
Qed.

Lemma substring_decompose (s : string) :
  forall n m t,
    substring n m s = t -> String.length t = m -> exists p r, s = p ++ t ++ r.
Proof.
  induction s as [|c s IH]; intros n m t H Hlen.
  - destruct n, m; cbn in H; subst t; now exists "", "".
  - destruct n as [|n].
    + destruct (substring_prefix (String c s) m t H Hlen) as (r & Hr).
      now exists "", r.
    + cbn [substring] in H. destruct (IH n m t H Hlen) as (p & r & Hs).
      exists (String c p), r. change (String c p ++ t ++ r)
        with (String c (p ++ t ++ r)). now rewrite <- Hs.
Qed.

Lemma str_contains_empty (s : string) : str_contains "" s = true.
Proof. unfold str_contains. now destruct s. Qed.

(** What contains a text contains every part of it. *)
Lemma str_contains_part (a k b s : string) :
  str_contains (a ++ k ++ b) s = true -> str_contains k s = true.
Proof.
  destruct (string_dec k "") as [->|Hk]; [intros _; apply str_contains_empty|].
  unfold str_contains at 1.
  destruct (String.index 0 (a ++ k ++ b) s) as [n|] eqn:E; [intros _|discriminate].
  apply index_correct1 in E.
  destruct (substring_decompose s n _ _ E eq_refl) as (p & r & ->).
  rewrite (string_app_assoc a), (string_app_assoc k), <- (string_app_assoc p).
  now apply str_contains_app.
Qed.

(** X23.  The dummy search looks for the query as a substring, letter case
    apart: an episode found for a query is found for every query that is,
    letter case apart, a part of it.  So a query in another case finds the
    same episodes, and a shorter query never finds fewer. *)
Theorem search_podcasts_narrows (query query' a b : string) (ep : episode) :
  lower query = a ++ lower query' ++ b ->
  In ep (search_podcasts query) -> In ep (search_podcasts query').
Proof.
  intros Hq. unfold search_podcasts. rewrite !filter_In, Hq.
  intros [Hin Hfound]. split; [exact Hin|].
  apply orb_true_iff in Hfound as [H|H]; apply str_contains_part in H; rewrite H;
    [reflexivity|apply orb_true_r].
Qed.

Lemma length_substring (s : string) :
  forall n m, (n + m <= String.length s)%nat -> String.length (substring n m s) = m.
Proof.
  induction s as [|c s IH]; intros n m H; cbn [String.length] in H.
  - assert (n = 0 /\ m = 0)%nat as [-> ->] by lia. reflexivity.
  - destruct n as [|n]; cbn [substring].
    + destruct m as [|m]; [reflexivity|]. cbn [String.length]. f_equal.
      apply IH. lia.
    + apply IH. lia.
Qed.

Lemma length_stars (k : nat) : String.length (stars k) = k.
Proof. induction k as [|k IH]; cbn; [reflexivity|now rewrite IH]. Qed.

Lemma get_stars (k i : nat) : (i < k)%nat -> String.get i (stars k) = Some "*"%char.
Proof.
  revert i. induction k as [|k IH]; intros i H; [lia|].
  destruct i as [|i]; cbn; [reflexivity|]. apply IH. lia.
Qed.

(** X24.  The masked form of an ASCII key of more than eight characters is
    as long as the key, shows its first four and its last four characters,
    and is a star everywhere else. *)
Theorem masked_key_hides_the_middle (key : string) :
  (8 < String.length key)%nat ->
  String.length (masked_key key) = String.length key
  /\ forall i, (i < String.length key)%nat ->
       String.get i (masked_key key)
       = if (4 <=? i)%nat && (i <? String.length key - 4)%nat
         then Some "*"%char else String.get i key.
Proof.
  intros Hlen. unfold masked_key.
  replace (8 <? String.length key)%nat with true by (symmetry; apply Nat.ltb_lt; lia).
  set (n := String.length key) in *.
  assert (String.length (substring 0 4 key) = 4%nat) as Ha
    by (apply length_substring; fold n; lia).
  assert (String.length (substring (n - 4) 4 key) = 4%nat) as Hb
    by (apply length_substring; fold n; lia).
  split.
  - rewrite !string_app_length, Ha, Hb, length_stars. lia.
  - intros i Hi.
    destruct (4 <=? i)%nat eqn:E4; cbn [andb].
    + apply Nat.leb_le in E4.
      replace i with ((i - 4) + String.length (substring 0 4 key))%nat at 1
        by (rewrite Ha; lia).
      rewrite <- append_correct2.
      destruct (i <? n - 4)%nat eqn:En.
      * apply Nat.ltb_lt in En.
        rewrite <- append_correct1 by (rewrite length_stars; lia).
        apply get_stars. lia.
      * apply Nat.ltb_ge in En.
        replace (i - 4)%nat with ((i - (n - 4)) + String.length (stars (n - 8)))%nat
          by (rewrite length_stars; lia).
        rewrite <- append_correct2.
        rewrite substring_correct1 by lia. f_equal. lia.
    + apply Nat.leb_gt in E4.
      rewrite <- append_correct1 by (rewrite Ha; lia).
      rewrite substring_correct1 by lia. f_equal. lia.
Qed.

End main_facts.

(** ** The theorems at work on concrete servers *)

Section examples_facts.
Import main examples.

Lemma run_outcome {A S} (run : result A * S) (r : result A) :
  run.1 = r -> run = (r, run.2).
Proof. destruct run. cbn. now intros ->. Qed.

(** Evaluate the list of a membership goal, then search it. *)
Ltac in_trace :=
  match goal with
  | |- ?x ∈ ?l => let l' := eval vm_compute in l in change (x ∈ l')
  end;
  repeat first [apply list_elem_of_here | apply list_elem_of_further].

Ltac not_in_input :=
  let i := fresh "i" in let H := fresh "H" in
  intros i H; apply (f_equal (String.get 0)) in H; vm_compute in H; discriminate.

(** C1, refuted as stated: with no API key the request ends before any
    clean-up and a file already at [temp_audio.mp3] stays; with a deletion the
    system refuses, the downloaded file stays although the request ends. *)
Lemma cleanup_counterexample :
  (request no_key "http://example.org/a.mp3" stale_audio).1
    = Raise (HTTPException 500 "OpenAI API key not configured")
  /\ ~ clean (request no_key "http://example.org/a.mp3" stale_audio).2
  /\ (request remove_refused "http://example.org/a.mp3" ∅).1
       = Raise (HTTPException 500 "Error saving audio file: Permission denied")
  /\ ~ clean (request remove_refused "http://example.org/a.mp3" ∅).2.
Proof.
  split; [vm_compute; reflexivity|]. split.
  - intros [H _]. vm_compute in H. discriminate.
  - split; [vm_compute; reflexivity|]. intros [H _]. vm_compute in H. discriminate.
Qed.

Lemma cleanup_on_every_exit_path_witness :
  truthy_str (OPENAI_API_KEY (healthy 26214401 900)) = true
  /\ deletions_succeed (healthy 26214401 900)
  /\ (∅ : gmap string node) !! temp_audio_path <> Some Dir
  /\ clean (request (healthy 26214401 900) "http://example.org/a.mp3" ∅).2.
Proof.
  assert (truthy_str (OPENAI_API_KEY (healthy 26214401 900)) = true) as H1
    by reflexivity.
  assert (deletions_succeed (healthy 26214401 900)) as H2
    by (intros w path; split; reflexivity).
  assert ((∅ : gmap string node) !! temp_audio_path <> Some Dir) as H3
    by (rewrite lookup_empty; discriminate).
  split; [exact H1|]. split; [exact H2|]. split; [exact H3|].
  exact (cleanup_on_every_exit_path _ "http://example.org/a.mp3" ∅ H1 H2 H3).
Defined.



Lemma chunk_transcripts_joined_in_order_witness :
  exists chunk_files segments w1 w2,
    split_audio_file (healthy 26214401 900) temp_audio_path
      "/tmp/audio_chunks_k3x9q2ab" 300 20 w1 = (Ok chunk_files, w2)
    /\ (exists kept, StronglySorted lt kept
                     /\ chunk_files = chunk_path "/tmp/audio_chunks_k3x9q2ab" <$> kept)
    /\ transcribe_calls
         (trace (world (request (healthy 26214401 900) "http://example.org/a.mp3" ∅).2))
       = chunk_files
    /\ segments_from (healthy 26214401 900)
         {| fs := fs w2;
            trace := (trace w2 ++ [EvSplitInto (length chunk_files)])%list |}
         chunk_files segments
    /\ length segments = length chunk_files
    /\ "</tmp/audio_chunks_k3x9q2ab/chunk_000.mp3> </tmp/audio_chunks_k3x9q2ab/chunk_001.mp3> </tmp/audio_chunks_k3x9q2ab/chunk_002.mp3> </tmp/audio_chunks_k3x9q2ab/chunk_003.mp3>"
       = str_join " " segments.
Proof.
  apply (chunk_transcripts_joined_in_order (healthy 26214401 900)
           "http://example.org/a.mp3" ∅ _
           (request (healthy 26214401 900) "http://example.org/a.mp3" ∅).2).
  - apply run_outcome. vm_compute. reflexivity.
  - in_trace.
Defined.

Lemma creatable_out (files : gmap string node) :
  (forall c, files !! "out" <> Some (File c)) -> creatable files "out".
Proof.
  intros H. split; [discriminate|]. split; [exact H|].
  intros p c Hp. now apply elem_of_nil in Hp.
Qed.

Lemma fallback_slices_the_input_witness :
  Qfloor (inject_Z 1 * 0.95 * 1024 * 1024)%Q = 996147
  /\ Qceiling (inject_Z (Z.of_N (csize (ramp 2500000))) / inject_Z 996147)%Q = 3
  /\ exists w',
       split_audio_file no_ffmpeg "in.mp3" "out" 300 (inject_Z 1) world_with_recording
       = (Ok ["out/chunk_000.mp3"; "out/chunk_001.mp3"; "out/chunk_002.mp3"], w')
       /\ forall i : nat, Z.of_nat i < 3 ->
            exists ci,
              fs w' !! chunk_path "out" i = Some (File ci)
              /\ (forall j, (j < csize ci)%N ->
                    cbyte ci j = cbyte (ramp 2500000) (N.of_nat i * 996147 + j)%N)
              /\ 0 < Z.of_N (csize ci) <= 996147
              /\ (Z.of_nat i < 3 - 1 -> Z.of_N (csize ci) = 996147)
              /\ (Z.of_nat i = 3 - 1 ->
                  Z.of_N (csize ci) = 2500000 - (3 - 1) * 996147).
Proof.
  split; [reflexivity|]. split; [reflexivity|].
  assert (forall i, chunk_path "out" i <> "in.mp3") as Hsep by not_in_input.
  destruct (fallback_slices_the_input no_ffmpeg "in.mp3" "out" 300 1
              world_with_recording (ramp 2500000)) as (w' & Hrun & _ & Hchunks).
  - reflexivity.
  - intros w' op. now destruct op.
  - lia.
  - reflexivity.
  - split; reflexivity.
  - apply creatable_out. intros c'. vm_compute. discriminate.
  - exact Hsep.
  - intros i. unfold world_with_recording. cbn [fs].
    rewrite lookup_singleton_ne; [discriminate|]. intros H. now apply (Hsep i).
  - exists w'. split; [exact Hrun|exact Hchunks].
Defined.

(** C5, refuted as stated: a download of exactly 25 MB is transcribed whole,
    in one call; and when the transcription of the second of four chunks
    fails, two calls were made for four chunks. *)
Lemma size_check_counterexample :
  Z.of_N 26214400 = SIZE_LIMIT
  /\ trace (world (request (healthy 26214400 900) "http://example.org/a.mp3" ∅).2)
     = [EvDownloaded temp_audio_path 26214400; EvDirect; EvTranscribing temp_audio_path]
  /\ EvSplitInto 4
       ∈ trace (world (request second_chunk_fails "http://example.org/a.mp3" ∅).2)
  /\ length (transcribe_calls
               (trace (world (request second_chunk_fails "http://example.org/a.mp3" ∅).2)))
     = 2%nat.
Proof.
  split; [reflexivity|]. split; [vm_compute; reflexivity|].
  split; [in_trace|vm_compute; reflexivity].
Qed.

Lemma size_check_is_strict_witness :
  EvDownloaded temp_audio_path 26214401
    ∈ trace (world (request (healthy 26214401 900) "http://example.org/a.mp3" ∅).2)
  /\ (SIZE_LIMIT < 26214401 ->
      EvDirect ∉ trace (world (request (healthy 26214401 900)
                                 "http://example.org/a.mp3" ∅).2)).
Proof.
  assert (EvDownloaded temp_audio_path 26214401
            ∈ trace (world (request (healthy 26214401 900)
                              "http://example.org/a.mp3" ∅).2)) as H by in_trace.
  split; [exact H|]. intros Hbig.
  apply (size_check_is_strict (healthy 26214401 900) "http://example.org/a.mp3" ∅
           _ _ 26214401 (surjective_pairing _) H).
  exact Hbig.
Defined.

(** C6, refuted as stated: a download of zero bytes fails with status 500. *)
Lemma empty_download_counterexample :
  EvDownloaded temp_audio_path 0
    ∈ trace (world (request (healthy 0 10) "http://example.org/a.mp3" ∅).2)
  /\ (request (healthy 0 10) "http://example.org/a.mp3" ∅).1
     = Raise (HTTPException 500 "Downloaded audio file is empty")
  /\ ~ is_400_class (request (healthy 0 10) "http://example.org/a.mp3" ∅).1.
Proof.
  split; [in_trace|]. split; [vm_compute; reflexivity|].
  intros (status_code & detail & H & Hclass). vm_compute in H. inversion H. subst. lia.
Qed.

Lemma empty_download_fails_with_500_witness :
  EvDownloaded temp_audio_path 0
    ∈ trace (world (request (healthy 0 10) "http://example.org/a.mp3" ∅).2)
  /\ (request (healthy 0 10) "http://example.org/a.mp3" ∅).1
     = Raise (HTTPException 500 "Downloaded audio file is empty").
Proof.
  assert (EvDownloaded temp_audio_path 0
            ∈ trace (world (request (healthy 0 10) "http://example.org/a.mp3" ∅).2))
    as H by in_trace.
  split; [exact H|].
  apply (empty_download_fails_with_500 (healthy 0 10) "http://example.org/a.mp3" ∅
           _ _ (surjective_pairing _) H).
Defined.

(** C7, refuted as stated: when the only chunk requested fails to encode,
    [split_audio_file] returns the empty list and raises nothing. *)
Lemma split_returns_empty_counterexample :
  (split_audio_file ffmpeg_broken "in.mp3" "out" 300 20 empty_world).1 = Ok [].
Proof. vm_compute. reflexivity. Qed.

Lemma split_audio_file_lists_chunks_witness :
  (forall i, chunk_path "out" i <> "in.mp3")
  /\ (forall p,
        p ∈ ["out/chunk_000.mp3"; "out/chunk_001.mp3"; "out/chunk_002.mp3";
             "out/chunk_003.mp3"] ->
        nonempty_path (healthy 10 900)
          (split_audio_file (healthy 10 900) "in.mp3" "out" 300 20 empty_world).2 p)
  /\ (transcribe_in_chunks ffmpeg_broken "/tmp/audio_chunks_k3x9q2ab"
        {| world := empty_world; temp_dir := Some "/tmp/audio_chunks_k3x9q2ab" |}).1
     = Raise (Raised Exception
                "Error processing audio chunks: Failed to split audio file into chunks").
Proof.
  assert (forall i, chunk_path "out" i <> "in.mp3") as H by not_in_input.
  assert (forall c, fs empty_world !! "in.mp3" = Some (File c) -> (csize c < 2 ^ 53)%N)
    as Hsize by (intros c Hc; discriminate Hc).
  split; [exact H|]. split.
  - apply (split_audio_file_lists_chunks (healthy 10 900) "in.mp3" "out" 300 20
             empty_world _ _ H Hsize).
    apply run_outcome. vm_compute. reflexivity.
  - destruct (split_audio_file_lists_chunks ffmpeg_broken "in.mp3" "out" 300 20
                empty_world [] _ H Hsize (surjective_pairing _)) as (_ & _ & Hguard).
    rewrite (Hguard "/tmp/audio_chunks_k3x9q2ab"
               {| world := empty_world; temp_dir := Some "/tmp/audio_chunks_k3x9q2ab" |}
               (split_audio_file ffmpeg_broken temp_audio_path
                  "/tmp/audio_chunks_k3x9q2ab" 300 20 empty_world).2).
    + reflexivity.
    + apply run_outcome. vm_compute. reflexivity.
Defined.

(** C8, refuted as stated: two requests for different URLs store their
    downloads at one and the same path.  When the second request starts while
    the download of the first lies saved at [temp_audio.mp3], it overwrites
    that file with its own download and removes it when it is done. *)
Lemma audio_path_shared_counterexample :
  "http://example.org/a.mp3" <> "http://example.org/b.mp3"
  /\ exists resp_a wa,
       requests_get two_sources {| fs := ∅; trace := [] |} "http://example.org/a.mp3"
       = Ok resp_a
       /\ save two_sources resp_a {| fs := ∅; trace := [] |} = (Ok 10, wa)
       /\ fs wa !! temp_audio_path = Some (File (blank 10))
       /\ (request two_sources "http://example.org/b.mp3" (fs wa)).1
          = Ok "<temp_audio.mp3>"
       /\ EvDownloaded temp_audio_path 20
            ∈ trace (world (request two_sources "http://example.org/b.mp3" (fs wa)).2)
       /\ fs (world (request two_sources "http://example.org/b.mp3" (fs wa)).2)
            !! temp_audio_path = None.
Proof.
  split; [discriminate|].
  exists {| audio_raise_for_status := None; audio_body := blank 10;
            audio_stream_error := None |},
         {| fs := {[temp_audio_path := File (blank 10)]};
            trace := [EvDownloaded temp_audio_path 10] |}.
  split; [reflexivity|]. split; [vm_compute; reflexivity|].
  split; [reflexivity|]. split; [vm_compute; reflexivity|].
  split; [in_trace|]. vm_compute. reflexivity.
Qed.

Lemma audio_path_fixed_temp_dir_fresh_witness :
  (exists resp w1,
     requests_get (healthy 26214401 900) {| fs := busy_files; trace := [] |}
       "http://example.org/a.mp3" = Ok resp
     /\ save (healthy 26214401 900) resp {| fs := busy_files; trace := [] |}
        = (Ok 26214401, w1)
     /\ fs w1 = <[temp_audio_path := File (audio_body resp)]> busy_files)
  /\ busy_files !! "/tmp/audio_chunks_p0o9i8u7" = None
  /\ "/tmp/audio_chunks_p0o9i8u7" <> "/tmp/audio_chunks_k3x9q2ab".
Proof.
  destruct (audio_path_fixed_temp_dir_fresh (healthy 26214401 900)
              "http://example.org/a.mp3" busy_files _ _ (surjective_pairing _))
    as [Hstored Hfresh].
  assert (EvDownloaded temp_audio_path 26214401
            ∈ trace (world (request (healthy 26214401 900)
                              "http://example.org/a.mp3" busy_files).2)) as Hd
    by in_trace.
  assert (EvTempDir "/tmp/audio_chunks_p0o9i8u7"
            ∈ trace (world (request (healthy 26214401 900)
                              "http://example.org/a.mp3" busy_files).2)) as Ht
    by in_trace.
  destruct (Hstored _ _ Hd) as (_ & Hsave).
  destruct (Hfresh _ Ht) as (Hnone & Hother).
  split; [exact Hsave|]. split; [exact Hnone|].
  apply Hother. exists Dir. reflexivity.
Defined.

Lemma format_podcast_results_drops_header_witness :
  header_row !! "kind" = None
  /\ is_Some (header_row !! "collectionId")
  /\ itunes_api.format_podcast_results lookup_payload
     = Ok (itunes_api.format_item <$> [episode_row 1; episode_row 2]).
Proof.
  assert (header_row !! "kind" = None) as H1 by reflexivity.
  assert (is_Some (header_row !! "collectionId")) as H2 by (eexists; reflexivity).
  split; [exact H1|]. split; [exact H2|].
  apply (proj1 (format_podcast_results_drops_header lookup_payload
                  [header_row; episode_row 1; episode_row 2] eq_refl)
           header_row [episode_row 1; episode_row 2] eq_refl H1 H2).
Defined.

Lemma server_no_fault key installed body duration extraction client :
  forall w op,
    io_fault (server key false installed body duration extraction client) w op = None.
Proof. intros w op. now destruct op. Qed.

Lemma request_fails_with_http_exception_witness :
  exists status_code detail,
    HTTPException 500 "Downloaded audio file is empty"
    = HTTPException status_code detail
    /\ (plain_services (healthy 0 10) -> status_code = 400 \/ status_code = 500).
Proof.
  apply (request_fails_with_http_exception (healthy 0 10) "http://example.org/a.mp3" ∅
           (HTTPException 500 "Downloaded audio file is empty")
           (request (healthy 0 10) "http://example.org/a.mp3" ∅).2).
  apply run_outcome. vm_compute. reflexivity.
Defined.

Lemma transcribe_audio_chunk_prefers_client_witness :
  transcribe_audio_chunk (healthy 10 10) "c.mp3" world_with_chunk
  = (Ok "<c.mp3>", announced "c.mp3" world_with_chunk).
Proof.
  exact (transcribe_audio_chunk_prefers_client (healthy 10 10) "c.mp3" world_with_chunk
           (blank 10) "<c.mp3>" eq_refl eq_refl eq_refl).
Defined.

Lemma transcribe_audio_chunk_falls_back_witness :
  transcribe_audio_chunk upload_refused "c.mp3" world_with_chunk
  = (Raise (Raised Exception "API call failed: 413 - Request Entity Too Large"),
     announced "c.mp3" world_with_chunk).
Proof.
  exact (transcribe_audio_chunk_falls_back upload_refused "c.mp3" world_with_chunk
           (blank 10) (Raised Exception "client unavailable") too_large_response
           eq_refl eq_refl eq_refl eq_refl).
Defined.

Lemma transcribe_audio_chunk_missing_file_witness :
  exists msg,
    transcribe_audio_chunk (healthy 10 10) "c.mp3" empty_world
    = (Raise (Raised OSError msg), announced "c.mp3" empty_world).
Proof.
  exact (transcribe_audio_chunk_missing_file (healthy 10 10) "c.mp3" empty_world eq_refl).
Defined.

Lemma split_audio_file_touches_only_chunks_witness :
  (forall i, "in.mp3" <> chunk_path "a/b" i)
  /\ fs (split_audio_file no_ffmpeg "in.mp3" "a/b" 300 20 world_with_input).2 !! "in.mp3"
     = fs world_with_input !! "in.mp3"
  /\ fs (split_audio_file no_ffmpeg "in.mp3" "a/b" 300 20 world_with_input).2 !! "a"
     = Some Dir.
Proof.
  assert (forall i, "in.mp3" <> chunk_path "a/b" i) as H by not_in_input.
  split; [exact H|]. split; [|reflexivity].
  destruct (split_audio_file_touches_only_chunks no_ffmpeg "in.mp3" "a/b" 300 20
              world_with_input "in.mp3" H) as [E|(E & _)]; [exact E|discriminate E].
Defined.


Lemma split_aborts_on_failed_chunk_witness :
  exists w',
    split_audio_file ffmpeg_broken "in.mp3" "out" 5 20 empty_world
    = (Raise (Raised Exception
                ("Failed to split audio file: " ++ "ffmpeg exited with status 1")),
       w')
    /\ extract_requests (trace w') = (extract_requests (trace empty_world) ++ [0%nat])%list.
Proof.
  apply (split_aborts_on_failed_chunk ffmpeg_broken "in.mp3" "out" 5 20 10
           "ffmpeg exited with status 1" empty_world).
  - reflexivity.
  - apply server_no_fault.
  - apply creatable_out. intros c H. discriminate H.
  - intros w1. reflexivity.
  - reflexivity.
  - vm_compute. discriminate.
  - intros w1 start_time duration output_file. reflexivity.
Defined.

Lemma inaccessible_url_answers_400_witness :
  (request (unreachable (healthy 10 10) (Raised RequestException "Name or service not known"))
     "http://example.invalid/a.mp3" stale_audio).1
  = Raise (HTTPException 400
             ("Error accessing audio URL: "
              ++ str_exn (Raised RequestException "Name or service not known")))
  /\ trace (world (request (unreachable (healthy 10 10)
                              (Raised RequestException "Name or service not known"))
                     "http://example.invalid/a.mp3" stale_audio).2) = []
  /\ forall p, p <> temp_audio_path ->
       fs (world (request (unreachable (healthy 10 10)
                             (Raised RequestException "Name or service not known"))
                    "http://example.invalid/a.mp3" stale_audio).2) !! p
       = stale_audio !! p.
Proof.
  apply (inaccessible_url_answers_400
           (unreachable (healthy 10 10) (Raised RequestException "Name or service not known"))
           "http://example.invalid/a.mp3" stale_audio
           (Raised RequestException "Name or service not known")).
  - reflexivity.
  - left. reflexivity.
  - reflexivity.
  - apply surjective_pairing.
Defined.

Lemma unwritable_audio_file_answers_500_witness :
  (request (read_only (healthy 10 10)) "http://example.org/a.mp3" ∅).1
  = Raise (HTTPException 500 ("Error saving audio file: " ++ "Read-only file system")).
Proof.
  apply (unwritable_audio_file_answers_500 (read_only (healthy 10 10))
           "http://example.org/a.mp3" ∅
           {| audio_raise_for_status := None; audio_body := blank 10;
              audio_stream_error := None |}
           "Read-only file system"); reflexivity.
Defined.

Lemma direct_failure_answer_witness :
  (request upload_refused "http://example.org/a.mp3" ∅).1
  = Raise (HTTPException 400
             "Audio file is too large for the OpenAI API. Please use a shorter audio clip (under 25MB).").
Proof.
  rewrite (direct_failure_answer upload_refused "http://example.org/a.mp3" ∅
             {| audio_raise_for_status := None; audio_body := blank 10;
                audio_stream_error := None |}
             Exception "API call failed: 413 - Request Entity Too Large"
             (announced temp_audio_path
                {| fs := <[temp_audio_path := File (blank 10)]> ∅;
                   trace := [EvDownloaded temp_audio_path 10; EvDirect] |})).
  - reflexivity.
  - reflexivity.
  - apply server_no_fault.
  - intros H. discriminate H.
  - reflexivity.
  - reflexivity.
  - reflexivity.
  - cbn. unfold SIZE_LIMIT. lia.
  - reflexivity.
Defined.

Lemma size_wording_answers_400_witness :
  classify (Raised Exception "You EXCEEDED your current quota")
  = HTTPException 400
      "Audio file is too large for the OpenAI API. Please use a shorter audio clip (under 25MB).".
Proof.
  apply (size_wording_answers_400 Exception "You EXCEEDED your current quota"
           "you " "exceeded" " your current quota").
  - repeat first [apply list_elem_of_here | apply list_elem_of_further].
  - reflexivity.
Defined.

Lemma search_podcasts_narrows_witness :
  In {| title := "Episode 1: Summary from Feb 27, 2025";
        description := "A podcast episode summary from February 27";
        audio_url := "http://wirebrand.se/podcast/2025-02-27_summary.mp3" |}
    (search_podcasts "FEB 27").
Proof.
  apply (search_podcasts_narrows "Summary from Feb 27" "FEB 27" "summary from " "").
  - reflexivity.
  - left. reflexivity.
Defined.

Lemma masked_key_hides_the_middle_witness :
  String.length (masked_key "sk-test-0123456789") = String.length "sk-test-0123456789"
  /\ forall i, (i < String.length "sk-test-0123456789")%nat ->
       String.get i (masked_key "sk-test-0123456789")
       = if (4 <=? i)%nat && (i <? String.length "sk-test-0123456789" - 4)%nat
         then Some "*"%char else String.get i "sk-test-0123456789".
Proof.
  apply (masked_key_hides_the_middle "sk-test-0123456789"). cbn. lia.
Defined.

Lemma chunked_failure_answer_witness :
  (request encoder_fails "http://example.org/a.mp3" ∅).1
  = Raise (HTTPException 500
             "There was an issue processing the audio file. The server will attempt to use a fallback method.").
Proof.
  rewrite (chunked_failure_answer encoder_fails "http://example.org/a.mp3" ∅
             {| audio_raise_for_status := None; audio_body := blank 26214401;
                audio_stream_error := None |}
             "/tmp/audio_chunks_k3x9q2ab"
             (Raised Exception "Failed to split audio file: ffmpeg exited with status 1")
             (split_audio_file encoder_fails temp_audio_path
                "/tmp/audio_chunks_k3x9q2ab" 300 20
                {| fs := <["/tmp/audio_chunks_k3x9q2ab" := Dir]>
                           (<[temp_audio_path := File (blank 26214401)]> ∅);
                   trace := [EvDownloaded temp_audio_path 26214401; EvTooLarge;
                             EvTempDir "/tmp/audio_chunks_k3x9q2ab"] |}).2).
  - reflexivity.
  - reflexivity.
  - apply server_no_fault.
  - intros H. discriminate H.
  - reflexivity.
  - reflexivity.
  - reflexivity.
  - reflexivity.
  - reflexivity.
  - apply run_outcome. vm_compute. reflexivity.
Defined.

End examples_facts.

(** ** The iTunes searches and their endpoints *)

Section itunes_more.
Import itunes_api main.

(** X1.  Whatever the network does, [search_itunes] returns a dictionary,
    and it is one of two: the JSON object of a response that came back with
    no error status, or the error dictionary of the failure that occurred.
    Its callers can test ["error" in results] without a failure of their
    own. *)
Theorem search_itunes_returns_dict (env : itunes_api.Env) (query media : string)
    (entity : option string) (limit : Z) (country : string)
    (additional_params : option (gmap string json)) :
  exists d : gmap string json,
    search_itunes env query media entity limit country additional_params = Ok (JObj d)
    /\ ((exists url params resp,
           itunes_api.requests_get env url params = Ok resp
           /\ raise_for_status resp = None
           /\ json_body resp = Ok (JObj d))
        \/ exists e, error_dictionary e (Ok (JObj d))).
Proof.
  assert (forall e r, error_dictionary e r ->
            exists d, r = Ok (JObj d) /\ exists e', error_dictionary e' (Ok (JObj d)))
    as Herr.
  { intros e r (d & -> & Hd). exists d. split; [reflexivity|]. exists e, d. auto. }
  assert (forall e,
            exists d,
              (if isinstance_RequestException e then
                 Ok (error_payload ("Request failed: " ++ str_exn e))
               else if isinstance_ValueError e then
                 Ok (error_payload ("Failed to parse response: " ++ str_exn e))
               else Ok (error_payload ("Unexpected error: " ++ str_exn e)))
              = Ok (JObj d)
              /\ ((exists url params resp,
                     itunes_api.requests_get env url params = Ok resp
                     /\ raise_for_status resp = None
                     /\ json_body resp = Ok (JObj d))
                  \/ exists e', error_dictionary e' (Ok (JObj d)))) as Hfail.
  { intros e. destruct (Herr e _ (error_payload_dictionary e)) as (d & Hd & He).
    exists d. auto. }
  unfold search_itunes, search_itunes_try.
  destruct (is_podcast_lookup entity additional_params); cbv beta iota zeta;
    (destruct (itunes_api.requests_get env _ _) as [resp|e] eqn:Hget; [|apply Hfail]);
    (destruct (raise_for_status resp) as [e|] eqn:Hs; [apply Hfail|]);
    (destruct (json_body resp) as [body|e] eqn:Hb; [|apply Hfail]);
    destruct body; try apply Hfail;
    eexists; (split; [reflexivity|]); left;
    eexists _, _, resp; (split; [exact Hget|]); (split; [exact Hs|exact Hb]).
Qed.

Lemma is_podcast_lookup_collection (ap : gmap string json) (id : json) :
  ap !! "collectionId" = Some id ->
  is_podcast_lookup (Some "podcastEpisode") (Some ap) = true.
Proof.
  intros H. unfold is_podcast_lookup, dict_has.
  rewrite (bool_decide_eq_true_2 (is_Some (ap !! "collectionId"))) by eauto.
  rewrite (bool_decide_eq_false_2 (ap = ∅)); [reflexivity|].
  intros ->. rewrite lookup_empty in H. discriminate.
Qed.

Lemma search_itunes_lookup_request (env env' : itunes_api.Env)
    (query query' media media' : string) (limit : Z) (country : string)
    (ap ap' : gmap string json) (pid : json) :
  ap !! "collectionId" = Some pid ->
  ap' !! "collectionId" = Some pid ->
  itunes_api.requests_get env ITUNES_LOOKUP_API_BASE_URL
    (<["id" := pid]> (<["entity" := JStr "podcastEpisode"]>
       (<["limit" := JInt limit]> (<["country" := JStr country]> ∅))))
  = itunes_api.requests_get env' ITUNES_LOOKUP_API_BASE_URL
      (<["id" := pid]> (<["entity" := JStr "podcastEpisode"]>
         (<["limit" := JInt limit]> (<["country" := JStr country]> ∅)))) ->
  search_itunes env query media (Some "podcastEpisode") limit country (Some ap)
  = search_itunes env' query' media' (Some "podcastEpisode") limit country (Some ap').
Proof.
  intros Hap Hap' Hget. unfold search_itunes, search_itunes_try.
  rewrite (is_podcast_lookup_collection ap pid Hap),
          (is_podcast_lookup_collection ap' pid Hap').
  cbv [dict_get default from_option id]. rewrite Hap, Hap'.
  now rewrite Hget.
Qed.

(** X2.  Asked for the episodes of a podcast (entity ["podcastEpisode"] and a
    ["collectionId"] among the additional parameters), [search_itunes] sends
    one request to the lookup URL with the id, the entity, the limit and the
    country: the search term, the media type and every other additional
    parameter have no part in the answer. *)
Theorem lookup_ignores_query (env env' : itunes_api.Env)
    (query query' media media' : string) (limit : Z) (country : string)
    (ap ap' : gmap string json) (id : json) :
  ap !! "collectionId" = Some id ->
  ap' !! "collectionId" = Some id ->
  itunes_api.requests_get env ITUNES_LOOKUP_API_BASE_URL
    (<["id" := id]> (<["entity" := JStr "podcastEpisode"]>
       (<["limit" := JInt limit]> (<["country" := JStr country]> ∅))))
  = itunes_api.requests_get env' ITUNES_LOOKUP_API_BASE_URL
      (<["id" := id]> (<["entity" := JStr "podcastEpisode"]>
         (<["limit" := JInt limit]> (<["country" := JStr country]> ∅)))) ->
  search_itunes env query media (Some "podcastEpisode") limit country (Some ap)
  = search_itunes env' query' media' (Some "podcastEpisode") limit country (Some ap').
Proof.
  intros Hap Hap' Hget. now apply (search_itunes_lookup_request env env') with id.
Qed.

(** X3.  In a plain search the additional parameters win over the standard
    ones: when they carry a ["term"], the query argument has no part in the
    answer. *)
Theorem additional_term_overrides_query (env : itunes_api.Env)
    (query query' media : string) (entity : option string) (limit : Z)
    (country : string) (ap : gmap string json) (term : json) :
  ap !! "term" = Some term ->
  is_podcast_lookup entity (Some ap) = false ->
  search_itunes env query media entity limit country (Some ap)
  = search_itunes env query' media entity limit country (Some ap).
Proof.
  intros Hterm Hmode. unfold search_itunes, search_itunes_try. rewrite Hmode.
  assert (truthy_dict (Some ap) = true) as Htruthy.
  { cbn. rewrite bool_decide_eq_false_2; [reflexivity|].
    intros ->. rewrite lookup_empty in Hterm. discriminate. }
  rewrite Htruthy. cbn [default].
  match goal with
  | |- match match itunes_api.requests_get env _ ?p1 with _ => _ end with _ => _ end
       = match match itunes_api.requests_get env _ ?p2 with _ => _ end with _ => _ end =>
      replace p1 with p2; [reflexivity|]
  end.
  apply map_eq. intros k.
  destruct (ap !! k) as [v|] eqn:Hk.
  - now rewrite !(lookup_union_Some_l _ _ _ _ Hk).
  - rewrite !(lookup_union_r _ _ _ Hk).
    assert (k <> "term") as Hne by (intros ->; congruence).
    destruct (truthy_str entity);
      repeat (rewrite lookup_insert_ne by (try exact Hne; congruence));
      rewrite ?lookup_insert_eq;
      destruct (decide (k = "entity")) as [->|He];
      rewrite ?lookup_insert_eq, ?(lookup_insert_ne _ "entity") by congruence;
      try reflexivity;
      rewrite !(lookup_insert_ne _ "term") by congruence; reflexivity.
Qed.

(** X4.  When the request of the podcast search fails with an exception,
    the endpoint answers status 500, and the detail is the message of
    [search_itunes]: a prefix naming the kind of failure, then the text of
    the exception. *)
Theorem podcasts_endpoint_reports_failure (env : itunes_api.Env)
    (query : string) (limit : Z) (country : string) (e : exn) :
  (forall url params, itunes_api.requests_get env url params = Raise e) ->
  exists pre,
    (pre = "Request failed: " \/ pre = "Failed to parse response: "
     \/ pre = "Unexpected error: ")
    /\ search_itunes_podcasts env query limit country
       = HTTPError 500 (JStr (pre ++ str_exn e)).
Proof.
  intros Hget. unfold search_itunes_podcasts, search_itunes, search_itunes_try.
  cbn [is_podcast_lookup]. rewrite Hget.
  unfold error_payload, answer_search, py_in, py_item, dict_has.
  destruct (isinstance_RequestException e); [|destruct (isinstance_ValueError e)];
    rewrite !lookup_insert_eq; cbn;
    [exists "Request failed: "|exists "Failed to parse response: "
    |exists "Unexpected error: "]; (split; [auto|reflexivity]).
Qed.

(** X5.  When the response of the podcast search is a JSON object, the
    endpoint answers 500 if the object has an ["error"] member, with that
    member as the detail (with the phrase of the status when the member is
    null), and otherwise what [format_podcast_results] makes of the
    object. *)
Theorem podcasts_endpoint_formats_response (env : itunes_api.Env)
    (query : string) (limit : Z) (country : string) (resp : response)
    (data : gmap string json) :
  (forall url params, itunes_api.requests_get env url params = Ok resp) ->
  raise_for_status resp = None ->
  json_body resp = Ok (JObj data) ->
  search_itunes_podcasts env query limit country
  = match data !! "error" with
    | Some detail =>
        HTTPError 500
          match detail with
          | JNull => JStr "Internal Server Error"
          | _ => detail
          end
    | None =>
        match format_podcast_results data with
        | Ok formatted => Found formatted
        | Raise e => Uncaught e
        end
    end.
Proof.
  intros Hget Hstatus Hbody.
  unfold search_itunes_podcasts, search_itunes, search_itunes_try.
  cbn [is_podcast_lookup]. rewrite Hget, Hstatus, Hbody.
  unfold answer_search, py_in, py_item, dict_has.
  destruct (data !! "error") as [detail|] eqn:E.
  - rewrite bool_decide_eq_true_2 by eauto. reflexivity.
  - rewrite bool_decide_eq_false_2 by (intros [x Hx]; discriminate). reflexivity.
Qed.

(** X6.  With a podcast id (other than 0) the episode search goes through
    the lookup request for that id, whatever the query: the wildcard the
    endpoint substitutes for a blank query is never sent. *)
Theorem episodes_endpoint_ignores_query (env env' : itunes_api.Env)
    (query query' : string) (limit : Z) (country : string) (id : Z) :
  id <> 0 ->
  itunes_api.requests_get env ITUNES_LOOKUP_API_BASE_URL
    (<["id" := JInt id]> (<["entity" := JStr "podcastEpisode"]>
       (<["limit" := JInt limit]> (<["country" := JStr country]> ∅))))
  = itunes_api.requests_get env' ITUNES_LOOKUP_API_BASE_URL
      (<["id" := JInt id]> (<["entity" := JStr "podcastEpisode"]>
         (<["limit" := JInt limit]> (<["country" := JStr country]> ∅)))) ->
  search_itunes_episodes env query limit country (Some id)
  = search_itunes_episodes env' query' limit country (Some id).
Proof.
  intros Hid Hget. unfold search_itunes_episodes. cbn [default].
  replace (id =? 0) with false by (symmetry; now apply Z.eqb_neq). cbn [negb andb].
  f_equal. apply (search_itunes_lookup_request env env') with (JInt id);
    [apply lookup_insert_eq|apply lookup_insert_eq|exact Hget].
Qed.

Lemma format_all_inv (items : list json) (out : list (gmap string json)) :
  format_all items = Ok out ->
  exists rows, items = JObj <$> rows /\ out = format_item <$> rows.
Proof.
  revert out. induction items as [|item rest IH]; intros out H.
  - inversion H. now exists [].
  - destruct item; try discriminate. cbn [format_all] in H.
    destruct (format_all rest) as [formatted|e]; [|discriminate].
    inversion H; subst. destruct (IH formatted eq_refl) as (rows & -> & ->).
    now exists (m :: rows).
Qed.

(** X7.  When [format_podcast_results] succeeds on a payload whose
    ["results"] member is a list, the rows it returns are the formatted
    entries of that list, in order, all of them or all but the first: every
    entry it formats is a dictionary, none is invented, repeated or moved. *)
Theorem formatted_rows_follow_results (itunes_results : gmap string json)
    (results : list json) (out : list (gmap string json)) :
  itunes_results !! "results" = Some (JArr results) ->
  format_podcast_results itunes_results = Ok out ->
  exists rows,
    out = format_item <$> rows
    /\ (results = JObj <$> rows \/ exists first, results = first :: (JObj <$> rows)).
Proof.
  intros Hres. unfold format_podcast_results, dict_get. rewrite Hres.
  change (default (JArr []) (Some (JArr results))) with (JArr results).
  destruct (is_lookup_header (JArr results)) as [skip|e] eqn:Hskip;
    [|intros H; discriminate H].
  destruct skip; cbn [py_tail py_iter]; intros Hall;
    apply format_all_inv in Hall; destruct Hall as (rows & Hrows & ->);
    exists rows; (split; [reflexivity|]).
  - right. destruct results as [|first rest]; [discriminate|].
    exists first. cbn [tail] in Hrows. now rewrite Hrows.
  - now left.
Qed.

(** X8.  Every formatted row has an id, a title, a description, an artwork
    URL and a type, the type being one of podcast, episode and unknown; a row
    has an audio URL exactly when it is an episode, and a feed URL exactly
    when it is a podcast. *)
Theorem format_item_fields (item : gmap string json) :
  is_Some (format_item item !! "id")
  /\ is_Some (format_item item !! "title")
  /\ is_Some (format_item item !! "description")
  /\ is_Some (format_item item !! "artwork_url")
  /\ (format_item item !! "type" = Some (JStr "podcast")
      \/ format_item item !! "type" = Some (JStr "episode")
      \/ format_item item !! "type" = Some (JStr "unknown"))
  /\ (is_Some (format_item item !! "audio_url")
      <-> format_item item !! "type" = Some (JStr "episode"))
  /\ (is_Some (format_item item !! "feed_url")
      <-> format_item item !! "type" = Some (JStr "podcast")).
Proof.
  unfold format_item.
  destruct (json_eq_str (item !! "kind") "podcast");
    [|destruct (json_eq_str (item !! "kind") "podcast-episode"
                || dict_has item "episodeUrl" && dict_has item "collectionId"
                   && dict_has item "trackId")].
  - unfold format_podcast.
    repeat split; try (eexists; reflexivity); try (intros [? H]; discriminate H);
      try discriminate; auto.
  - unfold format_episode.
    repeat split; try (eexists; reflexivity); try (intros [? H]; discriminate H);
      try discriminate; auto.
  - unfold format_unknown.
    repeat split; try (eexists; reflexivity); try (intros [? H]; discriminate H);
      try discriminate; auto.
Qed.

Import examples.

Lemma lookup_ignores_query_witness :
  search_itunes itunes_store "anything" "podcast" (Some "podcastEpisode") 5 "US"
    (Some {["collectionId" := JInt 42]})
  = search_itunes itunes_store "" "music" (Some "podcastEpisode") 5 "US"
      (Some {["collectionId" := JInt 42; "explicit" := JStr "No"]}).
Proof.
  apply (lookup_ignores_query itunes_store itunes_store "anything" "" "podcast" "music"
           5 "US" {["collectionId" := JInt 42]}
           {["collectionId" := JInt 42; "explicit" := JStr "No"]} (JInt 42));
    reflexivity.
Defined.

Lemma additional_term_overrides_query_witness :
  search_itunes itunes_store "nothing" "podcast" (Some "podcast") 5 "US"
    (Some {["term" := JStr "show"]})
  = search_itunes itunes_store "show" "podcast" (Some "podcast") 5 "US"
      (Some {["term" := JStr "show"]}).
Proof.
  apply (additional_term_overrides_query itunes_store "nothing" "show" "podcast"
           (Some "podcast") 5 "US" {["term" := JStr "show"]} (JStr "show"));
    reflexivity.
Defined.

Lemma podcasts_endpoint_reports_failure_witness :
  exists pre,
    (pre = "Request failed: " \/ pre = "Failed to parse response: "
     \/ pre = "Unexpected error: ")
    /\ search_itunes_podcasts itunes_down "show" 10 "US"
       = HTTPError 500 (JStr (pre ++ "connection refused")).
Proof.
  apply (podcasts_endpoint_reports_failure itunes_down "show" 10 "US"
           (Raised RequestException "connection refused")).
  intros url params. reflexivity.
Defined.

Lemma podcasts_endpoint_formats_response_witness :
  search_itunes_podcasts (itunes_serving lookup_payload) "show" 10 "US"
  = Found (format_item <$> [episode_row 1; episode_row 2]).
Proof.
  rewrite (podcasts_endpoint_formats_response (itunes_serving lookup_payload)
             "show" 10 "US"
             {| raise_for_status := None; json_body := Ok (JObj lookup_payload) |}
             lookup_payload (fun _ _ => eq_refl) eq_refl eq_refl).
  reflexivity.
Defined.

Lemma episodes_endpoint_ignores_query_witness :
  search_itunes_episodes itunes_store "" 10 "US" (Some 42)
  = search_itunes_episodes itunes_store "a query" 10 "US" (Some 42).
Proof.
  apply (episodes_endpoint_ignores_query itunes_store itunes_store "" "a query"
           10 "US" 42); [lia|reflexivity].
Defined.

Lemma formatted_rows_follow_results_witness :
  exists rows,
    format_item <$> [episode_row 1; episode_row 2] = format_item <$> rows
    /\ ([JObj header_row; JObj (episode_row 1); JObj (episode_row 2)] = JObj <$> rows
        \/ exists first,
             [JObj header_row; JObj (episode_row 1); JObj (episode_row 2)]
             = first :: (JObj <$> rows)).
Proof.
  apply (formatted_rows_follow_results lookup_payload
           [JObj header_row; JObj (episode_row 1); JObj (episode_row 2)]
           (format_item <$> [episode_row 1; episode_row 2])); reflexivity.
Defined.

End itunes_more.
